(** * wsuits6Chess: the rules engine, embedded and verified

    The development follows the layout of the repository:
    - [ChessLogic]     utils/chessLogic.ts    (move generation, check, applyMove, status)
    - [MoveValidator]  utils/moveValidator.ts (computeEnPassantTarget)
    - [GameContext]    context/GameContext.tsx (promotePawn)

    Numbers that index the board are integers ([Z]); a board is the array of
    arrays the source has, a list of rows of optional pieces. *)

From Stdlib Require Import String Ascii DecimalString.
From Stdlib Require Import ZArith Bool List Lia.
From stdpp Require Import base numbers list.
Import ListNotations.
Local Open Scope Z_scope.

Module ChessLogic.

(** ** Core types *)

Inductive PieceType := king | queen | rook | bishop | knight | pawn.
Inductive PieceColor := white | black.

(** [hasMoved] is optional in the source and only ever tested for truth, so
    a missing flag is [false]. *)
Record ChessPiece := mkPiece {
  type : PieceType;
  color : PieceColor;
  hasMoved : bool
}.

Record Position := mkPos { row : Z; col : Z }.

Abbreviation BoardState := (list (list (option ChessPiece))).

Record MoveResult := mkMoveResult {
  newBoard : BoardState;
  capturedPiece : option ChessPiece;
  isPromotion : bool;
  isCastling : bool;
  isEnPassant : bool
}.

Record GameStatus := mkStatus {
  isCheck : bool;
  isCheckmate : bool;
  isStalemate : bool
}.

Definition typeEq (a b : PieceType) : bool :=
  match a, b with
  | king, king | queen, queen | rook, rook
  | bishop, bishop | knight, knight | pawn, pawn => true
  | _, _ => false
  end.

Definition colorEq (a b : PieceColor) : bool :=
  match a, b with
  | white, white | black, black => true
  | _, _ => false
  end.

(** [color === "white" ? "black" : "white"] *)
Definition opponentOf (c : PieceColor) : PieceColor :=
  match c with white => black | black => white end.

(** [{ ...piece, hasMoved: true }] *)
Definition markMoved (p : ChessPiece) : ChessPiece :=
  {| type := type p; color := color p; hasMoved := true |}.

(** The truth value of a cell: [if (cell)] and [!cell] in the source. *)
Definition truthy (cell : option ChessPiece) : bool :=
  match cell with Some _ => true | None => false end.

(** ** Board helpers *)

Definition isInBounds (r c : Z) : bool :=
  (0 <=? r) && (r <=? 7) && (0 <=? c) && (c <=? 7).

Definition onBoard (p : Position) : Prop :=
  0 <= row p <= 7 /\ 0 <= col p <= 7.

(** The shape every board of the engine has: eight rows of eight cells. *)
Definition wfBoard (board : BoardState) : Prop :=
  length board = 8%nat /\ Forall (fun rw => length rw = 8%nat) board.

(** [board[r][c]], read for its truth value: [null] and [undefined] are both
    [None].  In the source an index [r] that names no row raises a TypeError;
    every read below is either behind [isInBounds] or at a square that the
    statements take on the board, so the embedding reads such a square as
    empty and the statements carry [wfBoard] and [onBoard]. *)
Definition cellAt (board : BoardState) (r c : Z) : option ChessPiece :=
  if (0 <=? r) && (0 <=? c) then
    match board !! Z.to_nat r with
    | Some rw =>
        match rw !! Z.to_nat c with
        | Some cell => cell
        | None => None
        end
    | None => None
    end
  else None.

(** [board[r][c] = v], for a square of the grid.  (Outside the grid the
    source would grow a row or raise, where this definition leaves the board
    as it is; the engine writes only at squares that passed [isInBounds] or
    that its caller took from the board.) *)
Definition setCell (board : BoardState) (r c : Z) (v : option ChessPiece)
  : BoardState :=
  if (0 <=? r) && (0 <=? c) then
    match board !! Z.to_nat r with
    | Some rw => <[Z.to_nat r := <[Z.to_nat c := v]> rw]> board
    | None => board
    end
  else board.

Definition cloneBoard (board : BoardState) : BoardState :=
  map (fun rw =>
         map (fun cell : option ChessPiece =>
                match cell with Some p => Some p | None => None end) rw)
      board.

Definition positionsEqual (a b : Position) : bool :=
  (row a =? row b) && (col a =? col b).

(** ** Raw move generation (ignores check) *)

Definition getPawnMoves (board : BoardState) (pos : Position)
    (clr : PieceColor) (enPassantTarget : option Position) : list Position :=
  let dir := match clr with white => -1 | black => 1 end in
  let startRow := match clr with white => 6 | black => 1 end in
  let r := row pos in
  let c := col pos in
  (* one step forward, then two from the start row *)
  (if isInBounds (r + dir) c && negb (truthy (cellAt board (r + dir) c))
   then mkPos (r + dir) c ::
        (if (r =? startRow) && negb (truthy (cellAt board (r + 2 * dir) c))
         then [mkPos (r + 2 * dir) c] else [])
   else [])
  ++
  (* diagonal captures *)
  flat_map
    (fun dc =>
       let nr := r + dir in
       let nc := c + dc in
       if isInBounds nr nc then
         (match cellAt board nr nc with
          | Some target =>
              if negb (colorEq (color target) clr) then [mkPos nr nc] else []
          | None => []
          end)
         ++
         (match enPassantTarget with
          | Some e =>
              if (row e =? nr) && (col e =? nc) then [mkPos nr nc] else []
          | None => []
          end)
       else [])
    [-1; 1].


(** The [while (isInBounds(r, c))] loop shared by the rook and the bishop:
    walk from (r, c) in direction (dr, dc), stop at the edge, before an own
    piece, or on an enemy piece.  The loop is bounded by the board; [fuel]
    counts its iterations and [slide_fuel] shows that eight are enough. *)
Fixpoint slide (fuel : nat) (board : BoardState) (clr : PieceColor)
    (r c dr dc : Z) : list Position :=
  match fuel with
  | O => []
  | S k =>
      if isInBounds r c then
        match cellAt board r c with
        | None => mkPos r c :: slide k board clr (r + dr) (c + dc) dr dc
        | Some target =>
            if negb (colorEq (color target) clr) then [mkPos r c] else []
        end
      else []
  end.

Definition rookDirections : list (Z * Z) := [(-1, 0); (1, 0); (0, -1); (0, 1)].
Definition bishopDirections : list (Z * Z) :=
  [(-1, -1); (-1, 1); (1, -1); (1, 1)].

Definition getRookMoves (board : BoardState) (pos : Position)
    (clr : PieceColor) : list Position :=
  flat_map
    (fun d : Z * Z =>
       let (dr, dc) := d in
       slide 8 board clr (row pos + dr) (col pos + dc) dr dc)
    rookDirections.

Definition getBishopMoves (board : BoardState) (pos : Position)
    (clr : PieceColor) : list Position :=
  flat_map
    (fun d : Z * Z =>
       let (dr, dc) := d in
       slide 8 board clr (row pos + dr) (col pos + dc) dr dc)
    bishopDirections.

(** The body shared by the knight and king loops: keep (r, c) when it is on
    the board and empty or held by the other colour. *)
Definition stepTo (board : BoardState) (clr : PieceColor) (r c : Z)
  : list Position :=
  if isInBounds r c then
    match cellAt board r c with
    | None => [mkPos r c]
    | Some target =>
        if negb (colorEq (color target) clr) then [mkPos r c] else []
    end
  else [].

Definition knightOffsets : list (Z * Z) :=
  [(-2, -1); (-2, 1); (-1, -2); (-1, 2); (1, -2); (1, 2); (2, -1); (2, 1)].

Definition getKnightMoves (board : BoardState) (pos : Position)
    (clr : PieceColor) : list Position :=
  flat_map
    (fun d : Z * Z =>
       let (dr, dc) := d in stepTo board clr (row pos + dr) (col pos + dc))
    knightOffsets.

Definition getQueenMoves (board : BoardState) (pos : Position)
    (clr : PieceColor) : list Position :=
  getRookMoves board pos clr ++ getBishopMoves board pos clr.

Definition getKingMovesRaw (board : BoardState) (pos : Position)
    (clr : PieceColor) : list Position :=
  flat_map
    (fun dr =>
       flat_map
         (fun dc =>
            if (dr =? 0) && (dc =? 0) then []
            else stepTo board clr (row pos + dr) (col pos + dc))
         [-1; 0; 1])
    [-1; 0; 1].

Definition getRawMoves (board : BoardState) (pos : Position)
    (enPassantTarget : option Position) : list Position :=
  match cellAt board (row pos) (col pos) with
  | None => []
  | Some piece =>
      match type piece with
      | pawn => getPawnMoves board pos (color piece) enPassantTarget
      | rook => getRookMoves board pos (color piece)
      | bishop => getBishopMoves board pos (color piece)
      | knight => getKnightMoves board pos (color piece)
      | queen => getQueenMoves board pos (color piece)
      | king => getKingMovesRaw board pos (color piece)
      end
  end.

(** ** Check detection *)

(** The squares in the order of [for r in 0..7, for c in 0..7]. *)
Definition range8 : list Z := [0; 1; 2; 3; 4; 5; 6; 7].
Definition squares : list Position :=
  flat_map (fun r => map (fun c => mkPos r c) range8) range8.

Definition findKing (board : BoardState) (clr : PieceColor)
  : option Position :=
  List.find
    (fun p =>
       match cellAt board (row p) (col p) with
       | Some piece => typeEq (type piece) king && colorEq (color piece) clr
       | None => false
       end)
    squares.

Definition isSquareAttacked (board : BoardState) (pos : Position)
    (byColor : PieceColor) : bool :=
  existsb
    (fun p =>
       match cellAt board (row p) (col p) with
       | Some piece =>
           colorEq (color piece) byColor
           && existsb (fun m => positionsEqual m pos) (getRawMoves board p None)
       | None => false
       end)
    squares.

Definition isInCheck (board : BoardState) (clr : PieceColor) : bool :=
  match findKing board clr with
  | None => false
  | Some kingPos => isSquareAttacked board kingPos (opponentOf clr)
  end.

(** ** Castling *)

Definition getCastlingMoves (board : BoardState) (pos : Position)
    (clr : PieceColor) : list Position :=
  match cellAt board (row pos) (col pos) with
  | None => []
  | Some kg =>
      if hasMoved kg then []
      else
        let opponent := opponentOf clr in
        let rw := match clr with white => 7 | black => 0 end in
        if negb (row pos =? rw) || negb (col pos =? 4) then []
        else
          (* kingside *)
          (match cellAt board rw 7 with
           | Some kRook =>
               if typeEq (type kRook) rook && negb (hasMoved kRook)
                  && negb (truthy (cellAt board rw 5))
                  && negb (truthy (cellAt board rw 6))
                  && negb (isSquareAttacked board (mkPos rw 4) opponent)
                  && negb (isSquareAttacked board (mkPos rw 5) opponent)
                  && negb (isSquareAttacked board (mkPos rw 6) opponent)
               then [mkPos rw 6] else []
           | None => []
           end)
          ++
          (* queenside *)
          (match cellAt board rw 0 with
           | Some qRook =>
               if typeEq (type qRook) rook && negb (hasMoved qRook)
                  && negb (truthy (cellAt board rw 1))
                  && negb (truthy (cellAt board rw 2))
                  && negb (truthy (cellAt board rw 3))
                  && negb (isSquareAttacked board (mkPos rw 4) opponent)
                  && negb (isSquareAttacked board (mkPos rw 3) opponent)
                  && negb (isSquareAttacked board (mkPos rw 2) opponent)
               then [mkPos rw 2] else []
           | None => []
           end)
  end.


(** ** Legal move generation *)

(** The scratch board built by the filter callback of [getLegalMoves] for
    the candidate [to]. *)
Definition scratchBoard (board : BoardState) (pos : Position)
    (piece : ChessPiece) (enPassantTarget : option Position) (to : Position)
  : BoardState :=
  let nb := cloneBoard board in
  let nb := setCell nb (row to) (col to) (Some (markMoved piece)) in
  let nb := setCell nb (row pos) (col pos) None in
  if typeEq (type piece) pawn
     && match enPassantTarget with
        | Some e => positionsEqual to e
        | None => false
        end
  then
    let captureRow := row pos in
    setCell nb captureRow (col to) None
  else nb.

Definition getLegalMoves (board : BoardState) (pos : Position)
    (enPassantTarget : option Position) : list Position :=
  match cellAt board (row pos) (col pos) with
  | None => []
  | Some piece =>
      let candidates := getRawMoves board pos enPassantTarget in
      let candidates :=
        if typeEq (type piece) king
        then candidates ++ getCastlingMoves board pos (color piece)
        else candidates in
      List.filter
        (fun to =>
           negb (isInCheck (scratchBoard board pos piece enPassantTarget to)
                           (color piece)))
        candidates
  end.

(** ** Apply move *)

(** [applyMove] dereferences the piece at [from] ([piece.type]), which raises
    a TypeError on an empty square, and asserts with [!] that the castling
    corner holds a rook; [None] stands for both failures (for the second the
    source would go on with an object that has no type and no colour, which
    [ChessPiece] cannot hold). *)
Definition applyMove (board : BoardState) (from to : Position)
    (enPassantTarget : option Position) : option MoveResult :=
  let nb := cloneBoard board in
  match cellAt nb (row from) (col from) with
  | None => None
  | Some piece =>
      let captured := cellAt nb (row to) (col to) in
      (* en passant *)
      let enPassant :=
        typeEq (type piece) pawn
        && match enPassantTarget with
           | Some e => positionsEqual to e
           | None => false
           end in
      let captured :=
        if enPassant then cellAt nb (row from) (col to) else captured in
      let nb := if enPassant then setCell nb (row from) (col to) None else nb in
      (* castling *)
      let colDiff := col to - col from in
      let castling := typeEq (type piece) king && (Z.abs colDiff =? 2) in
      let rookFromCol := if 0 <? colDiff then 7 else 0 in
      let rookToCol := if 0 <? colDiff then 5 else 3 in
      match
        (if castling then
           match cellAt nb (row from) rookFromCol with
           | Some rk =>
               Some (setCell
                       (setCell nb (row from) rookToCol (Some (markMoved rk)))
                       (row from) rookFromCol None)
           | None => None
           end
         else Some nb)
      with
      | None => None
      | Some nb =>
          let nb := setCell nb (row to) (col to) (Some (markMoved piece)) in
          let nb := setCell nb (row from) (col from) None in
          Some {| newBoard := nb;
                  capturedPiece := captured;
                  isPromotion :=
                    typeEq (type piece) pawn
                    && ((row to =? 0) || (row to =? 7));
                  isCastling := castling;
                  isEnPassant := enPassant |}
      end
  end.

(** ** Game status *)

Definition hasAnyLegalMoves (board : BoardState) (clr : PieceColor)
    (enPassantTarget : option Position) : bool :=
  existsb
    (fun p =>
       match cellAt board (row p) (col p) with
       | Some piece =>
           colorEq (color piece) clr
           && (0 <? Z.of_nat (length (getLegalMoves board p enPassantTarget)))
       | None => false
       end)
    squares.

Definition getGameStatus (board : BoardState) (currentTurn : PieceColor)
    (enPassantTarget : option Position) : GameStatus :=
  let inCheck := isInCheck board currentTurn in
  let hasLegal := hasAnyLegalMoves board currentTurn enPassantTarget in
  {| isCheck := inCheck;
     isCheckmate := inCheck && negb hasLegal;
     isStalemate := negb inCheck && negb hasLegal |}.

End ChessLogic.

Module MoveValidator.
Import ChessLogic.

(** [targetRow] is computed only when the rows differ by two, so the sum of
    the rows is even and the division of the source is exact. *)
Definition computeEnPassantTarget (board : BoardState) (from to : Position)
  : option Position :=
  match cellAt board (row from) (col from) with
  | None => None
  | Some piece =>
      if negb (typeEq (type piece) pawn) then None
      else
        let rowDiff := Z.abs (row to - row from) in
        if negb (rowDiff =? 2) then None
        else
          let targetRow := (row from + row to) / 2 in
          Some (mkPos targetRow (col from))
  end.

Record ValidationResult := mkValidation {
  isValid : bool;
  reason : option string
}.

Record MoveContext := mkContext {
  board : BoardState;
  from : Position;
  to : Position;
  currentTurn : PieceColor;
  enPassantTarget : option Position
}.

Definition validateMove (ctx : MoveContext) : ValidationResult :=
  match cellAt (board ctx) (row (from ctx)) (col (from ctx)) with
  | None =>
      {| isValid := false; reason := Some "No piece at source square."%string |}
  | Some piece =>
      if negb (colorEq (color piece) (currentTurn ctx)) then
        {| isValid := false; reason := Some "It is not your turn."%string |}
      else
        let legal := getLegalMoves (board ctx) (from ctx) (enPassantTarget ctx) in
        let isLegal := existsb (fun m => positionsEqual m (to ctx)) legal in
        if negb isLegal then
          {| isValid := false; reason := Some "That move is not legal."%string |}
        else {| isValid := true; reason := None |}
  end.

Definition isMovePromotion (bd : BoardState) (src dst : Position) : bool :=
  match cellAt bd (row src) (col src) with
  | None => false
  | Some piece =>
      if negb (typeEq (type piece) pawn) then false
      else (row dst =? 0) || (row dst =? 7)
  end.

Definition isMovecastling (bd : BoardState) (src dst : Position) : bool :=
  match cellAt bd (row src) (col src) with
  | None => false
  | Some piece =>
      if negb (typeEq (type piece) king) then false
      else Z.abs (col dst - col src) =? 2
  end.

(** The objects [{ from, to }] of the source are pairs here. *)
Definition getAllLegalMoves (bd : BoardState) (clr : PieceColor)
    (ep : option Position) : list (Position * Position) :=
  flat_map
    (fun src =>
       match cellAt bd (row src) (col src) with
       | Some piece =>
           if colorEq (color piece) clr
           then map (fun dst => (src, dst)) (getLegalMoves bd src ep)
           else []
       | None => []
       end)
    squares.

(** [{ ...status, newEnPassantTarget }] *)
Record Evaluation := mkEvaluation {
  status : GameStatus;
  newEnPassantTarget : option Position
}.

(** [None] where [applyMove] fails. *)
Definition evaluateAfterMove (bd : BoardState) (src dst : Position)
    (ep : option Position) : option Evaluation :=
  match applyMove bd src dst ep with
  | None => None
  | Some result =>
      match cellAt bd (row src) (col src) with
      | None => None
      | Some piece =>
          let opponent := opponentOf (color piece) in
          Some {| status := getGameStatus (newBoard result) opponent None;
                  newEnPassantTarget := computeEnPassantTarget bd src dst |}
      end
  end.

End MoveValidator.

Module GameContext.
Import ChessLogic.

(** The [GameState] interface of chessLogic.ts, held by the provider. *)
Record GameState := mkGameState {
  board : BoardState;
  currentTurn : PieceColor;
  selectedSquare : option Position;
  validMoves : list Position;
  isCheck : bool;
  isCheckmate : bool;
  isStalemate : bool;
  enPassantTarget : option Position;
  capturedWhite : list ChessPiece;
  capturedBlack : list ChessPiece
}.

Record PromotionPending := mkPending {
  position : Position;
  pendingColor : PieceColor;
  pendingFrom : Position
}.

(** The hooks of [GameProvider] that [promotePawn] reads or sets; the move
    history and the two clocks are not touched by it. *)
Record Provider := mkProvider {
  gameState : GameState;
  promotionPending : option PromotionPending;
  isGameOver : bool;
  winner : option PieceColor
}.

Definition promotePawn (st : Provider) (pieceType : PieceType) : Provider :=
  match promotionPending st with
  | None => st
  | Some pending =>
      let clr := pendingColor pending in
      let newBoard :=
        setCell (cloneBoard (board (gameState st)))
                (row (position pending)) (col (position pending))
                (Some {| type := pieceType; color := clr; hasMoved := true |}) in
      let opponent := opponentOf clr in
      let status := getGameStatus newBoard opponent None in
      let prev := gameState st in
      {| gameState :=
           {| board := newBoard;
              currentTurn := opponent;
              selectedSquare := selectedSquare prev;
              validMoves := validMoves prev;
              isCheck := ChessLogic.isCheck status;
              isCheckmate := ChessLogic.isCheckmate status;
              isStalemate := ChessLogic.isStalemate status;
              enPassantTarget := None;
              capturedWhite := capturedWhite prev;
              capturedBlack := capturedBlack prev |};
         promotionPending := None;
         isGameOver :=
           if ChessLogic.isCheckmate status then true
           else if ChessLogic.isStalemate status then true
           else isGameOver st;
         winner :=
           if ChessLogic.isCheckmate status then Some clr
           else if ChessLogic.isStalemate status then None
           else winner st |}
  end.

End GameContext.

(** * Notions used in the statements *)

Module Notions.
Import ChessLogic.

(** A unit direction: each component is -1, 0 or 1 and not both are 0. *)
Definition unitDir (dr dc : Z) : Prop :=
  -1 <= dr <= 1 /\ -1 <= dc <= 1 /\ (dr <> 0 \/ dc <> 0).

(** How many squares of the board the walk from (r, c) can still visit. *)
Definition room (r c dr dc : Z) : Z :=
  if dr =? 1 then 8 - r
  else if dr =? -1 then r + 1
  else if dc =? 1 then 8 - c
  else c + 1.

(** What [getCastlingMoves] has checked when it offers a side. *)
Definition kingsideClear (board : BoardState) (clr : PieceColor) (rw : Z)
  : Prop :=
  exists rk,
    cellAt board rw 7 = Some rk /\ type rk = rook /\ hasMoved rk = false /\
    cellAt board rw 5 = None /\ cellAt board rw 6 = None /\
    isSquareAttacked board (mkPos rw 4) (opponentOf clr) = false /\
    isSquareAttacked board (mkPos rw 5) (opponentOf clr) = false /\
    isSquareAttacked board (mkPos rw 6) (opponentOf clr) = false.

Definition queensideClear (board : BoardState) (clr : PieceColor) (rw : Z)
  : Prop :=
  exists rk,
    cellAt board rw 0 = Some rk /\ type rk = rook /\ hasMoved rk = false /\
    cellAt board rw 1 = None /\ cellAt board rw 2 = None /\
    cellAt board rw 3 = None /\
    isSquareAttacked board (mkPos rw 4) (opponentOf clr) = false /\
    isSquareAttacked board (mkPos rw 3) (opponentOf clr) = false /\
    isSquareAttacked board (mkPos rw 2) (opponentOf clr) = false.

Definition backRank (clr : PieceColor) : Z :=
  match clr with white => 7 | black => 0 end.

(** The direction in which [m] lies from [pos]. *)
Definition heading (pos m : Position) : Z * Z :=
  (Z.sgn (row m - row pos), Z.sgn (col m - col pos)).

(** The en-passant target, when there is one, is an empty square: it is the
    square a pawn has just skipped. *)
Definition epFree (board : BoardState) (ep : option Position) : Prop :=
  match ep with
  | Some e => cellAt board (row e) (col e) = None
  | None => True
  end.

(** A square on which a piece of [clr] may land: empty, or held by the
    other colour. *)
Definition landable (board : BoardState) (clr : PieceColor) (m : Position)
  : Prop :=
  forall t, cellAt board (row m) (col m) = Some t -> color t = opponentOf clr.

(** [m] lies [k] steps from [pos] in direction (dr, dc), on the board, with
    nothing standing in between, and a piece of [clr] may land on it. *)
Definition reaches (board : BoardState) (clr : PieceColor) (pos : Position)
    (dr dc : Z) (m : Position) : Prop :=
  exists k,
    1 <= k /\ row m = row pos + k * dr /\ col m = col pos + k * dc /\
    isInBounds (row m) (col m) = true /\
    (forall j, 1 <= j < k ->
       cellAt board (row pos + j * dr) (col pos + j * dc) = None) /\
    landable board clr m.

(** The en-passant target as a game produces it, seen from the side [clr]
    that is to move: an empty square, and on the square behind it (one row
    further in the direction [clr] moves away from) stands a piece of the
    other side, the pawn that has just skipped the target. *)
Definition epBehind (board : BoardState) (clr : PieceColor)
    (ep : option Position) : Prop :=
  match ep with
  | Some e =>
      cellAt board (row e) (col e) = None /\
      exists q,
        cellAt board
          (row e - (match clr with white => -1 | black => 1 end)) (col e)
        = Some q /\
        color q = opponentOf clr
  | None => True
  end.

(** What a cell adds to the count of the pieces of colour [clr] and kind
    [ty]. *)
Definition credit (cell : option ChessPiece) (clr : PieceColor)
    (ty : PieceType) : Z :=
  match cell with
  | Some p => if colorEq clr (color p) && typeEq ty (type p) then 1 else 0
  | None => 0
  end.

(** The sum of [f] over a list of squares. *)
Definition total (f : Position -> Z) (l : list Position) : Z :=
  fold_right (fun p s => f p + s) 0 l.

(** No piece of [clr] has a legal move. *)
Definition noLegalMove (board : BoardState) (clr : PieceColor)
    (ep : option Position) : Prop :=
  forall p piece,
    onBoard p -> cellAt board (row p) (col p) = Some piece ->
    color piece = clr -> getLegalMoves board p ep = [].

End Notions.

(** * utils/initialBoard.ts *)

Module InitialBoard.
Import ChessLogic.

Definition piece (t : PieceType) (clr : PieceColor) : ChessPiece :=
  {| type := t; color := clr; hasMoved := false |}.

(** [Array(8).fill(null).map(() => Array(8).fill(null))] *)
Definition emptyBoard : BoardState := repeat (repeat None 8) 8.

Definition createInitialBoard : BoardState :=
  let board := emptyBoard in
  (* black back rank *)
  let board := setCell board 0 0 (Some (piece rook black)) in
  let board := setCell board 0 1 (Some (piece knight black)) in
  let board := setCell board 0 2 (Some (piece bishop black)) in
  let board := setCell board 0 3 (Some (piece queen black)) in
  let board := setCell board 0 4 (Some (piece king black)) in
  let board := setCell board 0 5 (Some (piece bishop black)) in
  let board := setCell board 0 6 (Some (piece knight black)) in
  let board := setCell board 0 7 (Some (piece rook black)) in
  (* black pawns, white pawns *)
  let board :=
    fold_left (fun bd c => setCell bd 1 c (Some (piece pawn black)))
              range8 board in
  let board :=
    fold_left (fun bd c => setCell bd 6 c (Some (piece pawn white)))
              range8 board in
  (* white back rank *)
  let board := setCell board 7 0 (Some (piece rook white)) in
  let board := setCell board 7 1 (Some (piece knight white)) in
  let board := setCell board 7 2 (Some (piece bishop white)) in
  let board := setCell board 7 3 (Some (piece queen white)) in
  let board := setCell board 7 4 (Some (piece king white)) in
  let board := setCell board 7 5 (Some (piece bishop white)) in
  let board := setCell board 7 6 (Some (piece knight white)) in
  let board := setCell board 7 7 (Some (piece rook white)) in
  board.

End InitialBoard.

(** * context/GameContext.tsx: the rest of the provider *)

Module GameSession.
Import ChessLogic InitialBoard.
Import GameContext.

Definition files : list string :=
  ["a"; "b"; "c"; "d"; "e"; "f"; "g"; "h"]%string.

(** The decimal text JavaScript gives an integer in a template literal. *)
Definition numberText (n : Z) : string := NilZero.string_of_int (Z.to_int n).

(** [`${files[pos.col]}${8 - pos.row}`]; an index outside [files] reads
    [undefined], which the template prints as such. *)
Definition toAlgebraic (pos : Position) : string :=
  String.append
    (match (if 0 <=? col pos then nth_error files (Z.to_nat (col pos))
            else None) with
     | Some f => f
     | None => "undefined"%string
     end)
    (numberText (8 - row pos)).

Definition createInitialGameState : GameState :=
  {| board := createInitialBoard;
     currentTurn := white;
     selectedSquare := None;
     validMoves := [];
     isCheck := false;
     isCheckmate := false;
     isStalemate := false;
     enPassantTarget := None;
     capturedWhite := [];
     capturedBlack := [] |}.

(** All the hooks of [GameProvider]: those of [Provider], the move history
    and the two clocks. *)
Record Session := mkSession {
  provider : Provider;
  moveHistory : list string;
  whiteTime : Z;
  blackTime : Z
}.

(** [setGameState((prev) => ({ ...prev, selectedSquare, validMoves }))] *)
Definition withSelection (g : GameState) (sel : option Position)
    (moves : list Position) : GameState :=
  {| board := board g;
     currentTurn := currentTurn g;
     selectedSquare := sel;
     validMoves := moves;
     isCheck := isCheck g;
     isCheckmate := isCheckmate g;
     isStalemate := isStalemate g;
     enPassantTarget := enPassantTarget g;
     capturedWhite := capturedWhite g;
     capturedBlack := capturedBlack g |}.

Definition setGame (s : Session) (g : GameState) : Session :=
  {| provider :=
       {| gameState := g;
          promotionPending := promotionPending (provider s);
          isGameOver := isGameOver (provider s);
          winner := winner (provider s) |};
     moveHistory := moveHistory s;
     whiteTime := whiteTime s;
     blackTime := blackTime s |}.

(** [selectSquare].  Where [applyMove] fails the source raises before any
    hook is set, so the state stays as it was. *)
Definition selectSquare (s : Session) (position : Position) : Session :=
  if isGameOver (provider s) then s
  else
    let g := gameState (provider s) in
    let clickedPiece := cellAt (board g) (row position) (col position) in
    let ownPiece :=
      match clickedPiece with
      | Some p => colorEq (color p) (currentTurn g)
      | None => false
      end in
    match selectedSquare g with
    | Some selected =>
        let isValidDest :=
          existsb
            (fun m => (row m =? row position) && (col m =? col position))
            (validMoves g) in
        if isValidDest then
          (* attempt the move *)
          let validation :=
            MoveValidator.validateMove
              (MoveValidator.mkContext (board g) selected position
                 (currentTurn g) (enPassantTarget g)) in
          if negb (MoveValidator.isValid validation) then
            setGame s (withSelection g None [])
          else
            match applyMove (board g) selected position (enPassantTarget g)
            with
            | None => s
            | Some result =>
                let newCapturedWhite :=
                  match capturedPiece result with
                  | Some cp =>
                      if colorEq (color cp) white
                      then capturedWhite g ++ [cp] else capturedWhite g
                  | None => capturedWhite g
                  end in
                let newCapturedBlack :=
                  match capturedPiece result with
                  | Some cp =>
                      if colorEq (color cp) white
                      then capturedBlack g else capturedBlack g ++ [cp]
                  | None => capturedBlack g
                  end in
                let notation :=
                  String.append (toAlgebraic selected)
                    (String.append "-"%string (toAlgebraic position)) in
                let history := moveHistory s ++ [notation] in
                if isPromotion result then
                  {| provider :=
                       {| gameState :=
                            {| board := newBoard result;
                               currentTurn := currentTurn g;
                               selectedSquare := None;
                               validMoves := [];
                               isCheck := isCheck g;
                               isCheckmate := isCheckmate g;
                               isStalemate := isStalemate g;
                               enPassantTarget := enPassantTarget g;
                               capturedWhite := newCapturedWhite;
                               capturedBlack := newCapturedBlack |};
                          promotionPending :=
                            Some {| position := position;
                                    pendingColor := currentTurn g;
                                    pendingFrom := selected |};
                          isGameOver := isGameOver (provider s);
                          winner := winner (provider s) |};
                     moveHistory := history;
                     whiteTime := whiteTime s;
                     blackTime := blackTime s |}
                else
                  let newEnPassant :=
                    MoveValidator.computeEnPassantTarget
                      (board g) selected position in
                  let opponent := opponentOf (currentTurn g) in
                  let status :=
                    getGameStatus (newBoard result) opponent newEnPassant in
                  {| provider :=
                       {| gameState :=
                            {| board := newBoard result;
                               currentTurn := opponent;
                               selectedSquare := None;
                               validMoves := [];
                               isCheck := ChessLogic.isCheck status;
                               isCheckmate := ChessLogic.isCheckmate status;
                               isStalemate := ChessLogic.isStalemate status;
                               enPassantTarget := newEnPassant;
                               capturedWhite := newCapturedWhite;
                               capturedBlack := newCapturedBlack |};
                          promotionPending := promotionPending (provider s);
                          isGameOver :=
                            if ChessLogic.isCheckmate status then true
                            else if ChessLogic.isStalemate status then true
                            else isGameOver (provider s);
                          winner :=
                            if ChessLogic.isCheckmate status
                            then Some (currentTurn g)
                            else if ChessLogic.isStalemate status then None
                            else winner (provider s) |};
                     moveHistory := history;
                     whiteTime := whiteTime s;
                     blackTime := blackTime s |}
            end
        else if ownPiece then
          (* clicked own piece: re-select *)
          setGame s
            (withSelection g (Some position)
               (getLegalMoves (board g) position (enPassantTarget g)))
        else
          (* clicked empty or enemy, not a valid move: deselect *)
          setGame s (withSelection g None [])
    | None =>
        if ownPiece then
          setGame s
            (withSelection g (Some position)
               (getLegalMoves (board g) position (enPassantTarget g)))
        else s
    end.

(** [promotePawn] on the whole session: it sets none of the other hooks. *)
Definition promote (s : Session) (pieceType : PieceType) : Session :=
  {| provider := promotePawn (provider s) pieceType;
     moveHistory := moveHistory s;
     whiteTime := whiteTime s;
     blackTime := blackTime s |}.

Definition resetGame (s : Session) : Session :=
  {| provider :=
       {| gameState := createInitialGameState;
          promotionPending := None;
          isGameOver := false;
          winner := None |};
     moveHistory := [];
     whiteTime := 600;
     blackTime := 600 |}.

Definition handleTimeout (s : Session) (clr : PieceColor) : Session :=
  {| provider :=
       {| gameState := gameState (provider s);
          promotionPending := promotionPending (provider s);
          isGameOver := true;
          winner := Some (match clr with white => black | black => white end) |};
     moveHistory := moveHistory s;
     whiteTime := whiteTime s;
     blackTime := blackTime s |}.

(** The session with no promotion pending. *)
Definition clearPending (s : Session) : Session :=
  {| provider :=
       {| gameState := gameState (provider s);
          promotionPending := None;
          isGameOver := isGameOver (provider s);
          winner := winner (provider s) |};
     moveHistory := moveHistory s;
     whiteTime := whiteTime s;
     blackTime := blackTime s |}.

(** The hooks as [useState] initialises them. *)
Definition initialSession : Session :=
  {| provider :=
       {| gameState := createInitialGameState;
          promotionPending := None;
          isGameOver := false;
          winner := None |};
     moveHistory := [];
     whiteTime := 600;
     blackTime := 600 |}.

(** [setWhiteTime] and [setBlackTime], which the provider hands out. *)
Definition setClocks (s : Session) (w b : Z) : Session :=
  {| provider := provider s;
     moveHistory := moveHistory s;
     whiteTime := w;
     blackTime := b |}.

(** The sessions the provider can be in: the initial one and whatever its
    actions make of it, for clicks on squares of the board. *)
Inductive reachable : Session -> Prop :=
| reach_initial : reachable initialSession
| reach_select s pos :
    reachable s -> onBoard pos -> reachable (selectSquare s pos)
| reach_promote s kind : reachable s -> reachable (promote s kind)
| reach_reset s : reachable s -> reachable (resetGame s)
| reach_timeout s clr : reachable s -> reachable (handleTimeout s clr)
| reach_clocks s w b : reachable s -> reachable (setClocks s w b).

(** What holds of every reachable session. *)
Definition sound (s : Session) : Prop :=
  let g := gameState (provider s) in
  wfBoard (board g) /\
  (isCheckmate g || isStalemate g = true -> isGameOver (provider s) = true) /\
  Forall (fun p => color p = white) (capturedWhite g) /\
  Forall (fun p => color p = black) (capturedBlack g).

(** The selection shows the legal moves of the selected square. *)
Definition selectionFresh (g : GameState) : Prop :=
  match selectedSquare g with
  | Some sel => validMoves g = getLegalMoves (board g) sel (enPassantTarget g)
  | None => validMoves g = []
  end.

End GameSession.

(** * The hooks and components around the provider *)

Module GameLogic.
Import ChessLogic.

(** hooks/useGameLogic: [PIECE_VALUES] and [getMaterialAdvantage].  The
    fields [white] and [black] of the result carry the names of the
    variables they are filled from, [advantage] is [None] for "equal". *)
Definition PIECE_VALUES (t : PieceType) : Z :=
  match t with
  | pawn => 1 | knight => 3 | bishop => 3 | rook => 5 | queen => 9 | king => 0
  end.

Record MaterialAdvantage := mkMaterial {
  whiteScore : Z;
  blackScore : Z;
  advantage : option PieceColor;
  diff : Z
}.

Definition getMaterialAdvantage (capturedWhite capturedBlack : list ChessPiece)
  : MaterialAdvantage :=
  let whiteScore :=
    fold_left (fun score p => score + PIECE_VALUES (type p)) capturedBlack 0 in
  let blackScore :=
    fold_left (fun score p => score + PIECE_VALUES (type p)) capturedWhite 0 in
  let diff := whiteScore - blackScore in
  {| whiteScore := whiteScore;
     blackScore := blackScore;
     advantage :=
       if 0 <? diff then Some white
       else if diff <? 0 then Some black else None;
     diff := Z.abs diff |}.

(** components/Game/GameStatus: the loop of [MoveHistory] that pairs the
    moves, [moves[i + 1]] being [undefined] past the end. *)
Fixpoint pairMoves (moves : list string) : list (string * option string) :=
  match moves with
  | [] => []
  | [w] => [(w, None)]
  | w :: b :: rest => (w, Some b) :: pairMoves rest
  end.

(** The moves a list of pairs shows, in order. *)
Definition shownMoves (pairs : list (string * option string)) : list string :=
  flat_map
    (fun pr : string * option string =>
       fst pr :: match snd pr with Some b => [b] | None => [] end)
    pairs.

(** hooks/useGameLogic: [getPieceCounts].  The record of counters per colour
    and kind is a function of the two; [bump] is
    [counts[piece.color][piece.type]++], and the two loops visit the squares
    in the order of [squares]. *)
Definition PieceCounts : Type := PieceColor -> PieceType -> Z.

Definition bump (counts : PieceCounts) (p : ChessPiece) : PieceCounts :=
  fun clr ty =>
    if colorEq clr (color p) && typeEq ty (type p)
    then counts clr ty + 1 else counts clr ty.

Definition getPieceCounts (boardState : BoardState) : PieceCounts :=
  fold_left
    (fun counts pos =>
       match cellAt boardState (row pos) (col pos) with
       | Some p => bump counts p
       | None => counts
       end)
    squares (fun _ _ => 0).

End GameLogic.

(** * hooks/useTimer *)

Module Timer.
Import ChessLogic GameContext GameSession.

(** [String(n).padStart(2, "0")] *)
Definition padStart2 (text : string) : string :=
  match String.length text with
  | O => "00"%string
  | S O => String.append "0"%string text
  | _ => text
  end.

(** [formatTime]: [Math.floor(seconds / 60)] and [seconds % 60], each padded
    to two places, with a colon between. *)
Definition formatTime (seconds : Z) : string :=
  let m := seconds / 60 in
  let sec := Z.rem seconds 60 in
  String.append (padStart2 (numberText m))
    (String.append ":"%string (padStart2 (numberText sec))).

(** One run of the interval callback.  The effect installs the interval
    only while the game is running; the callback takes a second from the
    clock of the side to move and calls [handleTimeout] when that clock was
    at one second or less. *)
Definition tick (s : Session) : Session :=
  let g := gameState (provider s) in
  if isGameOver (provider s) || isCheckmate g || isStalemate g then s
  else
    match currentTurn g with
    | white =>
        if whiteTime s <=? 1
        then handleTimeout (setClocks s 0 (blackTime s)) white
        else setClocks s (whiteTime s - 1) (blackTime s)
    | black =>
        if blackTime s <=? 1
        then handleTimeout (setClocks s (whiteTime s) 0) black
        else setClocks s (whiteTime s) (blackTime s - 1)
    end.

(** The clock of a colour. *)
Definition clock (clr : PieceColor) (s : Session) : Z :=
  match clr with white => whiteTime s | black => blackTime s end.

(** Reading back a text of the form mm:ss. *)
Definition digitOf (c : ascii) : Z := Z.of_nat (nat_of_ascii c) - 48.

Definition readClock (text : string) : option Z :=
  match text with
  | String m1 (String m0 (String _ (String s1 (String s0 EmptyString)))) =>
      Some ((10 * digitOf m1 + digitOf m0) * 60 + 10 * digitOf s1 + digitOf s0)
  | _ => None
  end.

End Timer.

(** * Positions used as examples *)

Module Positions.
Import ChessLogic InitialBoard.

(** An empty board with the listed pieces put on it. *)
Definition boardOf (l : list (Z * Z * ChessPiece)) : BoardState :=
  fold_left (fun bd e => let '(r, c, p) := e in setCell bd r c (Some p))
            l emptyBoard.

(** Kings on e1 and e8, white rooks on a1 and h1, nothing has moved. *)
Definition castlingReady : BoardState :=
  boardOf [(0, 4, piece king black);
           (7, 0, piece rook white); (7, 4, piece king white);
           (7, 7, piece rook white)].


(** White pawn on e5, black pawn on d5 after d7-d5; the target is d6. *)
Definition enPassantReady : BoardState :=
  boardOf [(0, 4, piece king black);
           (3, 3, mkPiece pawn black true); (3, 4, mkPiece pawn white true);
           (7, 4, piece king white)].

(** As above, with a black knight standing on d6. *)
Definition enPassantOccupied : BoardState :=
  setCell enPassantReady 2 3 (Some (mkPiece knight black true)).

(** White pawn still on e2, a black pawn waiting on d4 beside e4. *)
Definition enPassantSetup : BoardState :=
  boardOf [(0, 4, piece king black);
           (4, 3, mkPiece pawn black true); (6, 4, piece pawn white);
           (7, 4, piece king white)].

(** A board that has lost its white king. *)
Definition noWhiteKing : BoardState :=
  boardOf [(0, 4, piece king black); (7, 0, piece rook white)].

(** Back-rank mate: white king h1 behind its pawns, black rook on a1. *)
Definition backRankMate : BoardState :=
  boardOf [(0, 4, piece king black);
           (6, 6, piece pawn white); (6, 7, piece pawn white);
           (7, 0, mkPiece rook black true); (7, 7, mkPiece king white true)].

(** A white pawn has just reached a8 and waits for its promotion. *)
Definition promotionBoard : BoardState :=
  boardOf [(0, 0, mkPiece pawn white true); (0, 4, piece king black);
           (7, 4, piece king white)].

Definition promotionState : GameContext.Provider :=
  {| GameContext.gameState :=
       {| GameContext.board := promotionBoard;
          GameContext.currentTurn := white;
          GameContext.selectedSquare := None;
          GameContext.validMoves := [];
          GameContext.isCheck := false;
          GameContext.isCheckmate := false;
          GameContext.isStalemate := false;
          GameContext.enPassantTarget := None;
          GameContext.capturedWhite := [];
          GameContext.capturedBlack := [] |};
     GameContext.promotionPending :=
       Some {| GameContext.position := mkPos 0 0;
               GameContext.pendingColor := white;
               GameContext.pendingFrom := mkPos 1 0 |};
     GameContext.isGameOver := false;
     GameContext.winner := None |}.

(** White to move with a pawn on a7, selected, one step from promotion. *)
Definition promotionReady : GameSession.Session :=
  let bd := boardOf [(0, 4, piece king black);
                     (1, 0, mkPiece pawn white true);
                     (7, 4, piece king white)] in
  {| GameSession.provider :=
       {| GameContext.gameState :=
            {| GameContext.board := bd;
               GameContext.currentTurn := white;
               GameContext.selectedSquare := Some (mkPos 1 0);
               GameContext.validMoves := getLegalMoves bd (mkPos 1 0) None;
               GameContext.isCheck := false;
               GameContext.isCheckmate := false;
               GameContext.isStalemate := false;
               GameContext.enPassantTarget := None;
               GameContext.capturedWhite := [];
               GameContext.capturedBlack := [] |};
          GameContext.promotionPending := None;
          GameContext.isGameOver := false;
          GameContext.winner := None |};
     GameSession.moveHistory := [];
     GameSession.whiteTime := 600;
     GameSession.blackTime := 600 |}.

End Positions.

(** * Facts about the board *)

Module BoardFacts.
Import ChessLogic Notions.

Lemma isInBounds_spec r c :
  isInBounds r c = true <-> (0 <= r <= 7 /\ 0 <= c <= 7).
Proof. unfold isInBounds. rewrite !andb_true_iff, !Z.leb_le. lia. Qed.

Lemma isInBounds_false r c :
  isInBounds r c = false <-> ~ (0 <= r <= 7 /\ 0 <= c <= 7).
Proof.
  rewrite <- isInBounds_spec. destruct (isInBounds r c); split; congruence.
Qed.

Lemma onBoard_inBounds p : onBoard p <-> isInBounds (row p) (col p) = true.
Proof. unfold onBoard. now rewrite isInBounds_spec. Qed.

Lemma positionsEqual_eq a b : positionsEqual a b = true <-> a = b.
Proof.
  unfold positionsEqual. rewrite andb_true_iff, !Z.eqb_eq.
  destruct a, b; simpl; split; [intros [-> ->]; reflexivity | intros [= -> ->]; auto].
Qed.

Lemma positionsEqual_refl a : positionsEqual a a = true.
Proof. now apply positionsEqual_eq. Qed.

Lemma typeEq_eq a b : typeEq a b = true <-> a = b.
Proof. destruct a, b; simpl; split; congruence. Qed.

Lemma colorEq_eq a b : colorEq a b = true <-> a = b.
Proof. destruct a, b; simpl; split; congruence. Qed.

Lemma colorEq_opponent a : colorEq a (opponentOf a) = false.
Proof. now destruct a. Qed.

Lemma colorEq_false a b : colorEq a b = false <-> a = opponentOf b.
Proof. destruct a, b; simpl; split; congruence. Qed.

(** Copying a board cell by cell gives the same value. *)
Lemma cloneBoard_id (board : BoardState) : cloneBoard board = board.
Proof.
  unfold cloneBoard. induction board as [|rw rest IH]; simpl; [reflexivity|].
  rewrite IH. f_equal.
  induction rw as [|cell rw' IHr]; simpl; [reflexivity|].
  rewrite IHr. now destruct cell.
Qed.

Lemma wfBoard_lookup (board : BoardState) i rw :
  wfBoard board -> board !! i = Some rw -> length rw = 8%nat.
Proof.
  intros [_ Hrows] Hrw. rewrite Forall_forall in Hrows. apply Hrows.
  eapply list_elem_of_lookup_2. eassumption.
Qed.

Lemma wfBoard_row (board : BoardState) r :
  wfBoard board -> 0 <= r <= 7 ->
  exists rw, board !! Z.to_nat r = Some rw /\ length rw = 8%nat.
Proof.
  intros Hwf Hr. pose proof Hwf as [Hlen _].
  destruct (lookup_lt_is_Some_2 board (Z.to_nat r)) as [rw Hrw]; [lia|].
  exists rw. split; [assumption|]. eapply wfBoard_lookup; eassumption.
Qed.

Lemma wfBoard_setCell (board : BoardState) r c v :
  wfBoard board -> wfBoard (setCell board r c v).
Proof.
  intros Hwf. pose proof Hwf as [Hlen Hrows]. unfold setCell.
  destruct ((0 <=? r) && (0 <=? c)); [|assumption].
  destruct (board !! Z.to_nat r) as [rw|] eqn:Hrw; [|assumption].
  split; [now rewrite length_insert|].
  apply Forall_insert; [assumption|].
  rewrite length_insert. eapply wfBoard_lookup; eassumption.
Qed.

(** Reading after writing, on the grid. *)
Lemma cellAt_setCell (board : BoardState) r c v r' c' :
  wfBoard board -> isInBounds r c = true ->
  cellAt (setCell board r c v) r' c' =
  if (r' =? r) && (c' =? c) then v else cellAt board r' c'.
Proof.
  intros Hwf Hin. apply isInBounds_spec in Hin as [Hr Hc].
  destruct (wfBoard_row board r Hwf Hr) as (rw & Hrw & Hlen).
  unfold setCell, cellAt.
  replace (0 <=? r) with true by (symmetry; apply Z.leb_le; lia).
  replace (0 <=? c) with true by (symmetry; apply Z.leb_le; lia).
  simpl. rewrite Hrw.
  destruct (0 <=? r') eqn:Hr'; simpl.
  2:{ apply Z.leb_gt in Hr'.
      replace (r' =? r) with false by (symmetry; apply Z.eqb_neq; lia).
      reflexivity. }
  destruct (0 <=? c') eqn:Hc'; simpl.
  2:{ apply Z.leb_gt in Hc'.
      replace (c' =? c) with false by (symmetry; apply Z.eqb_neq; lia).
      now rewrite andb_false_r. }
  apply Z.leb_le in Hr', Hc'.
  destruct (r' =? r) eqn:Er; simpl.
  - apply Z.eqb_eq in Er. subst r'.
    rewrite list_lookup_insert_eq
      by (apply lookup_lt_is_Some_1; eauto).
    destruct (c' =? c) eqn:Ec.
    + apply Z.eqb_eq in Ec. subst c'.
      rewrite list_lookup_insert_eq by lia. reflexivity.
    + apply Z.eqb_neq in Ec.
      rewrite list_lookup_insert_ne by lia. now rewrite Hrw.
  - apply Z.eqb_neq in Er.
    rewrite list_lookup_insert_ne by lia. reflexivity.
Qed.

Lemma cellAt_onBoard (board : BoardState) r c piece :
  wfBoard board -> cellAt board r c = Some piece ->
  isInBounds r c = true.
Proof.
  intros Hwf H. pose proof Hwf as [Hlen Hrows]. unfold cellAt in H.
  destruct (0 <=? r) eqn:Hr; [|discriminate].
  destruct (0 <=? c) eqn:Hc; [|discriminate]. simpl in H.
  apply Z.leb_le in Hr, Hc.
  destruct (board !! Z.to_nat r) as [rw|] eqn:Hrw; [|discriminate].
  destruct (rw !! Z.to_nat c) as [cell|] eqn:Hcell; [|discriminate].
  pose proof (wfBoard_lookup _ _ _ Hwf Hrw) as Hl.
  apply lookup_lt_Some in Hrw, Hcell.
  apply isInBounds_spec. lia.
Qed.

Lemma cellAt_lookup (board : BoardState) (i j : nat) rw cell :
  board !! i = Some rw -> rw !! j = Some cell ->
  cellAt board (Z.of_nat i) (Z.of_nat j) = cell.
Proof.
  intros Hrw Hcell. unfold cellAt.
  replace (0 <=? Z.of_nat i) with true by (symmetry; apply Z.leb_le; lia).
  replace (0 <=? Z.of_nat j) with true by (symmetry; apply Z.leb_le; lia).
  simpl. now rewrite !Nat2Z.id, Hrw, Hcell.
Qed.

(** Two boards with the same sixty-four cells are the same board. *)
Lemma board_ext (b1 b2 : BoardState) :
  wfBoard b1 -> wfBoard b2 ->
  (forall r c, isInBounds r c = true -> cellAt b1 r c = cellAt b2 r c) ->
  b1 = b2.
Proof.
  intros Hwf1 Hwf2 Hcells.
  pose proof Hwf1 as [Hl1 _]. pose proof Hwf2 as [Hl2 _].
  apply list_eq. intros i.
  destruct (b1 !! i) as [rw1|] eqn:H1.
  - pose proof (lookup_lt_Some _ _ _ H1) as Hi.
    destruct (lookup_lt_is_Some_2 b2 i) as [rw2 H2]; [lia|].
    rewrite H2. f_equal.
    pose proof (wfBoard_lookup _ _ _ Hwf1 H1) as Hr1.
    pose proof (wfBoard_lookup _ _ _ Hwf2 H2) as Hr2.
    apply list_eq. intros j.
    destruct (rw1 !! j) as [c1|] eqn:Hc1.
    + pose proof (lookup_lt_Some _ _ _ Hc1) as Hj.
      destruct (lookup_lt_is_Some_2 rw2 j) as [c2 Hc2]; [lia|].
      rewrite Hc2. f_equal.
      rewrite <- (cellAt_lookup b1 i j rw1 c1 H1 Hc1).
      rewrite <- (cellAt_lookup b2 i j rw2 c2 H2 Hc2).
      apply Hcells. apply isInBounds_spec. lia.
    + apply lookup_ge_None in Hc1. symmetry. apply lookup_ge_None. lia.
  - apply lookup_ge_None in H1. symmetry. apply lookup_ge_None. lia.
Qed.

(** Split every conjunction of the goal. *)
Ltac conjs := repeat match goal with |- _ /\ _ => split end.

(** Well-formedness of a board given cell by cell. *)
Ltac concrete_board :=
  vm_compute; split; [reflexivity | repeat constructor].

End BoardFacts.

(** * Facts about raw move generation *)

Module RawMoveFacts.
Import ChessLogic Notions BoardFacts.

Lemma slide_room (board : BoardState) clr dr dc :
  unitDir dr dc ->
  forall n r c, room r c dr dc <= Z.of_nat n ->
  forall m, (n <= m)%nat ->
  slide m board clr r c dr dc = slide n board clr r c dr dc.
Proof.
  intros Hd n. induction n as [|n IH]; intros r c Hroom m Hm.
  - assert (isInBounds r c = false) as Hout.
    { apply isInBounds_false. unfold room, unitDir in *.
      destruct (dr =? 1) eqn:E1; [lia|].
      destruct (dr =? -1) eqn:E2; [lia|].
      destruct (dc =? 1) eqn:E3; lia. }
    destruct m; simpl; [reflexivity|]. now rewrite Hout.
  - destruct m as [|m]; [lia|]. simpl.
    destruct (isInBounds r c) eqn:Hin; [|reflexivity].
    destruct (cellAt board r c); [reflexivity|].
    f_equal. apply IH; [|lia].
    unfold room, unitDir in *.
    destruct (dr =? 1) eqn:E1; [lia|].
    destruct (dr =? -1) eqn:E2; [lia|].
    destruct (dc =? 1) eqn:E3; lia.
Qed.

(** Eight iterations exhaust the loop: more fuel changes nothing. *)
Lemma slide_fuel (board : BoardState) clr r c dr dc m :
  unitDir dr dc -> (8 <= m)%nat ->
  slide m board clr r c dr dc = slide 8 board clr r c dr dc.
Proof.
  intros Hd Hm.
  destruct (isInBounds r c) eqn:Hin.
  - apply slide_room; [assumption| |assumption].
    apply isInBounds_spec in Hin. unfold room.
    destruct (dr =? 1); [lia|]. destruct (dr =? -1); [lia|].
    destruct (dc =? 1); lia.
  - destruct m as [|m]; [lia|]. simpl. now rewrite Hin.
Qed.

(** Every square of a walk lies on the board, some steps ahead of its
    start. *)
Lemma slide_In (board : BoardState) clr dr dc n :
  forall r c m, In m (slide n board clr r c dr dc) ->
  isInBounds (row m) (col m) = true /\
  exists k, 0 <= k /\ row m = r + k * dr /\ col m = c + k * dc.
Proof.
  induction n as [|n IH]; intros r c m Hm; simpl in Hm; [contradiction|].
  destruct (isInBounds r c) eqn:Hin; [|contradiction].
  assert (In m [mkPos r c] ->
          isInBounds (row m) (col m) = true /\
          exists k, 0 <= k /\ row m = r + k * dr /\ col m = c + k * dc) as Hhead.
  { intros [<-|[]]. simpl. split; [assumption|]. exists 0. lia. }
  destruct (cellAt board r c) as [target|].
  - destruct (negb (colorEq (color target) clr)); [auto|contradiction].
  - destruct Hm as [Hm|Hm]; [apply Hhead; now left|].
    apply IH in Hm as (Hb & k & Hk & Hr & Hc).
    split; [assumption|]. exists (k + 1). lia.
Qed.

Lemma stepTo_In (board : BoardState) clr r c m :
  In m (stepTo board clr r c) -> m = mkPos r c /\ isInBounds r c = true.
Proof.
  unfold stepTo. destruct (isInBounds r c); [|contradiction].
  destruct (cellAt board r c) as [target|].
  - destruct (negb (colorEq (color target) clr)); [|contradiction].
    intros [<-|[]]. auto.
  - intros [<-|[]]. auto.
Qed.

(** The destinations of a pawn: one or two rows ahead, at most one column
    aside, on the board. *)
Lemma getPawnMoves_In (board : BoardState) pos clr ep m :
  In m (getPawnMoves board pos clr ep) ->
  isInBounds (row m) (col m) = true /\
  let dir := match clr with white => -1 | black => 1 end in
  (row m = row pos + dir \/ row m = row pos + 2 * dir) /\
  -1 <= col m - col pos <= 1.
Proof.
  unfold getPawnMoves. intros Hm. apply in_app_or in Hm as [Hm|Hm].
  - destruct (isInBounds _ _ && _) eqn:H1; [|contradiction].
    apply andb_true_iff in H1 as [Hin _].
    destruct Hm as [<-|Hm]; simpl.
    { split; [assumption|]. split; [now left|lia]. }
    destruct (_ && _) eqn:H2 in Hm; [|contradiction].
    apply andb_true_iff in H2 as [Hs _]. apply Z.eqb_eq in Hs.
    destruct Hm as [<-|[]]. simpl.
    apply isInBounds_spec in Hin.
    split; [apply isInBounds_spec; destruct clr; lia|].
    split; [now right|lia].
  - apply in_flat_map in Hm as (dc & Hdc & Hm).
    destruct (isInBounds _ _) eqn:Hin in Hm; [|contradiction].
    assert (m = mkPos (row pos + match clr with white => -1 | black => 1 end)
                      (col pos + dc)) as ->.
    { apply in_app_or in Hm as [Hm|Hm].
      - destruct (cellAt _ _ _) as [t|]; [|contradiction].
        destruct (negb _); [|contradiction]. now destruct Hm as [<-|[]].
      - destruct ep as [e|]; [|contradiction].
        destruct (_ && _); [|contradiction]. now destruct Hm as [<-|[]]. }
    simpl. split; [assumption|]. split; [now left|].
    simpl in Hdc. lia.
Qed.

Lemma getKingMovesRaw_In (board : BoardState) pos clr m :
  In m (getKingMovesRaw board pos clr) ->
  isInBounds (row m) (col m) = true /\
  -1 <= row m - row pos <= 1 /\ -1 <= col m - col pos <= 1 /\
  (row m <> row pos \/ col m <> col pos).
Proof.
  unfold getKingMovesRaw. intros Hm.
  apply in_flat_map in Hm as (dr & Hdr & Hm).
  apply in_flat_map in Hm as (dc & Hdc & Hm).
  destruct ((dr =? 0) && (dc =? 0)) eqn:Hz; [contradiction|].
  apply stepTo_In in Hm as [-> Hin]. simpl.
  apply andb_false_iff in Hz. rewrite !Z.eqb_neq in Hz.
  simpl in Hdr, Hdc. split; [assumption|]. lia.
Qed.

Lemma getKnightMoves_In (board : BoardState) pos clr m :
  In m (getKnightMoves board pos clr) ->
  isInBounds (row m) (col m) = true /\
  In (row m - row pos, col m - col pos) knightOffsets.
Proof.
  unfold getKnightMoves. intros Hm.
  apply in_flat_map in Hm as ([dr dc] & Hd & Hm).
  apply stepTo_In in Hm as [-> Hin]. simpl. split; [assumption|].
  replace (row pos + dr - row pos) with dr by lia.
  replace (col pos + dc - col pos) with dc by lia. assumption.
Qed.

Lemma rookDirections_unit dr dc :
  In (dr, dc) rookDirections -> unitDir dr dc.
Proof.
  unfold rookDirections, unitDir. simpl.
  intros [H|[H|[H|[H|[]]]]]; inversion H; lia.
Qed.

Lemma bishopDirections_unit dr dc :
  In (dr, dc) bishopDirections -> unitDir dr dc.
Proof.
  unfold bishopDirections, unitDir. simpl.
  intros [H|[H|[H|[H|[]]]]]; inversion H; lia.
Qed.

Lemma rays_inBounds (board : BoardState) pos clr dirs m :
  In m (flat_map
          (fun d : Z * Z =>
             let (dr, dc) := d in
             slide 8 board clr (row pos + dr) (col pos + dc) dr dc) dirs) ->
  isInBounds (row m) (col m) = true.
Proof.
  intros Hm. apply in_flat_map in Hm as ([dr dc] & _ & Hm).
  now apply slide_In in Hm.
Qed.

(** Edge policy: whatever [getRawMoves] returns is a square of the board. *)
Lemma getRawMoves_inBounds (board : BoardState) pos ep m :
  In m (getRawMoves board pos ep) -> isInBounds (row m) (col m) = true.
Proof.
  unfold getRawMoves. destruct (cellAt board (row pos) (col pos)) as [piece|];
    [|contradiction].
  destruct (type piece); intros Hm.
  - now apply getKingMovesRaw_In in Hm.
  - unfold getQueenMoves in Hm. apply in_app_or in Hm as [Hm|Hm];
      eapply rays_inBounds; eassumption.
  - eapply rays_inBounds; eassumption.
  - eapply rays_inBounds; eassumption.
  - now apply getKnightMoves_In in Hm.
  - now apply getPawnMoves_In in Hm.
Qed.

Lemma truthy_false cell : negb (truthy cell) = true <-> cell = None.
Proof. destruct cell; simpl; split; congruence. Qed.

Lemma getCastlingMoves_In (board : BoardState) pos clr m :
  In m (getCastlingMoves board pos clr) ->
  (exists kg, cellAt board (row pos) (col pos) = Some kg /\
              hasMoved kg = false) /\
  row pos = backRank clr /\ col pos = 4 /\
  ((m = mkPos (backRank clr) 6 /\ kingsideClear board clr (backRank clr)) \/
   (m = mkPos (backRank clr) 2 /\ queensideClear board clr (backRank clr))).
Proof.
  unfold getCastlingMoves.
  destruct (cellAt board (row pos) (col pos)) as [kg|]; [|contradiction].
  destruct (hasMoved kg) eqn:Hkg; [contradiction|].
  fold (backRank clr).
  destruct (negb (row pos =? backRank clr) || negb (col pos =? 4)) eqn:Hpos;
    [contradiction|].
  apply orb_false_iff in Hpos as [Hr Hc].
  apply negb_false_iff in Hr, Hc. apply Z.eqb_eq in Hr, Hc.
  intros Hm. split; [eauto|]. split; [assumption|]. split; [assumption|].
  apply in_app_or in Hm as [Hm|Hm].
  - left. destruct (cellAt board (backRank clr) 7) as [rk|] eqn:Hrk;
      [|contradiction].
    destruct (_ && _) eqn:Hc7 in Hm; [|contradiction].
    destruct Hm as [<-|[]]. split; [reflexivity|].
    repeat (apply andb_true_iff in Hc7 as [Hc7 ?]).
    exists rk. rewrite typeEq_eq in Hc7.
    repeat match goal with
           | H : negb (truthy _) = true |- _ => apply truthy_false in H
           | H : negb _ = true |- _ => apply negb_true_iff in H
           end.
    repeat split; assumption.
  - right. destruct (cellAt board (backRank clr) 0) as [rk|] eqn:Hrk;
      [|contradiction].
    destruct (_ && _) eqn:Hc7 in Hm; [|contradiction].
    destruct Hm as [<-|[]]. split; [reflexivity|].
    repeat (apply andb_true_iff in Hc7 as [Hc7 ?]).
    exists rk. rewrite typeEq_eq in Hc7.
    repeat match goal with
           | H : negb (truthy _) = true |- _ => apply truthy_false in H
           | H : negb _ = true |- _ => apply negb_true_iff in H
           end.
    repeat split; assumption.
Qed.

(** Landing squares. *)
Lemma landable_cases (board : BoardState) clr r c :
  landable board clr (mkPos r c) <->
  match cellAt board r c with
  | None => True
  | Some t => negb (colorEq (color t) clr) = true
  end.
Proof.
  unfold landable. cbn [row col]. destruct (cellAt board r c) as [t|].
  - rewrite negb_true_iff, colorEq_false. split; [auto|].
    intros H t' [= <-]. assumption.
  - split; [auto|discriminate].
Qed.

Lemma stepTo_In_iff (board : BoardState) clr r c m :
  In m (stepTo board clr r c) <->
  m = mkPos r c /\ isInBounds r c = true /\ landable board clr m.
Proof.
  unfold stepTo. split.
  - destruct (isInBounds r c); [|contradiction].
    intros Hm.
    assert (m = mkPos r c) as ->.
    { destruct (cellAt board r c) as [t|];
        [destruct (negb _); [|contradiction]|]; now destruct Hm as [<-|[]]. }
    split; [reflexivity|]. split; [reflexivity|].
    apply landable_cases.
    destruct (cellAt board r c) as [t|]; [|exact I].
    destruct (negb _); [reflexivity|contradiction].
  - intros (-> & Hin & Hland). rewrite Hin.
    apply landable_cases in Hland.
    destruct (cellAt board r c) as [t|]; [rewrite Hland|]; now left.
Qed.



End RawMoveFacts.

(** * Facts about check detection *)

Module CheckFacts.
Import ChessLogic Notions BoardFacts RawMoveFacts.

Lemma Position_eq_dec (p q : Position) : {p = q} + {p <> q}.
Proof. decide equality; apply Z.eq_dec. Defined.

Lemma In_squares p : In p squares <-> onBoard p.
Proof.
  unfold squares, onBoard. rewrite in_flat_map. split.
  - intros (r & Hr & Hp). apply in_map_iff in Hp as (c & <- & Hc).
    simpl in *. lia.
  - intros [Hr Hc]. exists (row p). split; [simpl; lia|].
    apply in_map_iff. exists (col p). split; [now destruct p|simpl; lia].
Qed.

Lemma find_ext {A} (f g : A -> bool) l :
  (forall x, In x l -> f x = g x) -> List.find f l = List.find g l.
Proof.
  induction l as [|x l IH]; intros H; simpl; [reflexivity|].
  rewrite <- (H x) by now left. destruct (f x); [reflexivity|].
  apply IH. intros y Hy. apply H. now right.
Qed.

Lemma existsb_positionsEqual (l : list Position) k :
  existsb (fun m => positionsEqual m k) l = true <-> In k l.
Proof.
  rewrite existsb_exists. split.
  - intros (m & Hm & He). apply positionsEqual_eq in He. now subst.
  - intros H. exists k. split; [assumption|apply positionsEqual_refl].
Qed.

Lemma isSquareAttacked_true (board : BoardState) k byColor :
  isSquareAttacked board k byColor = true <->
  exists p piece, onBoard p /\
    cellAt board (row p) (col p) = Some piece /\ color piece = byColor /\
    In k (getRawMoves board p None).
Proof.
  unfold isSquareAttacked. rewrite existsb_exists. split.
  - intros (p & Hp & H). apply In_squares in Hp.
    destruct (cellAt board (row p) (col p)) as [piece|] eqn:Hc; [|discriminate].
    apply andb_true_iff in H as [Hcol Hin].
    apply colorEq_eq in Hcol. apply existsb_positionsEqual in Hin.
    exists p, piece. auto.
  - intros (p & piece & Hp & Hc & Hcol & Hin). exists p.
    split; [now apply In_squares|]. rewrite Hc.
    apply andb_true_iff. split; [now apply colorEq_eq|].
    now apply existsb_positionsEqual.
Qed.

(** ** Moving a rook out of a corner never exposes a king

    [b'] is [b] with the own piece of corner [X] taken away and an own piece
    put on the empty back-rank square [Y].  No enemy piece gains a
    destination other than [X] and [Y]. *)
Section Relocate.

Variables (b b' : BoardState) (own : PieceColor) (X Y : Position).
Variables (px py : ChessPiece).

Hypothesis Hsame : forall r c,
  mkPos r c <> X -> mkPos r c <> Y -> cellAt b' r c = cellAt b r c.
Hypothesis HbX : cellAt b (row X) (col X) = Some px.
Hypothesis Hb'X : cellAt b' (row X) (col X) = None.
Hypothesis HbY : cellAt b (row Y) (col Y) = None.
Hypothesis Hb'Y : cellAt b' (row Y) (col Y) = Some py.
Hypothesis Hpx : color px = own.
Hypothesis Hpy : color py = own.
Hypothesis Hkx : type px <> king.
Hypothesis Hky : type py <> king.
Hypothesis Hcorner : (row X = 0 \/ row X = 7) /\ (col X = 0 \/ col X = 7).
Hypothesis Hrank : row Y = 0 \/ row Y = 7.

Let foe := opponentOf own.

Lemma relocate_foe_px : negb (colorEq (color px) foe) = true.
Proof. rewrite Hpx. unfold foe. now destruct own. Qed.

Lemma relocate_foe_py : negb (colorEq (color py) foe) = true.
Proof. rewrite Hpy. unfold foe. now destruct own. Qed.

Lemma slide_nil_out (board : BoardState) clr n r c dr dc :
  isInBounds r c = false -> slide n board clr r c dr dc = [].
Proof. intros H. destruct n; simpl; [reflexivity|now rewrite H]. Qed.

Lemma slide_relocate n dr dc :
  unitDir dr dc ->
  forall r c m, isInBounds (r - dr) (c - dc) = true ->
  In m (slide n b' foe r c dr dc) -> In m (slide n b foe r c dr dc).
Proof.
  intros Hd. induction n as [|n IH]; intros r c m Hprev Hm; simpl in *;
    [contradiction|].
  destruct (isInBounds r c) eqn:Hin; [|contradiction].
  destruct (Position_eq_dec (mkPos r c) X) as [HX|HX].
  - (* the walk reaches the corner: it ends there on both boards *)
    subst X. simpl in *. rewrite Hb'X in Hm. rewrite HbX, relocate_foe_px.
    destruct Hm as [Hm|Hm]; [now left|].
    rewrite slide_nil_out in Hm; [contradiction|].
    apply isInBounds_false. apply isInBounds_spec in Hprev, Hin.
    unfold unitDir in Hd. lia.
  - destruct (Position_eq_dec (mkPos r c) Y) as [HY|HY].
    + subst Y. simpl in *. rewrite Hb'Y in Hm. rewrite HbY.
      rewrite relocate_foe_py in Hm. destruct Hm as [Hm|[]]. now left.
    + rewrite (Hsame r c HX HY) in Hm.
      destruct (cellAt b r c) as [t|]; [assumption|].
      destruct Hm as [Hm|Hm]; [now left|]. right.
      apply IH; [|assumption].
      now replace (r + dr - dr) with r by lia;
        replace (c + dc - dc) with c by lia.
Qed.

Lemma stepTo_relocate r c : stepTo b' foe r c = stepTo b foe r c.
Proof.
  unfold stepTo. destruct (isInBounds r c); [|reflexivity].
  destruct (Position_eq_dec (mkPos r c) X) as [HX|HX].
  - subst X. simpl in *. now rewrite Hb'X, HbX, relocate_foe_px.
  - destruct (Position_eq_dec (mkPos r c) Y) as [HY|HY].
    + subst Y. simpl in *. now rewrite Hb'Y, HbY, relocate_foe_py.
    + now rewrite (Hsame r c HX HY).
Qed.

Lemma rays_relocate pos dirs m :
  onBoard pos -> (forall dr dc, In (dr, dc) dirs -> unitDir dr dc) ->
  In m (flat_map
          (fun d : Z * Z =>
             let (dr, dc) := d in
             slide 8 b' foe (row pos + dr) (col pos + dc) dr dc) dirs) ->
  In m (flat_map
          (fun d : Z * Z =>
             let (dr, dc) := d in
             slide 8 b foe (row pos + dr) (col pos + dc) dr dc) dirs).
Proof.
  intros Hpos Hdirs Hm. apply in_flat_map in Hm as ([dr dc] & Hd & Hm).
  apply in_flat_map. exists (dr, dc). split; [assumption|].
  apply slide_relocate; [auto| |assumption].
  replace (row pos + dr - dr) with (row pos) by lia.
  replace (col pos + dc - dc) with (col pos) by lia.
  now apply onBoard_inBounds.
Qed.

Lemma getPawnMoves_relocate pos m :
  In m (getPawnMoves b' pos foe None) ->
  m = X \/ m = Y \/ In m (getPawnMoves b pos foe None).
Proof.
  unfold getPawnMoves.
  set (dir := match foe with white => -1 | black => 1 end).
  set (startRow := match foe with white => 6 | black => 1 end).
  assert (Hstart : forall c, row pos = startRow ->
            mkPos (row pos + dir) c <> X /\ mkPos (row pos + dir) c <> Y /\
            mkPos (row pos + 2 * dir) c <> X /\
            mkPos (row pos + 2 * dir) c <> Y).
  { intros c Hs. subst dir startRow.
    repeat split; intros E; rewrite <- E in *; simpl in *;
      destruct foe; lia. }
  intros Hm. apply in_app_or in Hm as [Hm|Hm].
  - destruct (isInBounds _ _ && _) eqn:H1 in Hm; [|contradiction].
    apply andb_true_iff in H1 as [Hin Hfree]. apply truthy_false in Hfree.
    destruct (Position_eq_dec (mkPos (row pos + dir) (col pos)) X) as [HX|HX].
    { destruct Hm as [Hm|Hm]; [left; congruence|].
      destruct (_ && _) eqn:H2 in Hm; [|contradiction].
      apply andb_true_iff in H2 as [Hs _]. apply Z.eqb_eq in Hs.
      now destruct (Hstart (col pos) Hs) as (? & _). }
    destruct (Position_eq_dec (mkPos (row pos + dir) (col pos)) Y) as [HY|HY].
    { subst Y. simpl in *. congruence. }
    right. right. apply in_or_app. left.
    rewrite (Hsame _ _ HX HY) in Hfree. rewrite Hin, Hfree. simpl.
    destruct Hm as [Hm|Hm]; [now left|]. right.
    destruct (_ && _) eqn:H2 in Hm; [|contradiction].
    apply andb_true_iff in H2 as [Hs Hfree2]. pose proof Hs as Hs'.
    apply Z.eqb_eq in Hs'.
    destruct (Hstart (col pos) Hs') as (_ & _ & HX2 & HY2).
    rewrite (Hsame _ _ HX2 HY2) in Hfree2. now rewrite Hs, Hfree2.
  - apply in_flat_map in Hm as (dc & Hdc & Hm).
    destruct (isInBounds _ _) eqn:Hin in Hm; [|contradiction].
    rewrite app_nil_r in Hm.
    destruct (cellAt b' _ _) as [t|] eqn:Ht in Hm; [|contradiction].
    destruct (negb _) eqn:Hfoe in Hm; [|contradiction].
    destruct Hm as [<-|[]].
    destruct (Position_eq_dec (mkPos (row pos + dir) (col pos + dc)) X)
      as [HX|HX].
    { subst X. simpl in *. congruence. }
    destruct (Position_eq_dec (mkPos (row pos + dir) (col pos + dc)) Y)
      as [HY|HY]; [now right; left|].
    right. right. apply in_or_app. right.
    apply in_flat_map. exists dc. split; [assumption|].
    rewrite Hin, app_nil_r. rewrite (Hsame _ _ HX HY) in Ht.
    rewrite Ht, Hfoe. now left.
Qed.

Lemma getKingMovesRaw_relocate pos :
  getKingMovesRaw b' pos foe = getKingMovesRaw b pos foe.
Proof.
  unfold getKingMovesRaw. simpl. now rewrite !stepTo_relocate.
Qed.

Lemma getKnightMoves_relocate pos :
  getKnightMoves b' pos foe = getKnightMoves b pos foe.
Proof.
  unfold getKnightMoves. simpl. now rewrite !stepTo_relocate.
Qed.

Lemma getRawMoves_relocate pos piece m :
  onBoard pos -> pos <> X -> pos <> Y ->
  cellAt b' (row pos) (col pos) = Some piece -> color piece = foe ->
  In m (getRawMoves b' pos None) ->
  m = X \/ m = Y \/ In m (getRawMoves b pos None).
Proof.
  intros Hpos HX HY Hcell Hcol. unfold getRawMoves. rewrite Hcell.
  assert (cellAt b (row pos) (col pos) = Some piece) as ->.
  { rewrite <- Hcell. symmetry. apply Hsame; now destruct pos. }
  rewrite Hcol. destruct (type piece); intros Hm.
  - right. right. now rewrite <- getKingMovesRaw_relocate.
  - right. right. unfold getQueenMoves, getRookMoves, getBishopMoves in *.
    apply in_or_app. apply in_app_or in Hm as [Hm|Hm]; [left|right].
    + apply rays_relocate; auto using rookDirections_unit.
    + apply rays_relocate; auto using bishopDirections_unit.
  - right. right. apply rays_relocate; auto using rookDirections_unit.
  - right. right. apply rays_relocate; auto using bishopDirections_unit.
  - right. right. now rewrite <- getKnightMoves_relocate.
  - now apply getPawnMoves_relocate.
Qed.

Lemma isSquareAttacked_relocate k :
  k <> X -> k <> Y ->
  isSquareAttacked b' k foe = true -> isSquareAttacked b k foe = true.
Proof.
  intros HkX HkY H.
  apply isSquareAttacked_true in H as (p & piece & Hp & Hcell & Hcol & Hin).
  assert (p <> X) as HpX by (intros ->; congruence).
  assert (p <> Y) as HpY.
  { intros ->. rewrite Hb'Y in Hcell. inversion Hcell; subst piece.
    rewrite Hpy in Hcol. unfold foe in Hcol. now destruct own. }
  apply isSquareAttacked_true. exists p, piece.
  split; [assumption|]. split.
  { rewrite <- Hcell. symmetry. apply Hsame; now destruct p. }
  split; [assumption|].
  destruct (getRawMoves_relocate p piece k Hp HpX HpY Hcell Hcol Hin)
    as [?|[?|?]]; [contradiction|contradiction|assumption].
Qed.

Lemma findKing_relocate clr : findKing b' clr = findKing b clr.
Proof.
  unfold findKing. apply find_ext. intros p _.
  destruct (Position_eq_dec p X) as [->|HX].
  { rewrite Hb'X, HbX. destruct (type px); simpl; congruence. }
  destruct (Position_eq_dec p Y) as [->|HY].
  { rewrite Hb'Y, HbY. destruct (type py); simpl; congruence. }
  rewrite Hsame; [reflexivity| |]; now destruct p.
Qed.

Lemma findKing_not_relocated clr k :
  findKing b clr = Some k -> k <> X /\ k <> Y.
Proof.
  unfold findKing. intros H. apply find_some in H as [_ H].
  split; intros ->.
  - rewrite HbX in H. apply andb_true_iff in H as [H _].
    apply typeEq_eq in H. contradiction.
  - now rewrite HbY in H.
Qed.

(** The mover is not in check after the relocation if it was not before. *)
Lemma isInCheck_relocate :
  isInCheck b own = false -> isInCheck b' own = false.
Proof.
  unfold isInCheck. rewrite findKing_relocate.
  destruct (findKing b own) as [k|] eqn:Hk; [|reflexivity].
  destruct (findKing_not_relocated own k Hk) as [HX HY].
  fold foe. intros H.
  destruct (isSquareAttacked b' k foe) eqn:H'; [|reflexivity].
  apply isSquareAttacked_relocate in H'; congruence.
Qed.

End Relocate.

End CheckFacts.

(** * Facts about legal moves and applied moves *)

Module MoveFacts.
Import ChessLogic Notions BoardFacts RawMoveFacts CheckFacts.

Lemma slide_empty (board : BoardState) clr n r c dr dc :
  isInBounds r c = true -> cellAt board r c = None ->
  slide (S n) board clr r c dr dc =
  mkPos r c :: slide n board clr (r + dr) (c + dc) dr dc.
Proof. intros Hin Hc. simpl. now rewrite Hin, Hc. Qed.

Lemma backRank_cases clr : backRank clr = 0 \/ backRank clr = 7.
Proof. destruct clr; simpl; auto. Qed.

(** A rook of either colour on the corner would attack the squares beside
    it; since the king's path is unattacked, the castling rook is the
    mover's own. *)
Lemma kingsideClear_own (board : BoardState) clr rk :
  kingsideClear board clr (backRank clr) ->
  cellAt board (backRank clr) 7 = Some rk -> color rk = clr.
Proof.
  intros (rk' & Hrk & Hty & _ & _ & H6 & _ & _ & Hsafe) Hcell.
  rewrite Hcell in Hrk. inversion Hrk; subst rk'.
  destruct (colorEq (color rk) clr) eqn:Hc; [now apply colorEq_eq|].
  apply colorEq_false in Hc.
  enough (isSquareAttacked board (mkPos (backRank clr) 6) (opponentOf clr)
          = true) by congruence.
  apply isSquareAttacked_true. exists (mkPos (backRank clr) 7), rk.
  split; [unfold onBoard; simpl; destruct clr; simpl; lia|].
  split; [assumption|]. split; [assumption|].
  unfold getRawMoves. cbn [row col]. rewrite Hcell, Hty.
  unfold getRookMoves, rookDirections. cbn [flat_map row col].
  apply in_or_app. right. apply in_or_app. right. apply in_or_app. left.
  replace (backRank clr + 0) with (backRank clr) by lia.
  change (7 + -1) with 6.
  rewrite slide_empty; [now left| |assumption].
  apply isInBounds_spec. destruct clr; simpl; lia.
Qed.

Lemma queensideClear_own (board : BoardState) clr rk :
  queensideClear board clr (backRank clr) ->
  cellAt board (backRank clr) 0 = Some rk -> color rk = clr.
Proof.
  intros (rk' & Hrk & Hty & _ & H1 & H2 & _ & _ & _ & Hsafe) Hcell.
  rewrite Hcell in Hrk. inversion Hrk; subst rk'.
  destruct (colorEq (color rk) clr) eqn:Hc; [now apply colorEq_eq|].
  apply colorEq_false in Hc.
  enough (isSquareAttacked board (mkPos (backRank clr) 2) (opponentOf clr)
          = true) by congruence.
  apply isSquareAttacked_true. exists (mkPos (backRank clr) 0), rk.
  split; [unfold onBoard; simpl; destruct clr; simpl; lia|].
  split; [assumption|]. split; [assumption|].
  unfold getRawMoves. cbn [row col]. rewrite Hcell, Hty.
  unfold getRookMoves, rookDirections. cbn [flat_map row col].
  apply in_or_app. right. apply in_or_app. right. apply in_or_app. right.
  apply in_or_app. left.
  replace (backRank clr + 0) with (backRank clr) by lia.
  change (0 + 1) with 1.
  rewrite slide_empty;
    [|apply isInBounds_spec; destruct clr; simpl; lia|assumption].
  replace (backRank clr + 0) with (backRank clr) by lia.
  change (1 + 1) with 2.
  rewrite slide_empty;
    [|apply isInBounds_spec; destruct clr; simpl; lia|assumption].
  right. now left.
Qed.

Lemma getLegalMoves_In (board : BoardState) pos ep to :
  In to (getLegalMoves board pos ep) <->
  exists piece,
    cellAt board (row pos) (col pos) = Some piece /\
    (In to (getRawMoves board pos ep) \/
     (type piece = king /\
      In to (getCastlingMoves board pos (color piece)))) /\
    isInCheck (scratchBoard board pos piece ep to) (color piece) = false.
Proof.
  unfold getLegalMoves.
  destruct (cellAt board (row pos) (col pos)) as [piece|].
  2:{ split; [contradiction|]. now intros (? & ? & _). }
  rewrite filter_In, negb_true_iff. split.
  - intros [Hin Hsafe]. exists piece. split; [reflexivity|].
    split; [|assumption].
    destruct (typeEq (type piece) king) eqn:Hk; [|now left].
    apply typeEq_eq in Hk. apply in_app_or in Hin as [?|?]; auto.
  - intros (piece' & [= <-] & Hin & Hsafe). split; [|assumption].
    destruct Hin as [Hin|[Hk Hin]].
    + destruct (typeEq (type piece) king); [apply in_or_app|]; auto.
    + rewrite Hk. simpl. apply in_or_app. now right.
Qed.

Ltac cells :=
  rewrite ?cellAt_setCell
    by first [ assumption
             | repeat apply wfBoard_setCell; assumption
             | apply isInBounds_spec; simpl; lia ].

(** A raw move is applied exactly as the legality filter simulated it. *)
Lemma applyMove_raw (board : BoardState) pos piece ep to :
  wfBoard board ->
  cellAt board (row pos) (col pos) = Some piece ->
  In to (getRawMoves board pos ep) ->
  exists res,
    applyMove board pos to ep = Some res /\
    newBoard res = scratchBoard board pos piece ep to.
Proof.
  intros Hwf Hcell Hin.
  pose proof (cellAt_onBoard _ _ _ _ Hwf Hcell) as Hpos.
  pose proof (getRawMoves_inBounds _ _ _ _ Hin) as Hto.
  unfold applyMove, scratchBoard. rewrite cloneBoard_id, Hcell.
  assert (typeEq (type piece) king && (Z.abs (col to - col pos) =? 2)
          = false) as ->.
  { destruct (typeEq (type piece) king) eqn:Hk; [|reflexivity]. simpl.
    apply typeEq_eq in Hk. unfold getRawMoves in Hin.
    rewrite Hcell, Hk in Hin. apply getKingMovesRaw_In in Hin.
    apply Z.eqb_neq. lia. }
  eexists. split; [reflexivity|]. cbn [newBoard].
  destruct (typeEq (type piece) pawn &&
            match ep with Some e => positionsEqual to e | None => false end)
    eqn:Hep; [|reflexivity].
  apply andb_true_iff in Hep as [Hp _]. apply typeEq_eq in Hp.
  unfold getRawMoves in Hin. rewrite Hcell, Hp in Hin.
  apply getPawnMoves_In in Hin as (_ & Hrow & _).
  assert (row to <> row pos) as Hne by (destruct (color piece); lia).
  assert (isInBounds (row pos) (col to) = true) as Hcap.
  { apply isInBounds_spec. apply isInBounds_spec in Hpos, Hto. lia. }
  apply board_ext; [repeat apply wfBoard_setCell; assumption..|].
  intros r c _. cells.
  destruct (r =? row pos) eqn:E1, (c =? col pos) eqn:E2,
           (r =? row to) eqn:E3, (c =? col to) eqn:E4; simpl;
    try reflexivity; apply Z.eqb_eq in E1, E3; lia.
Qed.

Ltac eqb_cases :=
  repeat match goal with
         | |- context [?x =? ?y] =>
             let E := fresh "E" in
             destruct (x =? y) eqn:E;
             [apply Z.eqb_eq in E | apply Z.eqb_neq in E]
         end.

(** A castling move: [applyMove] also moves the rook, which the legality
    filter did not simulate; the king is safe all the same. *)
Lemma applyMove_castling (board : BoardState) pos piece ep to :
  wfBoard board ->
  cellAt board (row pos) (col pos) = Some piece ->
  type piece = king ->
  In to (getCastlingMoves board pos (color piece)) ->
  isInCheck (scratchBoard board pos piece ep to) (color piece) = false ->
  exists res,
    applyMove board pos to ep = Some res /\
    isInCheck (newBoard res) (color piece) = false.
Proof.
  intros Hwf Hcell Hk Hin Hsafe.
  apply getCastlingMoves_In in Hin as (_ & Hr & Hc & Hside).
  destruct pos as [pr pc]. cbn [row col] in *. subst pr pc.
  set (R := backRank (color piece)) in *.
  assert (0 <= R <= 7) as HR by (subst R; destruct (color piece); simpl; lia).
  assert (R = 0 \/ R = 7) as HR' by apply backRank_cases.
  unfold applyMove, scratchBoard in *. rewrite cloneBoard_id in *.
  cbn [row col] in *. rewrite Hcell, Hk in *. cbn [typeEq andb] in *.
  destruct Hside as [[-> Hclear]|[-> Hclear]]; cbn [row col] in *.
  - pose proof Hclear as (rk & Hrk & Hty & Hmv & H5 & H6 & _).
    pose proof (kingsideClear_own _ _ _ Hclear Hrk) as Hown.
    change (Z.abs (6 - 4) =? 2) with true. change (0 <? 6 - 4) with true.
    cbv iota. fold R in Hrk, H5, H6. rewrite Hrk.
    eexists. split; [reflexivity|]. cbn [newBoard].
    eapply (isInCheck_relocate
              (setCell (setCell board R 6 (Some (markMoved piece))) R 4 None)
              _ (color piece) (mkPos R 7) (mkPos R 5) rk (markMoved rk));
      cbn [row col]; try assumption;
      try (cells; eqb_cases; simpl; (reflexivity || assumption || lia)).
    + intros r c HX HY. cells.
      destruct (Z.eq_dec r R) as [->|Hr];
        [|eqb_cases; simpl; (reflexivity || lia)].
      rewrite Z.eqb_refl. cbn [andb].
      eqb_cases; try reflexivity; subst; contradiction.
    + rewrite Hty. discriminate.
    + simpl. rewrite Hty. discriminate.
  - pose proof Hclear as (rk & Hrk & Hty & Hmv & H1 & H2 & H3 & _).
    pose proof (queensideClear_own _ _ _ Hclear Hrk) as Hown.
    change (Z.abs (2 - 4) =? 2) with true. change (0 <? 2 - 4) with false.
    cbv iota. fold R in Hrk, H1, H2, H3. rewrite Hrk.
    eexists. split; [reflexivity|]. cbn [newBoard].
    eapply (isInCheck_relocate
              (setCell (setCell board R 2 (Some (markMoved piece))) R 4 None)
              _ (color piece) (mkPos R 0) (mkPos R 3) rk (markMoved rk));
      cbn [row col]; try assumption;
      try (cells; eqb_cases; simpl; (reflexivity || assumption || lia)).
    + intros r c HX HY. cells.
      destruct (Z.eq_dec r R) as [->|Hr];
        [|eqb_cases; simpl; (reflexivity || lia)].
      rewrite Z.eqb_refl. cbn [andb].
      eqb_cases; try reflexivity; subst; contradiction.
    + rewrite Hty. discriminate.
    + simpl. rewrite Hty. discriminate.
Qed.

End MoveFacts.

(** * Destinations are produced once *)

Module UniqueFacts.
Import ChessLogic Notions BoardFacts RawMoveFacts.

(** Lists produced for different loop values are disjoint as soon as each
    element tells which loop value produced it. *)
Lemma NoDup_flat_map_key {A B K : Type} (key : B -> K) (g : A -> K)
    (f : A -> list B) (l : list A) :
  List.NoDup (map g l) ->
  (forall a, In a l -> List.NoDup (f a)) ->
  (forall a m, In a l -> In m (f a) -> key m = g a) ->
  List.NoDup (flat_map f l).
Proof.
  induction l as [|a l IH]; intros Hnd Hf Hkey; simpl; [constructor|].
  simpl in Hnd. apply List.NoDup_cons_iff in Hnd as [Hna Hnd].
  apply List.NoDup_app.
  - apply Hf. now left.
  - apply IH; [assumption| |]; intros; [apply Hf|apply Hkey]; auto;
      now right.
  - intros m Hm Hm'. apply in_flat_map in Hm' as (a' & Ha' & Hm').
    apply Hna. apply in_map_iff. exists a'. split; [|assumption].
    rewrite <- (Hkey a' m) by (auto; now right).
    apply Hkey; [now left|assumption].
Qed.

Lemma stepTo_NoDup (board : BoardState) clr r c :
  List.NoDup (stepTo board clr r c).
Proof.
  unfold stepTo. destruct (isInBounds r c); [|constructor].
  destruct (cellAt board r c) as [t|].
  - destruct (negb _); repeat constructor. intros [].
  - repeat constructor. intros [].
Qed.

Lemma slide_NoDup (board : BoardState) clr dr dc n :
  unitDir dr dc -> forall r c, List.NoDup (slide n board clr r c dr dc).
Proof.
  intros Hd. induction n as [|n IH]; intros r c; simpl; [constructor|].
  destruct (isInBounds r c); [|constructor].
  destruct (cellAt board r c) as [t|].
  - destruct (negb _); repeat constructor. intros [].
  - constructor; [|apply IH].
    intros Hin. apply slide_In in Hin as (_ & k & Hk & Hr & Hc).
    simpl in Hr, Hc. unfold unitDir in Hd.
    assert (dr = -1 \/ dr = 0 \/ dr = 1) as [-> | [-> | ->]] by lia;
      assert (dc = -1 \/ dc = 0 \/ dc = 1) as [-> | [-> | ->]] by lia; lia.
Qed.

Lemma slide_heading (board : BoardState) clr pos dr dc n m :
  unitDir dr dc ->
  In m (slide n board clr (row pos + dr) (col pos + dc) dr dc) ->
  heading pos m = (dr, dc).
Proof.
  intros Hd Hm. apply slide_In in Hm as (_ & k & Hk & Hr & Hc).
  unfold heading, unitDir in *.
  assert (dr = -1 \/ dr = 0 \/ dr = 1) as [-> | [-> | ->]] by lia;
    assert (dc = -1 \/ dc = 0 \/ dc = 1) as [-> | [-> | ->]] by lia;
    f_equal; lia.
Qed.

Lemma rays_NoDup (board : BoardState) clr pos dirs :
  List.NoDup dirs ->
  (forall dr dc, In (dr, dc) dirs -> unitDir dr dc) ->
  List.NoDup
    (flat_map
       (fun d : Z * Z =>
          let (dr, dc) := d in
          slide 8 board clr (row pos + dr) (col pos + dc) dr dc) dirs).
Proof.
  intros Hnd Hunit.
  apply (NoDup_flat_map_key (heading pos) (fun d => d)).
  - now rewrite map_id.
  - intros [dr dc] Hd. apply slide_NoDup. auto.
  - intros [dr dc] m Hd Hm. eapply slide_heading; eauto.
Qed.

Lemma directions_NoDup : List.NoDup (rookDirections ++ bishopDirections).
Proof.
  unfold rookDirections, bishopDirections. simpl.
  repeat (constructor; [simpl; intuition congruence|]). constructor.
Qed.

Lemma getQueenMoves_NoDup (board : BoardState) pos clr :
  List.NoDup (getQueenMoves board pos clr).
Proof.
  unfold getQueenMoves, getRookMoves, getBishopMoves.
  rewrite <- flat_map_app. apply rays_NoDup; [apply directions_NoDup|].
  intros dr dc Hd. apply in_app_or in Hd as [Hd|Hd];
    auto using rookDirections_unit, bishopDirections_unit.
Qed.

Lemma getRookMoves_NoDup (board : BoardState) pos clr :
  List.NoDup (getRookMoves board pos clr).
Proof.
  apply rays_NoDup; [|apply rookDirections_unit].
  pose proof directions_NoDup as H. now apply NoDup_app_remove_r in H.
Qed.

Lemma getBishopMoves_NoDup (board : BoardState) pos clr :
  List.NoDup (getBishopMoves board pos clr).
Proof.
  apply rays_NoDup; [|apply bishopDirections_unit].
  pose proof directions_NoDup as H. now apply NoDup_app_remove_l in H.
Qed.

Lemma getKnightMoves_NoDup (board : BoardState) pos clr :
  List.NoDup (getKnightMoves board pos clr).
Proof.
  unfold getKnightMoves.
  apply (NoDup_flat_map_key
           (fun m => (row m - row pos, col m - col pos)) (fun d => d)).
  - rewrite map_id. unfold knightOffsets.
    repeat (constructor; [simpl; intuition congruence|]). constructor.
  - intros [dr dc] _. apply stepTo_NoDup.
  - intros [dr dc] m _ Hm. apply stepTo_In in Hm as [-> _]. simpl.
    f_equal; lia.
Qed.

Lemma getKingMovesRaw_NoDup (board : BoardState) pos clr :
  List.NoDup (getKingMovesRaw board pos clr).
Proof.
  unfold getKingMovesRaw.
  assert (List.NoDup [-1; 0; 1]) as Hthree.
  { repeat (constructor; [simpl; intuition congruence|]). constructor. }
  apply (NoDup_flat_map_key (fun m => row m - row pos) (fun d => d)).
  - now rewrite map_id.
  - intros dr _.
    apply (NoDup_flat_map_key (fun m => col m - col pos) (fun d => d)).
    + now rewrite map_id.
    + intros dc _. destruct (_ && _); [constructor|apply stepTo_NoDup].
    + intros dc m _ Hm. destruct (_ && _); [contradiction|].
      apply stepTo_In in Hm as [-> _]. simpl. lia.
  - intros dr m _ Hm. apply in_flat_map in Hm as (dc & _ & Hm).
    destruct (_ && _); [contradiction|].
    apply stepTo_In in Hm as [-> _]. simpl. lia.
Qed.

Lemma getPawnMoves_NoDup (board : BoardState) pos clr ep :
  epFree board ep -> List.NoDup (getPawnMoves board pos clr ep).
Proof.
  intros Hep. unfold getPawnMoves.
  set (dir := match clr with white => -1 | black => 1 end).
  assert (dir <> 0) as Hdir by (subst dir; destruct clr; lia).
  apply List.NoDup_app.
  - destruct (_ && _); [|constructor].
    destruct (_ && _); repeat constructor; simpl; try tauto.
    intros [H|[]]. inversion H. lia.
  - apply (NoDup_flat_map_key (fun m => col m - col pos) (fun d => d)).
    + rewrite map_id.
      repeat (constructor; [simpl; intuition congruence|]). constructor.
    + intros dc _. destruct (isInBounds _ _); [|constructor].
      destruct (cellAt board (row pos + dir) (col pos + dc)) as [t|] eqn:Ht.
      * assert (match ep with
                | Some e =>
                    if (row e =? row pos + dir) && (col e =? col pos + dc)
                    then [mkPos (row pos + dir) (col pos + dc)] else []
                | None => []
                end = []) as ->.
        { destruct ep as [e|]; [|reflexivity].
          destruct (_ && _) eqn:He; [|reflexivity].
          apply andb_true_iff in He as [Hr Hc]. apply Z.eqb_eq in Hr, Hc.
          simpl in Hep. rewrite Hr, Hc in Hep. congruence. }
        rewrite app_nil_r. destruct (negb _); repeat constructor. intros [].
      * simpl. destruct ep as [e|]; [|constructor].
        destruct (_ && _); repeat constructor. intros [].
    + intros dc m _ Hm. destruct (isInBounds _ _); [|contradiction].
      assert (m = mkPos (row pos + dir) (col pos + dc)) as ->.
      { apply in_app_or in Hm as [Hm|Hm].
        - destruct (cellAt _ _ _) as [t|]; [|contradiction].
          destruct (negb _); [|contradiction]. now destruct Hm as [<-|[]].
        - destruct ep as [e|]; [|contradiction].
          destruct (_ && _); [|contradiction]. now destruct Hm as [<-|[]]. }
      simpl. lia.
  - intros m Hfwd Hdiag.
    assert (col m = col pos) as Hc.
    { destruct (_ && _) in Hfwd; [|contradiction].
      destruct Hfwd as [<-|Hfwd]; [reflexivity|].
      destruct (_ && _) in Hfwd; [|contradiction].
      now destruct Hfwd as [<-|[]]. }
    clear Hfwd. apply in_flat_map in Hdiag as (dc & Hdc & Hm).
    destruct (isInBounds _ _) in Hm; [|contradiction].
    assert (col m = col pos + dc) as Hc'.
    { apply in_app_or in Hm as [Hm|Hm].
      - destruct (cellAt _ _ _) as [t|]; [|contradiction].
        destruct (negb _); [|contradiction]. now destruct Hm as [<-|[]].
      - destruct ep as [e|]; [|contradiction].
        destruct (_ && _); [|contradiction]. now destruct Hm as [<-|[]]. }
    simpl in Hdc. lia.
Qed.

Lemma getRawMoves_NoDup (board : BoardState) pos ep :
  epFree board ep -> List.NoDup (getRawMoves board pos ep).
Proof.
  intros Hep. unfold getRawMoves.
  destruct (cellAt board (row pos) (col pos)) as [piece|]; [|constructor].
  destruct (type piece).
  - apply getKingMovesRaw_NoDup.
  - apply getQueenMoves_NoDup.
  - apply getRookMoves_NoDup.
  - apply getBishopMoves_NoDup.
  - apply getKnightMoves_NoDup.
  - now apply getPawnMoves_NoDup.
Qed.

End UniqueFacts.

(** * The claims of the specification *)

Module EngineSpec.
Import ChessLogic MoveValidator Notions InitialBoard Positions.
Import BoardFacts RawMoveFacts CheckFacts MoveFacts UniqueFacts.

Lemma hasAnyLegalMoves_false (board : BoardState) clr ep :
  hasAnyLegalMoves board clr ep = false <-> noLegalMove board clr ep.
Proof.
  unfold hasAnyLegalMoves, noLegalMove. split.
  - intros H p piece Hp Hcell Hcol.
    destruct (getLegalMoves board p ep) as [|m l] eqn:Hl; [reflexivity|].
    enough (true = false) by discriminate. rewrite <- H. symmetry.
    apply existsb_exists. exists p. split; [now apply In_squares|].
    rewrite Hcell, Hl. apply andb_true_iff.
    split; [now apply colorEq_eq|]. apply Z.ltb_lt. simpl length. lia.
  - intros H. destruct (existsb _ _) eqn:He; [|reflexivity].
    apply existsb_exists in He as (p & Hp & Hf).
    apply In_squares in Hp.
    destruct (cellAt board (row p) (col p)) as [piece|] eqn:Hcell;
      [|discriminate].
    apply andb_true_iff in Hf as [Hcol Hlen]. apply colorEq_eq in Hcol.
    rewrite (H p piece Hp Hcell Hcol) in Hlen. discriminate.
Qed.

(** C1. Self-check exclusion: on every board, for every square and
    en-passant target, each destination returned by [getLegalMoves] is
    accepted by [applyMove], and on the board it returns the mover's own
    king is not in check. *)
Theorem legal_move_keeps_own_king_safe (board : BoardState) pos ep to :
  wfBoard board ->
  In to (getLegalMoves board pos ep) ->
  exists piece res,
    cellAt board (row pos) (col pos) = Some piece /\
    applyMove board pos to ep = Some res /\
    isInCheck (newBoard res) (color piece) = false.
Proof.
  intros Hwf Hin.
  apply getLegalMoves_In in Hin as (piece & Hcell & Hcand & Hsafe).
  exists piece. destruct Hcand as [Hraw|[Hk Hcastle]].
  - destruct (applyMove_raw board pos piece ep to Hwf Hcell Hraw)
      as (res & Happ & Hboard).
    exists res. rewrite Hboard. auto.
  - destruct (applyMove_castling board pos piece ep to Hwf Hcell Hk Hcastle
                Hsafe) as (res & Happ & Hres).
    exists res. auto.
Qed.

Lemma legal_move_keeps_own_king_safe_witness :
  (wfBoard castlingReady /\
   In (mkPos 7 6) (getLegalMoves castlingReady (mkPos 7 4) None)) /\
  exists piece res,
    cellAt castlingReady 7 4 = Some piece /\
    applyMove castlingReady (mkPos 7 4) (mkPos 7 6) None = Some res /\
    isInCheck (newBoard res) (color piece) = false.
Proof.
  assert (wfBoard castlingReady) as Hwf by concrete_board.
  assert (In (mkPos 7 6) (getLegalMoves castlingReady (mkPos 7 4) None))
    as Hin by (vm_compute; tauto).
  split; [split; assumption|].
  exact (legal_move_keeps_own_king_safe castlingReady (mkPos 7 4) None
           (mkPos 7 6) Hwf Hin).
Defined.



(** C3 (amended). En-passant detection: when the piece on [from] is a pawn
    and [to] is the en-passant target, [applyMove] returns, the captured
    piece is the one that stood on (from.row, to.col) and [isEnPassant] is
    set, whatever the target; that square is empty on the new board
    provided [to] lies on another row than [from], as every pawn
    destination does. *)
Theorem en_passant_capture (board : BoardState) from to e pc :
  wfBoard board -> onBoard to ->
  cellAt board (row from) (col from) = Some pc -> type pc = pawn ->
  positionsEqual to e = true ->
  exists res,
    applyMove board from to (Some e) = Some res /\
    capturedPiece res = cellAt board (row from) (col to) /\
    isEnPassant res = true /\
    (row to <> row from ->
     cellAt (newBoard res) (row from) (col to) = None).
Proof.
  intros Hwf Hto Hcell Hty He.
  pose proof (cellAt_onBoard _ _ _ _ Hwf Hcell) as Hfrom.
  apply onBoard_inBounds in Hto.
  assert (isInBounds (row from) (col to) = true) as Hcap.
  { apply isInBounds_spec. apply isInBounds_spec in Hfrom, Hto. lia. }
  unfold applyMove. rewrite cloneBoard_id, Hcell, Hty, He.
  cbn [typeEq andb]. eexists. split; [reflexivity|].
  cbn [capturedPiece newBoard isEnPassant].
  split; [reflexivity|]. split; [reflexivity|].
  intros Hrow. cells. eqb_cases; simpl; (reflexivity || lia).
Qed.

Lemma en_passant_capture_witness :
  (wfBoard enPassantReady /\ onBoard (mkPos 2 3) /\
   cellAt enPassantReady 3 4 = Some (mkPiece pawn white true)) /\
  exists res,
    applyMove enPassantReady (mkPos 3 4) (mkPos 2 3) (Some (mkPos 2 3))
    = Some res /\
    capturedPiece res = cellAt enPassantReady 3 3 /\
    isEnPassant res = true /\
    cellAt (newBoard res) 3 3 = None.
Proof.
  assert (wfBoard enPassantReady) as Hwf by concrete_board.
  assert (onBoard (mkPos 2 3)) as Hto by (unfold onBoard; simpl; lia).
  split; [split; [assumption | split; [assumption | reflexivity]]|].
  destruct (en_passant_capture enPassantReady (mkPos 3 4) (mkPos 2 3)
              (mkPos 2 3) (mkPiece pawn white true) Hwf Hto
              eq_refl eq_refl eq_refl)
    as (res & Hres & Hcap & Hflag & Hempty).
  exists res. split; [exact Hres|]. split; [exact Hcap|].
  split; [exact Hflag|]. apply Hempty. simpl. lia.
Defined.

(** The claim C3 as stated fails when the target lies on the pawn's own
    row: the pawn itself ends on (from.row, to.col). *)
Lemma en_passant_same_row_counterexample :
  ~ (forall res,
       applyMove enPassantReady (mkPos 3 4) (mkPos 3 3) (Some (mkPos 3 3))
       = Some res ->
       capturedPiece res = cellAt enPassantReady 3 3 /\
       cellAt (newBoard res) 3 3 = None /\
       isEnPassant res = true).
Proof.
  intros H.
  destruct (applyMove enPassantReady (mkPos 3 4) (mkPos 3 3)
              (Some (mkPos 3 3))) as [res|] eqn:E; [|vm_compute in E; discriminate].
  destruct (H res eq_refl) as (_ & Hempty & _).
  vm_compute in E. inversion E; subst res. vm_compute in Hempty.
  discriminate.
Qed.

(** C4. Checkmate and stalemate exclude each other: [isCheckmate] holds
    exactly when the colour is in check and has no legal move, [isStalemate]
    exactly when it is not in check and has no legal move. *)
Theorem checkmate_stalemate_exclusive (board : BoardState) clr ep :
  wfBoard board ->
  let status := getGameStatus board clr ep in
  (isCheckmate status && isStalemate status = false) /\
  (isCheckmate status = true <->
   isCheck status = true /\ noLegalMove board clr ep) /\
  (isStalemate status = true <->
   isCheck status = false /\ noLegalMove board clr ep).
Proof.
  intros _. unfold getGameStatus. cbn [isCheck isCheckmate isStalemate].
  rewrite <- hasAnyLegalMoves_false.
  destruct (isInCheck board clr), (hasAnyLegalMoves board clr ep); simpl;
    intuition congruence.
Qed.

Lemma checkmate_stalemate_exclusive_witness :
  wfBoard backRankMate /\
  let status := getGameStatus backRankMate white None in
  (isCheckmate status && isStalemate status = false) /\
  (isCheckmate status = true <->
   isCheck status = true /\ noLegalMove backRankMate white None) /\
  (isStalemate status = true <->
   isCheck status = false /\ noLegalMove backRankMate white None).
Proof.
  assert (wfBoard backRankMate) as Hwf by concrete_board.
  split; [assumption|].
  exact (checkmate_stalemate_exclusive backRankMate white None Hwf).
Defined.

(** C5 (amended). [isInCheck] does not fail on a board without the queried
    king: it returns [false]. *)
Theorem isInCheck_without_king (board : BoardState) clr :
  wfBoard board -> findKing board clr = None -> isInCheck board clr = false.
Proof. intros _ H. unfold isInCheck. now rewrite H. Qed.

Lemma isInCheck_without_king_witness :
  (wfBoard noWhiteKing /\ findKing noWhiteKing white = None) /\
  isInCheck noWhiteKing white = false.
Proof.
  assert (wfBoard noWhiteKing) as Hwf by concrete_board.
  assert (findKing noWhiteKing white = None) as Hk by reflexivity.
  split; [split; assumption|].
  exact (isInCheck_without_king noWhiteKing white Hwf Hk).
Defined.

(** The claim C5 as stated fails: on a board without a white king
    [isInCheck] returns an ordinary boolean. *)
Lemma isInCheck_without_king_counterexample :
  findKing noWhiteKing white = None /\ isInCheck noWhiteKing white = false.
Proof. split; reflexivity. Qed.

(** C7 (amended). One call of [getRawMoves] produces no destination twice,
    provided the en-passant target, when there is one, is an empty square. *)
Theorem raw_moves_distinct (board : BoardState) pos ep :
  wfBoard board -> onBoard pos -> epFree board ep ->
  List.NoDup (getRawMoves board pos ep).
Proof. intros _ _ Hep. now apply getRawMoves_NoDup. Qed.

Lemma raw_moves_distinct_witness :
  (wfBoard enPassantReady /\ onBoard (mkPos 3 4) /\
   epFree enPassantReady (Some (mkPos 2 3))) /\
  List.NoDup (getRawMoves enPassantReady (mkPos 3 4) (Some (mkPos 2 3))).
Proof.
  assert (wfBoard enPassantReady) as Hwf by concrete_board.
  assert (onBoard (mkPos 3 4)) as Hpos by (unfold onBoard; simpl; lia).
  assert (epFree enPassantReady (Some (mkPos 2 3))) as Hep by reflexivity.
  split; [split; [assumption | split; assumption]|].
  exact (raw_moves_distinct enPassantReady (mkPos 3 4) (Some (mkPos 2 3))
           Hwf Hpos Hep).
Defined.

(** The claim C7 as stated fails when an enemy piece stands on the
    en-passant target: the capture and the en-passant branch both push it. *)
Lemma raw_moves_duplicate_counterexample :
  ~ List.NoDup
      (getRawMoves enPassantOccupied (mkPos 3 4) (Some (mkPos 2 3))).
Proof.
  intros H. vm_compute in H.
  apply List.NoDup_cons_iff in H as [_ H].
  apply List.NoDup_cons_iff in H as [H _]. apply H. now left.
Qed.

(** C8. Edge policy: for a square of the board, every destination returned
    by [getRawMoves], and hence by [getLegalMoves], has its row and its
    column in [0,7]. *)
Theorem moves_stay_on_board (board : BoardState) pos ep :
  wfBoard board -> onBoard pos ->
  (forall m, In m (getRawMoves board pos ep) -> onBoard m) /\
  (forall m, In m (getLegalMoves board pos ep) -> onBoard m).
Proof.
  intros _ _. split; intros m Hm.
  - apply onBoard_inBounds. eapply getRawMoves_inBounds; eassumption.
  - apply getLegalMoves_In in Hm as (pc & _ & [Hraw|[_ Hc]] & _).
    + apply onBoard_inBounds. eapply getRawMoves_inBounds; eassumption.
    + apply getCastlingMoves_In in Hc as (_ & _ & _ & [[-> _]|[-> _]]);
        unfold onBoard; simpl; destruct (color pc); simpl; lia.
Qed.

Lemma moves_stay_on_board_witness :
  (wfBoard createInitialBoard /\ onBoard (mkPos 7 1)) /\
  (forall m, In m (getRawMoves createInitialBoard (mkPos 7 1) None) ->
             onBoard m) /\
  (forall m, In m (getLegalMoves createInitialBoard (mkPos 7 1) None) ->
             onBoard m).
Proof.
  assert (wfBoard createInitialBoard) as Hwf by concrete_board.
  assert (onBoard (mkPos 7 1)) as Hpos by (unfold onBoard; simpl; lia).
  split; [split; assumption|].
  exact (moves_stay_on_board createInitialBoard (mkPos 7 1) None Hwf Hpos).
Defined.

(** C9. When a king's legal destination lies two columns from its square,
    the corner of its row on that side, column 7 or column 0, holds a rook
    that has never moved; [applyMove] therefore finds the rook it reads
    there and returns a result. *)
Theorem castling_rook_in_corner (board : BoardState) pos ep to kg :
  wfBoard board ->
  cellAt board (row pos) (col pos) = Some kg -> type kg = king ->
  In to (getLegalMoves board pos ep) ->
  Z.abs (col to - col pos) = 2 ->
  (exists rk,
     cellAt board (row pos) (if 0 <? col to - col pos then 7 else 0)
     = Some rk /\
     type rk = rook /\ hasMoved rk = false) /\
  exists res, applyMove board pos to ep = Some res.
Proof.
  intros Hwf Hcell Hk Hin Hdiff.
  apply getLegalMoves_In in Hin as (pc & Hc & Hcand & Hsafe).
  rewrite Hcell in Hc. inversion Hc; subst pc.
  destruct Hcand as [Hraw|[_ Hcastle]].
  { unfold getRawMoves in Hraw. rewrite Hcell, Hk in Hraw.
    apply getKingMovesRaw_In in Hraw. lia. }
  split.
  - apply getCastlingMoves_In in Hcastle
      as (_ & Hr & Hcol & [[-> Hclear]|[-> Hclear]]);
      cbn [row col]; rewrite Hcol, Hr.
    + destruct Hclear as (rk & Hrk & Hty & Hmv & _). exists rk. auto.
    + destruct Hclear as (rk & Hrk & Hty & Hmv & _). exists rk. auto.
  - destruct (applyMove_castling board pos kg ep to Hwf Hcell Hk Hcastle
                Hsafe) as (res & Hres & _).
    exists res. assumption.
Qed.

Lemma castling_rook_in_corner_witness :
  (wfBoard castlingReady /\
   cellAt castlingReady 7 4 = Some (piece king white) /\
   In (mkPos 7 2) (getLegalMoves castlingReady (mkPos 7 4) None)) /\
  (exists rk,
     cellAt castlingReady 7 0 = Some rk /\
     type rk = rook /\ hasMoved rk = false) /\
  exists res,
    applyMove castlingReady (mkPos 7 4) (mkPos 7 2) None = Some res.
Proof.
  assert (wfBoard castlingReady) as Hwf by concrete_board.
  assert (In (mkPos 7 2) (getLegalMoves castlingReady (mkPos 7 4) None))
    as Hin by (vm_compute; tauto).
  split; [split; [assumption | split; [reflexivity | assumption]]|].
  exact (castling_rook_in_corner castlingReady (mkPos 7 4) None (mkPos 7 2)
           (piece king white) Hwf eq_refl eq_refl Hin eq_refl).
Defined.

End EngineSpec.

Module ValidatorSpec.
Import ChessLogic MoveValidator Notions InitialBoard Positions BoardFacts.

(** C10. With a pawn on [from] and [to] any square two rows away,
    [computeEnPassantTarget] returns the square of [from]'s column on the row
    half-way between the two, whatever the pawn's colour, its direction, its
    start row or the column of [to]; in every other case (no piece on [from],
    another kind of piece, another row distance) it returns nothing. *)
Theorem computeEnPassantTarget_cases (board : BoardState) from to :
  wfBoard board -> onBoard from ->
  (forall pc,
     cellAt board (row from) (col from) = Some pc -> type pc = pawn ->
     Z.abs (row to - row from) = 2 ->
     computeEnPassantTarget board from to
     = Some (mkPos ((row from + row to) / 2) (col from)) /\
     2 * ((row from + row to) / 2) = row from + row to) /\
  (cellAt board (row from) (col from) = None \/
   (exists pc, cellAt board (row from) (col from) = Some pc /\
               type pc <> pawn) \/
   Z.abs (row to - row from) <> 2 ->
   computeEnPassantTarget board from to = None).
Proof.
  intros _ _. unfold computeEnPassantTarget. split.
  - intros pc Hcell Hty Hdiff. rewrite Hcell, Hty. cbn [typeEq negb].
    rewrite Hdiff. cbn [Z.eqb Pos.eqb negb]. split; [reflexivity|].
    assert (row to = row from + 2 \/ row to = row from - 2) as [-> | ->]
      by lia.
    + replace (row from + (row from + 2)) with ((row from + 1) * 2) by lia.
      rewrite Z.div_mul; lia.
    + replace (row from + (row from - 2)) with ((row from - 1) * 2) by lia.
      rewrite Z.div_mul; lia.
  - intros [Hnone|[(pc & Hcell & Hty)|Hdiff]].
    + now rewrite Hnone.
    + rewrite Hcell. destruct (typeEq (type pc) pawn) eqn:E; [|reflexivity].
      apply typeEq_eq in E. contradiction.
    + destruct (cellAt board (row from) (col from)) as [pc|]; [|reflexivity].
      destruct (negb (typeEq (type pc) pawn)); [reflexivity|].
      apply Z.eqb_neq in Hdiff. now rewrite Hdiff.
Qed.

(** A black pawn stepping "backwards" from row 3 to row 1, three columns
    aside, still gets a target. *)
Lemma computeEnPassantTarget_cases_witness :
  (wfBoard enPassantReady /\ onBoard (mkPos 3 3)) /\
  computeEnPassantTarget enPassantReady (mkPos 3 3) (mkPos 1 6)
  = Some (mkPos 2 3).
Proof.
  assert (wfBoard enPassantReady) as Hwf by concrete_board.
  assert (onBoard (mkPos 3 3)) as Hpos by (unfold onBoard; simpl; lia).
  split; [split; assumption|].
  exact (proj1 (proj1 (computeEnPassantTarget_cases enPassantReady
                         (mkPos 3 3) (mkPos 1 6) Hwf Hpos)
                  (mkPiece pawn black true) eq_refl eq_refl eq_refl)).
Defined.

End ValidatorSpec.

Module ProviderSpec.
Import ChessLogic Notions InitialBoard Positions BoardFacts.
Import GameContext.

(** C6 (amended). Promotion completion, for every pending promotion and
    every piece kind it is given (king and pawn included), puts a piece of
    that kind and of the pending colour, with [hasMoved] set, on the
    promotion square, leaves the other squares as they were, clears the
    pending promotion and the en-passant target and passes the turn. *)
Theorem promotePawn_places_given_kind (st : Provider) pending kind :
  wfBoard (board (gameState st)) -> onBoard (position pending) ->
  promotionPending st = Some pending ->
  let st' := promotePawn st kind in
  cellAt (board (gameState st'))
         (row (position pending)) (col (position pending))
  = Some {| type := kind; color := pendingColor pending; hasMoved := true |}
  /\
  (forall r c, mkPos r c <> position pending ->
     cellAt (board (gameState st')) r c = cellAt (board (gameState st)) r c)
  /\
  promotionPending st' = None /\
  enPassantTarget (gameState st') = None /\
  currentTurn (gameState st') = opponentOf (pendingColor pending).
Proof.
  intros Hwf Hpos Hpend. apply onBoard_inBounds in Hpos.
  unfold promotePawn. rewrite Hpend. cbv zeta.
  cbn [gameState board promotionPending enPassantTarget currentTurn].
  rewrite cloneBoard_id.
  split; [|split; [|auto]].
  - rewrite cellAt_setCell by assumption. now rewrite !Z.eqb_refl.
  - intros r c Hne. rewrite cellAt_setCell by assumption.
    destruct (r =? row (position pending)) eqn:Er; [|reflexivity].
    destruct (c =? col (position pending)) eqn:Ec; [|reflexivity].
    apply Z.eqb_eq in Er, Ec. exfalso. apply Hne.
    destruct (position pending). simpl in *. now subst.
Qed.

Lemma promotePawn_places_given_kind_witness :
  (wfBoard (board (gameState promotionState)) /\ onBoard (mkPos 0 0)) /\
  cellAt (board (gameState (promotePawn promotionState knight))) 0 0
  = Some {| type := knight; color := white; hasMoved := true |}.
Proof.
  assert (wfBoard (board (gameState promotionState))) as Hwf
    by concrete_board.
  assert (onBoard (mkPos 0 0)) as Hpos by (unfold onBoard; simpl; lia).
  split; [split; assumption|].
  exact (proj1 (promotePawn_places_given_kind promotionState
                  (mkPending (mkPos 0 0) white (mkPos 1 0)) knight
                  Hwf Hpos eq_refl)).
Defined.

(** The claim C6 as stated fails: given the kind king, promotion completion
    changes the board, putting a king on the promotion square. *)
Lemma promotePawn_king_counterexample :
  promotionPending promotionState <> None /\
  board (gameState (promotePawn promotionState king))
  <> board (gameState promotionState) /\
  cellAt (board (gameState (promotePawn promotionState king))) 0 0
  = Some {| type := king; color := white; hasMoved := true |}.
Proof.
  split; [discriminate|]. split; [|reflexivity].
  intros H.
  apply (f_equal (fun bd => cellAt bd 0 0)) in H. vm_compute in H.
  discriminate.
Qed.

End ProviderSpec.

(** * Further properties of the engine *)

Module EngineExtra.
Import ChessLogic Notions InitialBoard Positions.
Import BoardFacts RawMoveFacts CheckFacts MoveFacts UniqueFacts.

(** The squares a walk visits, exactly. *)
Lemma slide_In_iff (board : BoardState) clr dr dc n :
  forall r c m,
  In m (slide n board clr r c dr dc) <->
  exists k,
    0 <= k < Z.of_nat n /\ row m = r + k * dr /\ col m = c + k * dc /\
    (forall j, 0 <= j <= k -> isInBounds (r + j * dr) (c + j * dc) = true) /\
    (forall j, 0 <= j < k -> cellAt board (r + j * dr) (c + j * dc) = None) /\
    landable board clr m.
Proof.
  induction n as [|n IH]; intros r c m.
  { simpl. split; [contradiction|]. intros (k & Hk & _). lia. }
  cbn [slide]. split.
  - intros Hm. destruct (isInBounds r c) eqn:Hin; [|contradiction].
    assert (Hhere : forall j, 0 <= j <= 0 ->
              isInBounds (r + j * dr) (c + j * dc) = true).
    { intros j Hj. assert (j = 0) as -> by lia.
      now rewrite !Z.mul_0_l, !Z.add_0_r. }
    destruct (cellAt board r c) as [t|] eqn:Hcell.
    + destruct (negb (colorEq (color t) clr)) eqn:Hfoe; [|contradiction].
      destruct Hm as [<-|[]]. exists 0. cbn [row col].
      conjs; try lia; [assumption|].
      apply landable_cases. now rewrite Hcell.
    + destruct Hm as [<-|Hm].
      * exists 0. cbn [row col].
        conjs; try lia; [assumption|].
        apply landable_cases. now rewrite Hcell.
      * apply IH in Hm as (k & Hk & Hr & Hc & Hpath & Hfree & Hland).
        exists (k + 1). conjs; try lia; [| |assumption].
        -- intros j Hj. destruct (Z.eq_dec j 0) as [->|Hj0];
             [now apply Hhere|].
           specialize (Hpath (j - 1) ltac:(lia)).
           now replace (r + dr + (j - 1) * dr) with (r + j * dr) in Hpath
             by lia;
             replace (c + dc + (j - 1) * dc) with (c + j * dc) in Hpath
             by lia.
        -- intros j Hj. destruct (Z.eq_dec j 0) as [->|Hj0].
           { now rewrite !Z.mul_0_l, !Z.add_0_r. }
           specialize (Hfree (j - 1) ltac:(lia)).
           now replace (r + dr + (j - 1) * dr) with (r + j * dr) in Hfree
             by lia;
             replace (c + dc + (j - 1) * dc) with (c + j * dc) in Hfree
             by lia.
  - intros (k & Hk & Hr & Hc & Hpath & Hfree & Hland).
    pose proof (Hpath 0 ltac:(lia)) as H0.
    rewrite !Z.mul_0_l, !Z.add_0_r in H0. rewrite H0.
    destruct (Z.eq_dec k 0) as [->|Hk0].
    + assert (m = mkPos r c) as -> by (destruct m; simpl in *; f_equal; lia).
      apply landable_cases in Hland.
      destruct (cellAt board r c) as [t|]; [rewrite Hland|]; now left.
    + pose proof (Hfree 0 ltac:(lia)) as Hc0.
      rewrite !Z.mul_0_l, !Z.add_0_r in Hc0. rewrite Hc0. right.
      apply IH. exists (k - 1). conjs; try lia; [| |assumption].
      * intros j Hj. specialize (Hpath (j + 1) ltac:(lia)).
        now replace (r + (j + 1) * dr) with (r + dr + j * dr) in Hpath by lia;
          replace (c + (j + 1) * dc) with (c + dc + j * dc) in Hpath by lia.
      * intros j Hj. specialize (Hfree (j + 1) ltac:(lia)).
        now replace (r + (j + 1) * dr) with (r + dr + j * dr) in Hfree by lia;
          replace (c + (j + 1) * dc) with (c + dc + j * dc) in Hfree by lia.
Qed.

Lemma ray_reaches (board : BoardState) clr pos dr dc m :
  onBoard pos -> unitDir dr dc ->
  In m (slide 8 board clr (row pos + dr) (col pos + dc) dr dc) <->
  reaches board clr pos dr dc m.
Proof.
  intros Hpos Hd. rewrite slide_In_iff. unfold reaches.
  unfold onBoard in Hpos. split.
  - intros (k & Hk & Hr & Hc & Hpath & Hfree & Hland).
    exists (k + 1). conjs; try lia; [| |assumption].
    + rewrite Hr, Hc. apply (Hpath k). lia.
    + intros j Hj. specialize (Hfree (j - 1) ltac:(lia)).
      now replace (row pos + dr + (j - 1) * dr) with (row pos + j * dr)
        in Hfree by lia;
        replace (col pos + dc + (j - 1) * dc) with (col pos + j * dc)
        in Hfree by lia.
  - intros (k & Hk & Hr & Hc & Hin & Hfree & Hland).
    apply isInBounds_spec in Hin. unfold unitDir in Hd.
    assert (Hkd : forall j, 0 <= j <= k ->
              0 <= row pos + j * dr <= 7 /\ 0 <= col pos + j * dc <= 7).
    { intros j Hj.
      assert (dr = -1 \/ dr = 0 \/ dr = 1) as [-> | [-> | ->]] by lia;
        assert (dc = -1 \/ dc = 0 \/ dc = 1) as [-> | [-> | ->]] by lia;
        lia. }
    exists (k - 1). conjs; try lia; [| |assumption].
    + intros j Hj. apply isInBounds_spec.
      specialize (Hkd (j + 1) ltac:(lia)). lia.
    + intros j Hj. specialize (Hfree (j + 1) ltac:(lia)).
      now replace (row pos + (j + 1) * dr) with (row pos + dr + j * dr)
        in Hfree by lia;
        replace (col pos + (j + 1) * dc) with (col pos + dc + j * dc)
        in Hfree by lia.
Qed.

Lemma rays_reach (board : BoardState) clr pos dirs m :
  onBoard pos -> (forall dr dc, In (dr, dc) dirs -> unitDir dr dc) ->
  In m (flat_map
          (fun d : Z * Z =>
             let (dr, dc) := d in
             slide 8 board clr (row pos + dr) (col pos + dc) dr dc) dirs) <->
  exists dr dc, In (dr, dc) dirs /\ reaches board clr pos dr dc m.
Proof.
  intros Hpos Hdirs. rewrite in_flat_map. split.
  - intros ([dr dc] & Hd & Hm). exists dr, dc. split; [assumption|].
    apply ray_reaches; auto.
  - intros (dr & dc & Hd & Hm). exists (dr, dc). split; [assumption|].
    apply ray_reaches; auto.
Qed.

(** X1. Rook, bishop and queen slide: from a square of the board, their raw
    destinations are exactly the squares reached along a rook direction, a
    bishop direction, or either, with every square passed over empty and
    the destination empty or held by the other colour. *)
Theorem sliding_moves_exact (board : BoardState) pos clr m :
  onBoard pos ->
  (In m (getRookMoves board pos clr) <->
   exists dr dc, In (dr, dc) rookDirections /\ reaches board clr pos dr dc m)
  /\
  (In m (getBishopMoves board pos clr) <->
   exists dr dc,
     In (dr, dc) bishopDirections /\ reaches board clr pos dr dc m)
  /\
  (In m (getQueenMoves board pos clr) <->
   exists dr dc,
     In (dr, dc) (rookDirections ++ bishopDirections) /\
     reaches board clr pos dr dc m).
Proof.
  intros Hpos. split; [|split].
  - apply rays_reach; auto using rookDirections_unit.
  - apply rays_reach; auto using bishopDirections_unit.
  - unfold getQueenMoves, getRookMoves, getBishopMoves.
    rewrite <- flat_map_app. apply rays_reach; [assumption|].
    intros dr dc Hd. apply in_app_or in Hd as [Hd|Hd];
      auto using rookDirections_unit, bishopDirections_unit.
Qed.

Lemma sliding_moves_exact_witness :
  onBoard (mkPos 7 0) /\
  (In (mkPos 7 3) (getRookMoves castlingReady (mkPos 7 0) white) <->
   exists dr dc,
     In (dr, dc) rookDirections /\
     reaches castlingReady white (mkPos 7 0) dr dc (mkPos 7 3)).
Proof.
  assert (onBoard (mkPos 7 0)) as Hpos by (unfold onBoard; simpl; lia).
  split; [assumption|].
  exact (proj1 (sliding_moves_exact castlingReady (mkPos 7 0) white
                  (mkPos 7 3) Hpos)).
Defined.

(** X2. Knight and king step: a knight's raw destinations are exactly the
    squares of the board at one of the eight L-shaped offsets, a king's the
    squares of the board at most one row and one column away (other than
    its own), in both cases empty or held by the other colour. *)
Theorem stepping_moves_exact (board : BoardState) pos clr m :
  (In m (getKnightMoves board pos clr) <->
   In (row m - row pos, col m - col pos) knightOffsets /\
   isInBounds (row m) (col m) = true /\ landable board clr m)
  /\
  (In m (getKingMovesRaw board pos clr) <->
   -1 <= row m - row pos <= 1 /\ -1 <= col m - col pos <= 1 /\
   m <> pos /\
   isInBounds (row m) (col m) = true /\ landable board clr m).
Proof.
  split.
  - unfold getKnightMoves. rewrite in_flat_map. split.
    + intros ([dr dc] & Hd & Hm).
      apply stepTo_In_iff in Hm as (-> & Hin & Hland). cbn [row col].
      replace (row pos + dr - row pos) with dr by lia.
      replace (col pos + dc - col pos) with dc by lia. auto.
    + intros (Hd & Hin & Hland).
      exists (row m - row pos, col m - col pos). split; [assumption|].
      apply stepTo_In_iff.
      replace (row pos + (row m - row pos)) with (row m) by lia.
      replace (col pos + (col m - col pos)) with (col m) by lia.
      destruct m; auto.
  - unfold getKingMovesRaw. rewrite in_flat_map. split.
    + intros (dr & Hdr & Hm). apply in_flat_map in Hm as (dc & Hdc & Hm).
      destruct ((dr =? 0) && (dc =? 0)) eqn:Hz; [contradiction|].
      apply stepTo_In_iff in Hm as (-> & Hin & Hland). cbn [row col].
      apply andb_false_iff in Hz. rewrite !Z.eqb_neq in Hz.
      simpl in Hdr, Hdc.
      conjs; try lia; try assumption.
      intros E. destruct pos; inversion E; lia.
    + intros (Hr & Hc & Hne & Hin & Hland).
      exists (row m - row pos). split; [simpl; lia|].
      apply in_flat_map. exists (col m - col pos). split; [simpl; lia|].
      destruct ((row m - row pos =? 0) && (col m - col pos =? 0)) eqn:Hz.
      { apply andb_true_iff in Hz as [E1 E2]. apply Z.eqb_eq in E1, E2.
        exfalso. apply Hne. destruct m, pos; simpl in *; f_equal; lia. }
      apply stepTo_In_iff.
      replace (row pos + (row m - row pos)) with (row m) by lia.
      replace (col pos + (col m - col pos)) with (col m) by lia.
      destruct m; auto.
Qed.

Lemma getPawnMoves_cases (board : BoardState) pos clr ep m :
  let dir := match clr with white => -1 | black => 1 end in
  let startRow := match clr with white => 6 | black => 1 end in
  In m (getPawnMoves board pos clr ep) <->
  isInBounds (row m) (col m) = true /\
  ((m = mkPos (row pos + dir) (col pos) /\
    cellAt board (row m) (col m) = None)
   \/
   (m = mkPos (row pos + 2 * dir) (col pos) /\ row pos = startRow /\
    cellAt board (row pos + dir) (col pos) = None /\
    cellAt board (row m) (col m) = None)
   \/
   (row m = row pos + dir /\
    (col m = col pos - 1 \/ col m = col pos + 1) /\
    ((exists t, cellAt board (row m) (col m) = Some t /\ color t <> clr) \/
     ep = Some m))).
Proof.
  intros dir startRow. unfold getPawnMoves. fold dir. fold startRow.
  rewrite in_app_iff, in_flat_map. split.
  - intros [Hm|(dc & Hdc & Hm)].
    + destruct (isInBounds _ _ && _) eqn:H1 in Hm; [|contradiction].
      apply andb_true_iff in H1 as [Hin Hfree]. apply truthy_false in Hfree.
      destruct Hm as [<-|Hm]; [cbn [row col]; auto|].
      destruct (_ && _) eqn:H2 in Hm; [|contradiction].
      apply andb_true_iff in H2 as [Hs Hfree2]. apply Z.eqb_eq in Hs.
      apply truthy_false in Hfree2. destruct Hm as [<-|[]]. cbn [row col].
      split.
      * apply isInBounds_spec. apply isInBounds_spec in Hin.
        subst dir startRow. destruct clr; lia.
      * right. left. auto.
    + destruct (isInBounds _ _) eqn:Hin in Hm; [|contradiction].
      assert (col pos + dc = col pos - 1 \/ col pos + dc = col pos + 1)
        as Hcol by (simpl in Hdc; lia).
      apply in_app_or in Hm as [Hm|Hm].
      * destruct (cellAt _ _ _) as [t|] eqn:Ht in Hm; [|contradiction].
        destruct (negb _) eqn:Hfoe in Hm; [|contradiction].
        destruct Hm as [<-|[]]. cbn [row col].
        split; [assumption|]. right. right.
        split; [reflexivity|]. split; [assumption|]. left. exists t.
        split; [assumption|]. apply negb_true_iff in Hfoe.
        intros E. apply colorEq_eq in E. congruence.
      * destruct ep as [e|]; [|contradiction].
        destruct (_ && _) eqn:He in Hm; [|contradiction].
        destruct Hm as [<-|[]]. cbn [row col].
        split; [assumption|]. right. right.
        split; [reflexivity|]. split; [assumption|]. right.
        apply andb_true_iff in He as [E1 E2]. apply Z.eqb_eq in E1, E2.
        destruct e; simpl in *; now subst.
  - intros (Hin & [(-> & Hfree) | [(-> & Hs & Hfree1 & Hfree2) | (Hr & Hc & Hwhat)]]).
    + left. cbn [row col] in *. rewrite Hin, Hfree. now left.
    + left. cbn [row col] in *.
      assert (isInBounds (row pos + dir) (col pos) = true) as ->.
      { apply isInBounds_spec. apply isInBounds_spec in Hin.
        subst dir startRow. destruct clr; lia. }
      rewrite Hfree1. cbn [truthy negb andb]. right.
      apply Z.eqb_eq in Hs. rewrite Hs, Hfree2. now left.
    + right. exists (col m - col pos). split; [simpl; lia|].
      replace (col pos + (col m - col pos)) with (col m) by lia.
      rewrite <- Hr, Hin. apply in_or_app.
      destruct Hwhat as [(t & Ht & Hfoe) | ->].
      * left. rewrite Ht.
        destruct (colorEq (color t) clr) eqn:E;
          [apply colorEq_eq in E; contradiction|].
        left. now destruct m.
      * right. rewrite !Z.eqb_refl. left. now destruct m.
Qed.

(** X3. Pawn moves: the raw destinations of a pawn are exactly (a) the
    square straight ahead when it is empty, (b) from the start row, the
    second square ahead when both squares ahead are empty, and (c) a square
    diagonally ahead that holds a piece of the other colour or is the
    en-passant target; white moves towards row 0, black towards row 7. *)
Theorem pawn_moves_exact (board : BoardState) pos clr ep m :
  let dir := match clr with white => -1 | black => 1 end in
  let startRow := match clr with white => 6 | black => 1 end in
  In m (getPawnMoves board pos clr ep) <->
  isInBounds (row m) (col m) = true /\
  ((m = mkPos (row pos + dir) (col pos) /\
    cellAt board (row m) (col m) = None)
   \/
   (m = mkPos (row pos + 2 * dir) (col pos) /\ row pos = startRow /\
    cellAt board (row pos + dir) (col pos) = None /\
    cellAt board (row m) (col m) = None)
   \/
   (row m = row pos + dir /\
    (col m = col pos - 1 \/ col m = col pos + 1) /\
    ((exists t, cellAt board (row m) (col m) = Some t /\ color t <> clr) \/
     ep = Some m))).
Proof. apply getPawnMoves_cases. Qed.

Lemma reaches_away (board : BoardState) clr pos dr dc m :
  unitDir dr dc -> reaches board clr pos dr dc m ->
  m <> pos /\ landable board clr m.
Proof.
  intros Hd (k & Hk & Hr & Hc & _ & _ & Hland). split; [|assumption].
  intros ->. unfold unitDir in Hd.
  assert (dr = -1 \/ dr = 0 \/ dr = 1) as [-> | [-> | ->]] by lia;
    assert (dc = -1 \/ dc = 0 \/ dc = 1) as [-> | [-> | ->]] by lia; lia.
Qed.

Lemma rays_away (board : BoardState) clr pos dirs m :
  onBoard pos -> (forall dr dc, In (dr, dc) dirs -> unitDir dr dc) ->
  In m (flat_map
          (fun d : Z * Z =>
             let (dr, dc) := d in
             slide 8 board clr (row pos + dr) (col pos + dc) dr dc) dirs) ->
  m <> pos /\ landable board clr m.
Proof.
  intros Hpos Hdirs Hm. apply rays_reach in Hm as (dr & dc & Hd & Hm);
    [|assumption..].
  eapply reaches_away; eauto.
Qed.

Lemma getPawnMoves_landable (board : BoardState) pos clr ep m :
  epFree board ep -> In m (getPawnMoves board pos clr ep) ->
  landable board clr m.
Proof.
  intros Hep Hm. unfold getPawnMoves in Hm.
  apply in_app_or in Hm as [Hm|Hm].
  - destruct (isInBounds _ _ && _) eqn:H1 in Hm; [|contradiction].
    apply andb_true_iff in H1 as [_ Hfree]. apply truthy_false in Hfree.
    destruct Hm as [<-|Hm].
    { apply landable_cases. now rewrite Hfree. }
    destruct (_ && _) eqn:H2 in Hm; [|contradiction].
    apply andb_true_iff in H2 as [_ Hfree2]. apply truthy_false in Hfree2.
    destruct Hm as [<-|[]]. apply landable_cases. now rewrite Hfree2.
  - apply in_flat_map in Hm as (dc & _ & Hm).
    destruct (isInBounds _ _) in Hm; [|contradiction].
    apply in_app_or in Hm as [Hm|Hm].
    + destruct (cellAt _ _ _) as [t|] eqn:Ht in Hm; [|contradiction].
      destruct (negb _) eqn:Hfoe in Hm; [|contradiction].
      destruct Hm as [<-|[]]. apply landable_cases. now rewrite Ht.
    + destruct ep as [e|]; [|contradiction].
      destruct (_ && _) eqn:He in Hm; [|contradiction].
      destruct Hm as [<-|[]].
      apply andb_true_iff in He as [E1 E2]. apply Z.eqb_eq in E1, E2.
      simpl in Hep. rewrite E1, E2 in Hep.
      apply landable_cases. now rewrite Hep.
Qed.

(** A raw move leaves the square and lands on an empty square or on a piece
    of the other colour. *)
Lemma getRawMoves_away (board : BoardState) pos ep pc m :
  wfBoard board ->
  cellAt board (row pos) (col pos) = Some pc ->
  epFree board ep ->
  In m (getRawMoves board pos ep) ->
  m <> pos /\ landable board (color pc) m.
Proof.
  intros Hwf Hcell Hep. unfold getRawMoves. rewrite Hcell.
  assert (onBoard pos) as Hpos
    by (apply onBoard_inBounds; eapply cellAt_onBoard; eassumption).
  destruct (type pc); intros Hm.
  - pose proof (getKingMovesRaw_In _ _ _ _ Hm) as (_ & _ & _ & Hne).
    split; [intros ->; lia|].
    unfold getKingMovesRaw in Hm.
    apply in_flat_map in Hm as (dr & _ & Hm).
    apply in_flat_map in Hm as (dc & _ & Hm).
    destruct (_ && _); [contradiction|]. now apply stepTo_In_iff in Hm.
  - unfold getQueenMoves in Hm. apply in_app_or in Hm as [Hm|Hm].
    + eapply rays_away; eauto using rookDirections_unit.
    + eapply rays_away; eauto using bishopDirections_unit.
  - eapply rays_away; eauto using rookDirections_unit.
  - eapply rays_away; eauto using bishopDirections_unit.
  - pose proof (getKnightMoves_In _ _ _ _ Hm) as (_ & Hoff).
    split.
    + intros ->. rewrite !Z.sub_diag in Hoff. unfold knightOffsets in Hoff.
      simpl in Hoff. intuition congruence.
    + unfold getKnightMoves in Hm.
      apply in_flat_map in Hm as ([dr dc] & _ & Hm).
      now apply stepTo_In_iff in Hm.
  - split; [|eapply getPawnMoves_landable; eassumption].
    apply getPawnMoves_In in Hm as (_ & Hrow & _).
    intros ->. destruct (color pc); lia.
Qed.

(** X4. No piece moves onto its own side or stays where it is: on a board
    whose en-passant target (if any) is an empty square, every raw
    destination of the piece on [pos] differs from [pos] and is empty or
    held by the other colour. *)
Theorem raw_moves_avoid_own_pieces (board : BoardState) pos ep pc m :
  wfBoard board ->
  cellAt board (row pos) (col pos) = Some pc ->
  epFree board ep ->
  In m (getRawMoves board pos ep) ->
  m <> pos /\ landable board (color pc) m.
Proof.
  exact (getRawMoves_away board pos ep pc m).
Qed.

Lemma raw_moves_avoid_own_pieces_witness :
  (wfBoard createInitialBoard /\
   cellAt createInitialBoard 7 1 = Some (piece knight white) /\
   epFree createInitialBoard None /\
   In (mkPos 5 2) (getRawMoves createInitialBoard (mkPos 7 1) None)) /\
  mkPos 5 2 <> mkPos 7 1 /\ landable createInitialBoard white (mkPos 5 2).
Proof.
  assert (wfBoard createInitialBoard) as Hwf by concrete_board.
  assert (In (mkPos 5 2) (getRawMoves createInitialBoard (mkPos 7 1) None))
    as Hin by (vm_compute; tauto).
  split; [split; [assumption | split; [reflexivity | split; [exact I | assumption]]]|].
  exact (raw_moves_avoid_own_pieces createInitialBoard (mkPos 7 1) None
           (piece knight white) (mkPos 5 2) Hwf eq_refl I Hin).
Defined.

(** Every write of [applyMove] falls on the grid when [dst] does: the
    square of the mover holds a piece, the en-passant and castling squares
    lie on the mover's row in a column of the board. *)
Lemma applyMove_wfBoard (board : BoardState) src dst ep res :
  wfBoard board -> onBoard dst -> applyMove board src dst ep = Some res ->
  wfBoard (newBoard res) /\
  onBoard src /\ onBoard (mkPos (row src) (col dst)).
Proof.
  intros Hwf Hdst Happ.
  assert (onBoard src /\ onBoard (mkPos (row src) (col dst))) as Hon.
  { unfold applyMove in Happ. rewrite cloneBoard_id in Happ.
    destruct (cellAt board (row src) (col src)) as [pc|] eqn:Hpc;
      [|discriminate].
    apply cellAt_onBoard in Hpc; [|assumption].
    apply onBoard_inBounds in Hpc. split; [assumption|].
    unfold onBoard in *. cbn [row col]. lia. }
  split; [|exact Hon]. revert Happ. unfold applyMove. rewrite cloneBoard_id.
  destruct (cellAt board (row src) (col src)) as [pc|]; [|discriminate].
  cbv zeta.
  destruct (typeEq (type pc) king && (Z.abs (col dst - col src) =? 2)).
  - destruct (cellAt _ _ _) as [rk|]; [|discriminate].
    intros [= <-]. cbn [newBoard].
    destruct (_ && _); repeat apply wfBoard_setCell; assumption.
  - intros [= <-]. cbn [newBoard].
    destruct (_ && _); repeat apply wfBoard_setCell; assumption.
Qed.

(** X5. [applyMove] keeps the shape of the board: whenever it returns for
    a destination on the board, the new board again has eight rows of eight
    cells.  (For a destination outside the board the assignment
    [newBoard[to.row][to.col] = ...] would grow a row or raise.) *)
Theorem applyMove_keeps_shape (board : BoardState) src dst ep res :
  wfBoard board -> onBoard dst -> applyMove board src dst ep = Some res ->
  wfBoard (newBoard res).
Proof.
  intros Hwf Hdst Happ.
  exact (proj1 (applyMove_wfBoard board src dst ep res Hwf Hdst Happ)).
Qed.

Lemma applyMove_keeps_shape_witness :
  (wfBoard castlingReady /\ onBoard (mkPos 7 6)) /\
  exists res,
    applyMove castlingReady (mkPos 7 4) (mkPos 7 6) None = Some res /\
    wfBoard (newBoard res).
Proof.
  assert (wfBoard castlingReady) as Hwf by concrete_board.
  assert (onBoard (mkPos 7 6)) as Hdst by (unfold onBoard; simpl; lia).
  split; [split; assumption|].
  destruct (applyMove castlingReady (mkPos 7 4) (mkPos 7 6) None)
    as [res|] eqn:Hres; [|vm_compute in Hres; discriminate].
  exists res. split; [reflexivity|].
  exact (applyMove_keeps_shape castlingReady (mkPos 7 4) (mkPos 7 6) None
           res Hwf Hdst Hres).
Defined.

(** X6. An ordinary move (no en-passant capture, no king moving two
    columns) onto another square of the board: [applyMove] returns what
    stood on [dst] as the captured piece, raises neither special flag, puts
    the mover on [dst] with [hasMoved] set, empties [src] and changes no
    other square. *)
Theorem applyMove_ordinary (board : BoardState) src dst ep pc :
  wfBoard board -> onBoard dst ->
  cellAt board (row src) (col src) = Some pc ->
  dst <> src ->
  (type pc = pawn -> ep <> Some dst) ->
  (type pc = king -> Z.abs (col dst - col src) <> 2) ->
  exists res,
    applyMove board src dst ep = Some res /\
    capturedPiece res = cellAt board (row dst) (col dst) /\
    isCastling res = false /\ isEnPassant res = false /\
    cellAt (newBoard res) (row dst) (col dst) = Some (markMoved pc) /\
    cellAt (newBoard res) (row src) (col src) = None /\
    forall r c, mkPos r c <> src -> mkPos r c <> dst ->
      cellAt (newBoard res) r c = cellAt board r c.
Proof.
  intros Hwf Hdst Hcell Hne Hep Hk.
  pose proof (cellAt_onBoard _ _ _ _ Hwf Hcell) as Hsrc.
  apply onBoard_inBounds in Hdst.
  unfold applyMove. rewrite cloneBoard_id, Hcell.
  assert (typeEq (type pc) pawn
          && match ep with Some e => positionsEqual dst e | None => false end
          = false) as ->.
  { destruct (typeEq (type pc) pawn) eqn:Hp; [|reflexivity]. simpl.
    apply typeEq_eq in Hp. destruct ep as [e|]; [|reflexivity].
    destruct (positionsEqual dst e) eqn:He; [|reflexivity].
    apply positionsEqual_eq in He. subst e. now elim (Hep Hp). }
  assert (typeEq (type pc) king && (Z.abs (col dst - col src) =? 2)
          = false) as ->.
  { destruct (typeEq (type pc) king) eqn:Hking; [|reflexivity]. simpl.
    apply typeEq_eq in Hking. apply Z.eqb_neq. auto. }
  eexists. split; [reflexivity|].
  cbn [capturedPiece isCastling isEnPassant newBoard].
  split; [reflexivity|]. split; [reflexivity|]. split; [reflexivity|].
  split; [|split].
  - cells. rewrite !Z.eqb_refl. cbn [andb].
    destruct ((row dst =? row src) && (col dst =? col src)) eqn:E;
      [|reflexivity].
    apply andb_true_iff in E as [E1 E2]. apply Z.eqb_eq in E1, E2.
    exfalso. apply Hne. destruct dst, src; simpl in *; now subst.
  - cells. now rewrite !Z.eqb_refl.
  - intros r c Hs Hd. cells.
    destruct ((r =? row src) && (c =? col src)) eqn:E1.
    { apply andb_true_iff in E1 as [E E']. apply Z.eqb_eq in E, E'.
      exfalso. apply Hs. destruct src; simpl in *; now subst. }
    destruct ((r =? row dst) && (c =? col dst)) eqn:E2; [|reflexivity].
    apply andb_true_iff in E2 as [E E']. apply Z.eqb_eq in E, E'.
    exfalso. apply Hd. destruct dst; simpl in *; now subst.
Qed.

Lemma applyMove_ordinary_witness :
  (wfBoard createInitialBoard /\ onBoard (mkPos 5 2) /\
   cellAt createInitialBoard 7 1 = Some (piece knight white)) /\
  exists res,
    applyMove createInitialBoard (mkPos 7 1) (mkPos 5 2) None = Some res /\
    capturedPiece res = cellAt createInitialBoard 5 2 /\
    isCastling res = false /\ isEnPassant res = false /\
    cellAt (newBoard res) 5 2 = Some (markMoved (piece knight white)) /\
    cellAt (newBoard res) 7 1 = None /\
    forall r c, mkPos r c <> mkPos 7 1 -> mkPos r c <> mkPos 5 2 ->
      cellAt (newBoard res) r c = cellAt createInitialBoard r c.
Proof.
  assert (wfBoard createInitialBoard) as Hwf by concrete_board.
  assert (onBoard (mkPos 5 2)) as Hdst by (unfold onBoard; simpl; lia).
  split; [split; [assumption | split; [assumption | reflexivity]]|].
  apply (applyMove_ordinary createInitialBoard (mkPos 7 1) (mkPos 5 2) None
           (piece knight white) Hwf Hdst eq_refl);
    [discriminate | discriminate | discriminate].
Defined.

(** X7. Castling as applied: for a castling destination offered by
    [getCastlingMoves] to the king on [pos], [applyMove] returns with
    [isCastling] set and nothing captured; the king stands on the
    destination and a rook of its colour beside it on the side of [pos]
    (column 5 or 3), both with [hasMoved] set; the king's square and the
    corner are empty, and no other square has changed. *)
Theorem castling_applied (board : BoardState) pos ep dst kg :
  wfBoard board ->
  cellAt board (row pos) (col pos) = Some kg -> type kg = king ->
  In dst (getCastlingMoves board pos (color kg)) ->
  let corner := if 0 <? col dst - col pos then 7 else 0 in
  let beside := if 0 <? col dst - col pos then 5 else 3 in
  exists res rk,
    applyMove board pos dst ep = Some res /\
    isCastling res = true /\ isEnPassant res = false /\
    isPromotion res = false /\ capturedPiece res = None /\
    cellAt board (row pos) corner = Some rk /\
    type rk = rook /\ color rk = color kg /\
    cellAt (newBoard res) (row dst) (col dst) = Some (markMoved kg) /\
    cellAt (newBoard res) (row pos) beside = Some (markMoved rk) /\
    cellAt (newBoard res) (row pos) (col pos) = None /\
    cellAt (newBoard res) (row pos) corner = None /\
    forall r c,
      r <> row pos \/ (c <> col pos /\ c <> col dst /\
                       c <> corner /\ c <> beside) ->
      cellAt (newBoard res) r c = cellAt board r c.
Proof.
  intros Hwf Hcell Hk Hin.
  apply getCastlingMoves_In in Hin as (_ & Hr & Hc & Hside).
  destruct pos as [pr pc]. cbn [row col] in *. subst pr pc.
  set (R := backRank (color kg)) in *.
  assert (0 <= R <= 7) as HR by (subst R; destruct (color kg); simpl; lia).
  unfold applyMove. rewrite cloneBoard_id. cbn [row col].
  rewrite Hcell, Hk. cbn [typeEq andb].
  destruct Hside as [[-> Hclear]|[-> Hclear]]; cbn [row col].
  - pose proof Hclear as (rk & Hrk & Hty & Hmv & H5 & H6 & _).
    pose proof (kingsideClear_own _ _ _ Hclear Hrk) as Hown.
    change (Z.abs (6 - 4) =? 2) with true. change (0 <? 6 - 4) with true.
    cbv iota zeta. fold R in Hrk, H5, H6. rewrite Hrk.
    exists {| newBoard :=
                setCell
                  (setCell
                     (setCell (setCell board R 5 (Some (markMoved rk)))
                              R 7 None)
                     R 6 (Some (markMoved kg)))
                  R 4 None;
              capturedPiece := cellAt board R 6;
              isPromotion := false; isCastling := true;
              isEnPassant := false |}, rk.
    cbn [newBoard capturedPiece isPromotion isCastling isEnPassant].
    conjs; try reflexivity; try assumption;
      try (cells; eqb_cases; simpl; (reflexivity || lia)).
    intros r c Hrc. cells. eqb_cases; simpl; (reflexivity || lia).
  - pose proof Hclear as (rk & Hrk & Hty & Hmv & H1 & H2 & H3 & _).
    pose proof (queensideClear_own _ _ _ Hclear Hrk) as Hown.
    change (Z.abs (2 - 4) =? 2) with true. change (0 <? 2 - 4) with false.
    cbv iota zeta. fold R in Hrk, H1, H2, H3. rewrite Hrk.
    exists {| newBoard :=
                setCell
                  (setCell
                     (setCell (setCell board R 3 (Some (markMoved rk)))
                              R 0 None)
                     R 2 (Some (markMoved kg)))
                  R 4 None;
              capturedPiece := cellAt board R 2;
              isPromotion := false; isCastling := true;
              isEnPassant := false |}, rk.
    cbn [newBoard capturedPiece isPromotion isCastling isEnPassant].
    conjs; try reflexivity; try assumption;
      try (cells; eqb_cases; simpl; (reflexivity || lia)).
    intros r c Hrc. cells. eqb_cases; simpl; (reflexivity || lia).
Qed.

Lemma castling_applied_witness :
  (wfBoard castlingReady /\
   cellAt castlingReady 7 4 = Some (piece king white) /\
   In (mkPos 7 2) (getCastlingMoves castlingReady (mkPos 7 4) white)) /\
  exists res rk,
    applyMove castlingReady (mkPos 7 4) (mkPos 7 2) None = Some res /\
    isCastling res = true /\ isEnPassant res = false /\
    isPromotion res = false /\ capturedPiece res = None /\
    cellAt castlingReady 7 0 = Some rk /\
    type rk = rook /\ color rk = white /\
    cellAt (newBoard res) 7 2 = Some (markMoved (piece king white)) /\
    cellAt (newBoard res) 7 3 = Some (markMoved rk) /\
    cellAt (newBoard res) 7 4 = None /\
    cellAt (newBoard res) 7 0 = None /\
    forall r c,
      r <> 7 \/ (c <> 4 /\ c <> 2 /\ c <> 0 /\ c <> 3) ->
      cellAt (newBoard res) r c = cellAt castlingReady r c.
Proof.
  assert (wfBoard castlingReady) as Hwf by concrete_board.
  assert (In (mkPos 7 2) (getCastlingMoves castlingReady (mkPos 7 4) white))
    as Hin by (vm_compute; tauto).
  split; [split; [assumption | split; [reflexivity | assumption]]|].
  exact (castling_applied castlingReady (mkPos 7 4) None (mkPos 7 2)
           (piece king white) Hwf eq_refl eq_refl Hin).
Defined.



Lemma getCastlingMoves_NoDup (board : BoardState) pos clr :
  List.NoDup (getCastlingMoves board pos clr).
Proof.
  unfold getCastlingMoves.
  destruct (cellAt board (row pos) (col pos)) as [kg|]; [|constructor].
  destruct (hasMoved kg); [constructor|].
  destruct (_ || _); [constructor|].
  apply List.NoDup_app.
  - destruct (cellAt board _ 7) as [kr|]; [destruct (_ && _)|];
      repeat constructor; intros [].
  - destruct (cellAt board _ 0) as [qr|]; [destruct (_ && _)|];
      repeat constructor; intros [].
  - intros m Hk Hq.
    destruct (cellAt board _ 7) as [kr|]; [destruct (_ && _)|];
      try contradiction.
    destruct (cellAt board _ 0) as [qr|]; [destruct (_ && _)|];
      try contradiction.
    destruct Hk as [<-|[]]. destruct Hq as [E|[]]. inversion E.
Qed.

(** X9. One call of [getLegalMoves] returns no destination twice, provided
    the en-passant target, when there is one, is an empty square. *)
Theorem legal_moves_distinct (board : BoardState) pos ep :
  wfBoard board -> epFree board ep ->
  List.NoDup (getLegalMoves board pos ep).
Proof.
  intros _ Hep. unfold getLegalMoves.
  destruct (cellAt board (row pos) (col pos)) as [pc|] eqn:Hcell;
    [|constructor].
  apply List.NoDup_filter.
  destruct (typeEq (type pc) king) eqn:Hk;
    [|now apply getRawMoves_NoDup].
  apply typeEq_eq in Hk. apply List.NoDup_app.
  - now apply getRawMoves_NoDup.
  - apply getCastlingMoves_NoDup.
  - intros m Hraw Hcastle. unfold getRawMoves in Hraw.
    rewrite Hcell, Hk in Hraw. apply getKingMovesRaw_In in Hraw.
    apply getCastlingMoves_In in Hcastle
      as (_ & _ & Hcol & [[-> _]|[-> _]]); cbn [row col] in Hraw; lia.
Qed.

Lemma legal_moves_distinct_witness :
  (wfBoard castlingReady /\ epFree castlingReady None) /\
  List.NoDup (getLegalMoves castlingReady (mkPos 7 4) None).
Proof.
  assert (wfBoard castlingReady) as Hwf by concrete_board.
  split; [split; [assumption | exact I]|].
  exact (legal_moves_distinct castlingReady (mkPos 7 4) None Hwf I).
Defined.

(** X10. The sliding loop ends within eight iterations: in a unit direction,
    running it with more fuel than eight gives the same list
    ([RawMoveFacts.slide_fuel]); here at a concrete walk. *)
Lemma slide_needs_eight_steps_witness :
  (unitDir 0 1 /\ (8 <= 64)%nat) /\
  slide 64 castlingReady white 7 1 0 1 = slide 8 castlingReady white 7 1 0 1.
Proof.
  assert (unitDir 0 1) as Hd by (unfold unitDir; lia).
  assert (8 <= 64)%nat as Hn by lia.
  split; [split; assumption|].
  exact (slide_fuel castlingReady white 7 1 0 1 64 Hd Hn).
Defined.

End EngineExtra.

(** * Further properties of the move validator *)

Module ValidatorExtra.
Import ChessLogic MoveValidator Notions InitialBoard Positions.
Import BoardFacts RawMoveFacts CheckFacts MoveFacts UniqueFacts.

Lemma validateMove_valid (ctx : MoveContext) :
  isValid (validateMove ctx) = true <->
  exists pc,
    cellAt (board ctx) (row (from ctx)) (col (from ctx)) = Some pc /\
    color pc = currentTurn ctx /\
    In (to ctx) (getLegalMoves (board ctx) (from ctx) (enPassantTarget ctx)).
Proof.
  unfold validateMove.
  destruct (cellAt (board ctx) (row (from ctx)) (col (from ctx))) as [pc|].
  2:{ simpl. split; [discriminate|]. now intros (? & ? & _). }
  destruct (colorEq (color pc) (currentTurn ctx)) eqn:Hc; cbn [negb].
  2:{ simpl. split; [discriminate|]. intros (pc' & [= <-] & E & _).
      apply colorEq_eq in E. congruence. }
  apply colorEq_eq in Hc.
  destruct (existsb _ _) eqn:Hl; cbn [negb isValid].
  - apply existsb_positionsEqual in Hl. split; [|reflexivity].
    intros _. exists pc. auto.
  - split; [discriminate|]. intros (pc' & _ & _ & Hin).
    apply existsb_positionsEqual in Hin. congruence.
Qed.

(** X11. [validateMove] accepts a move exactly when a piece of the side to
    move stands on the source square and the destination is one of its
    legal moves; it gives a reason exactly when it rejects. *)
Theorem validateMove_accepts_legal_moves (ctx : MoveContext) :
  wfBoard (board ctx) ->
  (isValid (validateMove ctx) = true <->
   exists pc,
     cellAt (board ctx) (row (from ctx)) (col (from ctx)) = Some pc /\
     color pc = currentTurn ctx /\
     In (to ctx)
        (getLegalMoves (board ctx) (from ctx) (enPassantTarget ctx))) /\
  (isValid (validateMove ctx) = false <-> reason (validateMove ctx) <> None).
Proof.
  intros _. split; [apply validateMove_valid|].
  unfold validateMove.
  destruct (cellAt _ _ _) as [pc|]; [|simpl; split; congruence].
  destruct (negb (colorEq _ _)); [simpl; split; congruence|].
  destruct (negb (existsb _ _)); simpl; split; congruence.
Qed.

Lemma validateMove_accepts_legal_moves_witness :
  wfBoard createInitialBoard /\
  isValid (validateMove (mkContext createInitialBoard (mkPos 6 4) (mkPos 4 4)
                                   white None)) = true /\
  reason (validateMove (mkContext createInitialBoard (mkPos 6 4) (mkPos 3 4)
                                  white None)) <> None.
Proof.
  assert (wfBoard createInitialBoard) as Hwf by concrete_board.
  split; [assumption|]. split.
  - apply (proj1 (validateMove_accepts_legal_moves
                    (mkContext createInitialBoard (mkPos 6 4) (mkPos 4 4)
                               white None) Hwf)).
    exists (piece pawn white).
    split; [reflexivity|]. split; [reflexivity|]. vm_compute. tauto.
  - apply (proj2 (validateMove_accepts_legal_moves
                    (mkContext createInitialBoard (mkPos 6 4) (mkPos 3 4)
                               white None) Hwf)).
    reflexivity.
Defined.

Lemma validated_move_safe (ctx : MoveContext) :
  wfBoard (board ctx) ->
  isValid (validateMove ctx) = true ->
  exists res,
    applyMove (board ctx) (from ctx) (to ctx) (enPassantTarget ctx)
    = Some res /\
    isInCheck (newBoard res) (currentTurn ctx) = false.
Proof.
  intros Hwf Hv. apply validateMove_valid in Hv as (pc & Hcell & Hcol & Hin).
  apply getLegalMoves_In in Hin as (pc' & Hc' & Hcand & Hsafe).
  rewrite Hcell in Hc'. inversion Hc'; subst pc'. rewrite Hcol in Hsafe.
  destruct Hcand as [Hraw|[Hk Hcastle]].
  - destruct (applyMove_raw _ _ _ (enPassantTarget ctx) _ Hwf Hcell Hraw)
      as (res & Happ & Hboard).
    exists res. rewrite Hboard. auto.
  - rewrite <- Hcol in Hsafe.
    destruct (applyMove_castling _ _ _ _ _ Hwf Hcell Hk Hcastle Hsafe)
      as (res & Happ & Hres).
    exists res. rewrite <- Hcol. auto.
Qed.

(** X12. A move that [validateMove] accepts can be applied: [applyMove]
    returns, and on the new board the side that moved is not in check. *)
Theorem validated_move_applies_safely (ctx : MoveContext) :
  wfBoard (board ctx) ->
  isValid (validateMove ctx) = true ->
  exists res,
    applyMove (board ctx) (from ctx) (to ctx) (enPassantTarget ctx)
    = Some res /\
    isInCheck (newBoard res) (currentTurn ctx) = false.
Proof. apply validated_move_safe. Qed.

Lemma validated_move_applies_safely_witness :
  (wfBoard castlingReady /\
   isValid (validateMove (mkContext castlingReady (mkPos 7 4) (mkPos 7 6)
                                    white None)) = true) /\
  exists res,
    applyMove castlingReady (mkPos 7 4) (mkPos 7 6) None = Some res /\
    isInCheck (newBoard res) white = false.
Proof.
  assert (wfBoard castlingReady) as Hwf by concrete_board.
  assert (isValid (validateMove (mkContext castlingReady (mkPos 7 4)
                                           (mkPos 7 6) white None)) = true)
    as Hv by (vm_compute; reflexivity).
  split; [split; assumption|].
  exact (validated_move_applies_safely
           (mkContext castlingReady (mkPos 7 4) (mkPos 7 6) white None)
           Hwf Hv).
Defined.

(** X13. The two predicates of the validator agree with the flags of
    [applyMove]: whenever [applyMove] returns, [isPromotion] is what
    [isMovePromotion] answers and [isCastling] what [isMovecastling]
    answers on the board before the move. *)
Theorem flags_agree_with_predicates (bd : BoardState) src dst ep res :
  wfBoard bd -> applyMove bd src dst ep = Some res ->
  isPromotion res = isMovePromotion bd src dst /\
  isCastling res = isMovecastling bd src dst.
Proof.
  intros _. unfold applyMove, isMovePromotion, isMovecastling.
  rewrite cloneBoard_id.
  destruct (cellAt bd (row src) (col src)) as [pc|]; [|discriminate].
  cbv zeta.
  destruct (typeEq (type pc) king && (Z.abs (col dst - col src) =? 2))
    eqn:Hc.
  - destruct (cellAt _ _ _) as [rk|]; [|discriminate].
    intros [= <-]. cbn [isPromotion isCastling].
    destruct (typeEq (type pc) pawn), (typeEq (type pc) king);
      simpl in *; auto.
  - intros [= <-]. cbn [isPromotion isCastling].
    destruct (typeEq (type pc) pawn), (typeEq (type pc) king);
      simpl in *; auto.
Qed.

Lemma flags_agree_with_predicates_witness :
  wfBoard castlingReady /\
  exists res,
    applyMove castlingReady (mkPos 7 4) (mkPos 7 6) None = Some res /\
    isPromotion res = isMovePromotion castlingReady (mkPos 7 4) (mkPos 7 6) /\
    isCastling res = isMovecastling castlingReady (mkPos 7 4) (mkPos 7 6).
Proof.
  assert (wfBoard castlingReady) as Hwf by concrete_board.
  split; [assumption|].
  destruct (applyMove castlingReady (mkPos 7 4) (mkPos 7 6) None)
    as [res|] eqn:Hres; [|vm_compute in Hres; discriminate].
  exists res. split; [reflexivity|].
  exact (flags_agree_with_predicates castlingReady (mkPos 7 4) (mkPos 7 6)
           None res Hwf Hres).
Defined.

Lemma getAllLegalMoves_In (bd : BoardState) clr ep src dst :
  In (src, dst) (getAllLegalMoves bd clr ep) <->
  onBoard src /\
  exists pc, cellAt bd (row src) (col src) = Some pc /\ color pc = clr /\
             In dst (getLegalMoves bd src ep).
Proof.
  unfold getAllLegalMoves. rewrite in_flat_map. split.
  - intros (p & Hp & Hin). apply In_squares in Hp.
    destruct (cellAt bd (row p) (col p)) as [pc|] eqn:Hcell; [|contradiction].
    destruct (colorEq (color pc) clr) eqn:Hc; [|contradiction].
    apply colorEq_eq in Hc.
    apply in_map_iff in Hin as (d & [= -> ->] & Hd).
    split; [assumption|]. exists pc. auto.
  - intros (Hsrc & pc & Hcell & Hcol & Hin). exists src.
    split; [now apply In_squares|]. rewrite Hcell.
    apply colorEq_eq in Hcol. rewrite Hcol.
    apply in_map_iff. exists dst. auto.
Qed.

(** X14. [getAllLegalMoves] lists exactly the pairs of a square of the board
    holding a piece of the colour and one of that piece's legal
    destinations; it is empty exactly when [hasAnyLegalMoves] answers no. *)
Theorem getAllLegalMoves_complete (bd : BoardState) clr ep :
  wfBoard bd ->
  (forall src dst,
     In (src, dst) (getAllLegalMoves bd clr ep) <->
     exists pc, cellAt bd (row src) (col src) = Some pc /\ color pc = clr /\
                In dst (getLegalMoves bd src ep)) /\
  (getAllLegalMoves bd clr ep = [] <-> hasAnyLegalMoves bd clr ep = false).
Proof.
  intros Hwf. split.
  - intros src dst. rewrite getAllLegalMoves_In. split.
    + intros (_ & H). exact H.
    + intros (pc & Hcell & H). split; [|eauto].
      apply onBoard_inBounds. eapply cellAt_onBoard; eassumption.
  - rewrite EngineSpec.hasAnyLegalMoves_false. unfold noLegalMove. split.
    + intros Hnil p pc Hp Hcell Hcol.
      destruct (getLegalMoves bd p ep) as [|d l] eqn:Hl; [reflexivity|].
      assert (In (p, d) (getAllLegalMoves bd clr ep)) as Hin.
      { apply getAllLegalMoves_In. split; [assumption|]. exists pc.
        rewrite Hl. split; [assumption|]. split; [assumption|]. now left. }
      rewrite Hnil in Hin. contradiction.
    + intros Hnone.
      destruct (getAllLegalMoves bd clr ep) as [|[src dst] l] eqn:Hl;
        [reflexivity|].
      assert (In (src, dst) (getAllLegalMoves bd clr ep)) as Hin
        by (rewrite Hl; now left).
      apply getAllLegalMoves_In in Hin as (Hsrc & pc & Hcell & Hcol & Hd).
      rewrite (Hnone src pc Hsrc Hcell Hcol) in Hd. contradiction.
Qed.

Lemma getAllLegalMoves_complete_witness :
  wfBoard backRankMate /\
  (getAllLegalMoves backRankMate white None = [] <->
   hasAnyLegalMoves backRankMate white None = false).
Proof.
  assert (wfBoard backRankMate) as Hwf by concrete_board.
  split; [assumption|].
  exact (proj2 (getAllLegalMoves_complete backRankMate white None Hwf)).
Defined.

(** X15. The game is over exactly when the validator accepts nothing: the
    status of the side to move shows checkmate or stalemate if and only if
    [validateMove] rejects every move of that side. *)
Theorem game_over_iff_no_valid_move (bd : BoardState) clr ep :
  wfBoard bd ->
  let st := getGameStatus bd clr ep in
  isCheckmate st || isStalemate st = true <->
  forall src dst, isValid (validateMove (mkContext bd src dst clr ep)) = false.
Proof.
  intros Hwf st.
  assert (isCheckmate st || isStalemate st = true <->
          hasAnyLegalMoves bd clr ep = false) as ->.
  { subst st. unfold getGameStatus. cbn [isCheckmate isStalemate].
    destruct (isInCheck bd clr), (hasAnyLegalMoves bd clr ep); simpl;
      split; congruence. }
  rewrite EngineSpec.hasAnyLegalMoves_false. unfold noLegalMove. split.
  - intros Hnone src dst.
    destruct (isValid _) eqn:Hv; [|reflexivity].
    apply validateMove_valid in Hv as (pc & Hcell & Hcol & Hin).
    cbn [board from to currentTurn enPassantTarget] in *.
    rewrite (Hnone src pc) in Hin; [contradiction| |assumption..].
    apply onBoard_inBounds. eapply cellAt_onBoard; eassumption.
  - intros Hrej p pc Hp Hcell Hcol.
    destruct (getLegalMoves bd p ep) as [|d l] eqn:Hl; [reflexivity|].
    specialize (Hrej p d).
    assert (isValid (validateMove (mkContext bd p d clr ep)) = true) as Hv.
    { apply validateMove_valid. exists pc.
      cbn [board from to currentTurn enPassantTarget]. rewrite Hl.
      split; [assumption|]. split; [assumption|]. now left. }
    congruence.
Qed.

Lemma game_over_iff_no_valid_move_witness :
  wfBoard backRankMate /\
  (isCheckmate (getGameStatus backRankMate white None)
   || isStalemate (getGameStatus backRankMate white None) = true <->
   forall src dst,
     isValid (validateMove (mkContext backRankMate src dst white None))
     = false).
Proof.
  assert (wfBoard backRankMate) as Hwf by concrete_board.
  split; [assumption|].
  exact (game_over_iff_no_valid_move backRankMate white None Hwf).
Defined.

(** The board after a pawn's double step, cell by cell. *)
Lemma double_step_board (bd : BoardState) src dst ep pc :
  wfBoard bd ->
  cellAt bd (row src) (col src) = Some pc -> type pc = pawn ->
  In dst (getRawMoves bd src ep) ->
  Z.abs (row dst - row src) = 2 ->
  let dir := match color pc with white => -1 | black => 1 end in
  dst = mkPos (row src + 2 * dir) (col src) /\
  cellAt bd (row src + dir) (col src) = None /\
  onBoard src /\ onBoard dst /\
  exists res,
    applyMove bd src dst ep = Some res /\
    wfBoard (newBoard res) /\
    forall r c,
      cellAt (newBoard res) r c =
      if (r =? row src) && (c =? col src) then None
      else if (r =? row dst) && (c =? col dst) then Some (markMoved pc)
      else cellAt bd r c.
Proof.
  intros Hwf Hcell Hty Hin Hdiff dir.
  pose proof (cellAt_onBoard _ _ _ _ Hwf Hcell) as Hsrc.
  pose proof (getRawMoves_inBounds _ _ _ _ Hin) as Hdst.
  destruct (applyMove_raw bd src pc ep dst Hwf Hcell Hin)
    as (res & Happ & Hboard).
  unfold getRawMoves in Hin. rewrite Hcell, Hty in Hin.
  apply EngineExtra.getPawnMoves_cases in Hin as (_ & Hcase). fold dir in Hcase.
  assert (dir = -1 \/ dir = 1) as Hdir by (subst dir; destruct (color pc); auto).
  destruct Hcase as [(-> & _) | [(-> & _ & Hfree & _) | (Hr & _)]];
    cbn [row col] in *; [lia| |lia].
  split; [reflexivity|]. split; [assumption|].
  split; [now apply onBoard_inBounds|]. split; [now apply onBoard_inBounds|].
  exists res. split; [assumption|]. rewrite Hboard.
  unfold scratchBoard. rewrite cloneBoard_id, Hty. cbn [typeEq andb row col].
  assert (isInBounds (row src) (col src) = true) as Hsrc' by assumption.
  split.
  - destruct (match ep with Some e => _ | None => false end);
      repeat apply wfBoard_setCell; assumption.
  - intros r c.
    destruct (match ep with Some e => _ | None => false end); cells;
      eqb_cases; simpl; (reflexivity || lia).
Qed.

(** X16. A pawn's double step opens the en-passant window: for a raw pawn
    destination two rows away, [evaluateAfterMove] returns, its new
    en-passant target is the square the pawn skipped, in the pawn's column,
    and that square is empty on the board [applyMove] returns, where the
    pawn stands on its destination. *)
Theorem double_step_opens_en_passant (bd : BoardState) src dst ep pc :
  wfBoard bd ->
  cellAt bd (row src) (col src) = Some pc -> type pc = pawn ->
  In dst (getRawMoves bd src ep) ->
  Z.abs (row dst - row src) = 2 ->
  exists ev res e,
    evaluateAfterMove bd src dst ep = Some ev /\
    applyMove bd src dst ep = Some res /\
    newEnPassantTarget ev = Some e /\
    col e = col src /\ col dst = col src /\
    row e - row src = row dst - row e /\
    cellAt (newBoard res) (row e) (col e) = None /\
    cellAt (newBoard res) (row dst) (col dst) = Some (markMoved pc).
Proof.
  intros Hwf Hcell Hty Hin Hdiff.
  destruct (double_step_board bd src dst ep pc Hwf Hcell Hty Hin Hdiff)
    as (Hdst & Hfree & Hsrc & Hdst' & res & Happ & _ & Hcells).
  set (dir := match color pc with white => -1 | black => 1 end) in *.
  assert (dir = -1 \/ dir = 1) as Hdir by (subst dir; destruct (color pc); auto).
  unfold evaluateAfterMove, computeEnPassantTarget.
  rewrite Happ, Hcell, Hty. cbn [typeEq negb].
  rewrite Hdiff. cbn [Z.eqb Pos.eqb negb].
  eexists. exists res. eexists. split; [reflexivity|].
  split; [reflexivity|]. cbn [newEnPassantTarget].
  split; [reflexivity|]. rewrite Hdst in *. cbn [row col] in *.
  replace (row src + (row src + 2 * dir)) with ((row src + dir) * 2) by lia.
  rewrite Z.div_mul by lia.
  split; [reflexivity|]. split; [reflexivity|]. split; [lia|].
  rewrite !Hcells. split; eqb_cases; simpl; (assumption || reflexivity || lia).
Qed.

Lemma double_step_opens_en_passant_witness :
  (wfBoard createInitialBoard /\
   cellAt createInitialBoard 6 4 = Some (piece pawn white) /\
   In (mkPos 4 4) (getRawMoves createInitialBoard (mkPos 6 4) None)) /\
  exists ev res e,
    evaluateAfterMove createInitialBoard (mkPos 6 4) (mkPos 4 4) None
    = Some ev /\
    applyMove createInitialBoard (mkPos 6 4) (mkPos 4 4) None = Some res /\
    newEnPassantTarget ev = Some e /\
    col e = 4 /\ 4 = 4 /\ row e - 6 = 4 - row e /\
    cellAt (newBoard res) (row e) (col e) = None /\
    cellAt (newBoard res) 4 4 = Some (markMoved (piece pawn white)).
Proof.
  assert (wfBoard createInitialBoard) as Hwf by concrete_board.
  assert (In (mkPos 4 4) (getRawMoves createInitialBoard (mkPos 6 4) None))
    as Hin by (vm_compute; tauto).
  split; [split; [assumption | split; [reflexivity | assumption]]|].
  exact (double_step_opens_en_passant createInitialBoard (mkPos 6 4)
           (mkPos 4 4) None (piece pawn white) Hwf eq_refl eq_refl Hin
           eq_refl).
Defined.

(** X17. The en-passant window: after a pawn's double step, an enemy pawn
    standing beside it has the skipped square among its raw moves when the
    caller passes the computed target, and not when it passes none;
    applying that capture removes the pawn that made the double step from
    its square and puts the capturing pawn on the skipped square. *)
Theorem en_passant_window (bd : BoardState) src dst ep pc q qp res :
  wfBoard bd ->
  cellAt bd (row src) (col src) = Some pc -> type pc = pawn ->
  In dst (getRawMoves bd src ep) ->
  Z.abs (row dst - row src) = 2 ->
  applyMove bd src dst ep = Some res ->
  cellAt bd (row q) (col q) = Some qp -> type qp = pawn ->
  color qp = opponentOf (color pc) ->
  row q = row dst -> Z.abs (col q - col dst) = 1 ->
  exists e,
    computeEnPassantTarget bd src dst = Some e /\
    In e (getRawMoves (newBoard res) q (Some e)) /\
    ~ In e (getRawMoves (newBoard res) q None) /\
    exists res2,
      applyMove (newBoard res) q e (Some e) = Some res2 /\
      isEnPassant res2 = true /\
      capturedPiece res2 = Some (markMoved pc) /\
      cellAt (newBoard res2) (row dst) (col dst) = None /\
      cellAt (newBoard res2) (row e) (col e) = Some (markMoved qp).
Proof.
  intros Hwf Hcell Hty Hin Hdiff Happ Hq Hqty Hqcol Hqrow Hqbeside.
  destruct (double_step_board bd src dst ep pc Hwf Hcell Hty Hin Hdiff)
    as (Hdst & Hfree & Hsrc & Hdst' & res' & Happ' & Hwf' & Hcells).
  rewrite Happ in Happ'. inversion Happ'; subst res'. clear Happ'.
  set (dir := match color pc with white => -1 | black => 1 end) in *.
  assert (dir = -1 \/ dir = 1) as Hdir by (subst dir; destruct (color pc); auto).
  assert (match color qp with white => -1 | black => 1 end = - dir) as Hqdir.
  { rewrite Hqcol. subst dir. now destruct (color pc). }
  pose proof (cellAt_onBoard _ _ _ _ Hwf Hq) as Hqin.
  apply isInBounds_spec in Hqin.
  unfold onBoard in Hsrc, Hdst'. rewrite Hdst in *. cbn [row col] in *.
  exists (mkPos (row src + dir) (col src)).
  assert (Hq' : cellAt (newBoard res) (row q) (col q) = Some qp).
  { rewrite Hcells. eqb_cases; simpl; (assumption || lia). }
  assert (He' : cellAt (newBoard res) (row src + dir) (col src) = None).
  { rewrite Hcells. eqb_cases; simpl; (assumption || reflexivity || lia). }
  split.
  { unfold computeEnPassantTarget. rewrite Hcell, Hty. cbn [typeEq negb].
    cbn [row col]. rewrite Hdiff. cbn [Z.eqb Pos.eqb negb].
    replace (row src + (row src + 2 * dir)) with ((row src + dir) * 2) by lia.
    now rewrite Z.div_mul by lia. }
  split; [|split].
  - unfold getRawMoves. rewrite Hq', Hqty.
    apply EngineExtra.getPawnMoves_cases. rewrite Hqdir. cbn [row col].
    split; [apply isInBounds_spec; lia|]. right. right.
    split; [lia|]. split; [lia|]. now right.
  - unfold getRawMoves. rewrite Hq', Hqty. intros Hno.
    apply EngineExtra.getPawnMoves_cases in Hno as (_ & Hcase).
    rewrite Hqdir in Hcase. cbn [row col] in Hcase.
    destruct Hcase as [(E & _) | [(E & _) | (_ & _ & [(t & Ht & _) | E])]];
      try discriminate; try (inversion E; lia).
    congruence.
  - unfold applyMove. rewrite cloneBoard_id, Hq', Hqty.
    cbn [typeEq andb row col]. rewrite positionsEqual_refl.
    eexists. split; [reflexivity|].
    cbn [isEnPassant capturedPiece newBoard].
    split; [reflexivity|].
    split; [rewrite Hcells; eqb_cases; simpl; (reflexivity || lia)|].
    split; cells; eqb_cases; simpl; (reflexivity || lia).
Qed.

Lemma en_passant_window_witness :
  (wfBoard enPassantSetup /\
   In (mkPos 4 4) (getRawMoves enPassantSetup (mkPos 6 4) None) /\
   cellAt enPassantSetup 4 3 = Some (mkPiece pawn black true)) /\
  exists res,
    applyMove enPassantSetup (mkPos 6 4) (mkPos 4 4) None = Some res /\
    exists e,
      computeEnPassantTarget enPassantSetup (mkPos 6 4) (mkPos 4 4) = Some e /\
      In e (getRawMoves (newBoard res) (mkPos 4 3) (Some e)) /\
      ~ In e (getRawMoves (newBoard res) (mkPos 4 3) None) /\
      exists res2,
        applyMove (newBoard res) (mkPos 4 3) e (Some e) = Some res2 /\
        isEnPassant res2 = true /\
        capturedPiece res2 = Some (markMoved (piece pawn white)) /\
        cellAt (newBoard res2) 4 4 = None /\
        cellAt (newBoard res2) (row e) (col e)
        = Some (markMoved (mkPiece pawn black true)).
Proof.
  assert (wfBoard enPassantSetup) as Hwf by concrete_board.
  assert (In (mkPos 4 4) (getRawMoves enPassantSetup (mkPos 6 4) None))
    as Hin by (vm_compute; tauto).
  split; [split; [assumption | split; [assumption | reflexivity]]|].
  destruct (applyMove enPassantSetup (mkPos 6 4) (mkPos 4 4) None)
    as [res|] eqn:Hres; [|vm_compute in Hres; discriminate].
  exists res. split; [reflexivity|].
  exact (en_passant_window enPassantSetup (mkPos 6 4) (mkPos 4 4) None
           (piece pawn white) (mkPos 4 3) (mkPiece pawn black true) res
           Hwf eq_refl eq_refl Hin eq_refl Hres eq_refl eq_refl eq_refl
           eq_refl eq_refl).
Defined.

End ValidatorExtra.

(** * Properties of the provider's actions *)

Module SessionExtra.
Import ChessLogic Notions InitialBoard Positions.
Import BoardFacts RawMoveFacts CheckFacts MoveFacts.
Import GameContext GameSession.

Lemma toAlgebraic_table :
  forallb
    (fun a =>
       forallb
         (fun b =>
            implb (String.eqb (toAlgebraic a) (toAlgebraic b))
                  (positionsEqual a b))
         squares)
    squares = true.
Proof. vm_compute. reflexivity. Qed.

(** X18. The notation of a square identifies it: two squares of the board
    with the same [toAlgebraic] text are the same square. *)
Theorem toAlgebraic_injective (a b : Position) :
  onBoard a -> onBoard b -> toAlgebraic a = toAlgebraic b -> a = b.
Proof.
  intros Ha Hb Heq. apply In_squares in Ha, Hb.
  pose proof toAlgebraic_table as H.
  rewrite forallb_forall in H. specialize (H a Ha).
  rewrite forallb_forall in H. specialize (H b Hb).
  apply String.eqb_eq in Heq. rewrite Heq in H. simpl in H.
  now apply positionsEqual_eq.
Qed.

Lemma toAlgebraic_injective_witness :
  (onBoard (mkPos 6 4) /\ onBoard (mkPos 6 4) /\
   toAlgebraic (mkPos 6 4) = "e2"%string) /\
  mkPos 6 4 = mkPos 6 4.
Proof.
  assert (onBoard (mkPos 6 4)) as H by (unfold onBoard; simpl; lia).
  split; [split; [assumption | split; [assumption | reflexivity]]|].
  exact (toAlgebraic_injective (mkPos 6 4) (mkPos 6 4) H H eq_refl).
Defined.

(** X19. [selectSquare] changes the board only by a validated move: either
    the board and the move history stay as they were, or a square was
    selected, [validateMove] accepted the move from it to the clicked
    square for the side to move, the new board is the one [applyMove]
    returns, on which that side is not in check, and the history gained the
    notation of that one move. *)
Theorem selectSquare_moves_are_validated (s : Session) (pos : Position) :
  wfBoard (board (gameState (provider s))) ->
  let g := gameState (provider s) in
  let s' := selectSquare s pos in
  (board (gameState (provider s')) = board g /\
   moveHistory s' = moveHistory s) \/
  exists sel res,
    selectedSquare g = Some sel /\
    MoveValidator.isValid
      (MoveValidator.validateMove
         (MoveValidator.mkContext (board g) sel pos (currentTurn g)
            (enPassantTarget g))) = true /\
    applyMove (board g) sel pos (enPassantTarget g) = Some res /\
    board (gameState (provider s')) = newBoard res /\
    isInCheck (newBoard res) (currentTurn g) = false /\
    moveHistory s' =
    moveHistory s
    ++ [String.append (toAlgebraic sel)
          (String.append "-"%string (toAlgebraic pos))].
Proof.
  intros Hwf g s'. subst s'. unfold selectSquare. fold g.
  destruct (isGameOver (provider s)); [left; auto|].
  destruct (selectedSquare g) as [sel|] eqn:Hsel.
  2:{ left. destruct (match cellAt _ _ _ with Some _ => _ | None => _ end);
        auto. }
  destruct (existsb _ (validMoves g)).
  2:{ left. destruct (match cellAt _ _ _ with Some _ => _ | None => _ end);
        auto. }
  destruct (MoveValidator.isValid _) eqn:Hv; cbn [negb]; [|left; auto].
  destruct (ValidatorExtra.validated_move_safe
              (MoveValidator.mkContext (board g) sel pos (currentTurn g)
                 (enPassantTarget g)) Hwf Hv) as (res & Happ & Hsafe).
  cbn [MoveValidator.board MoveValidator.from MoveValidator.to
       MoveValidator.currentTurn MoveValidator.enPassantTarget] in *.
  rewrite Happ. right. exists sel, res.
  split; [reflexivity|]. split; [assumption|].
  split; [first [assumption | reflexivity]|].
  destruct (isPromotion res); cbn [provider gameState board moveHistory];
    auto.
Qed.

Lemma selectSquare_moves_are_validated_witness :
  wfBoard (board (gameState (provider initialSession))) /\
  let s := selectSquare initialSession (mkPos 6 4) in
  let g := gameState (provider s) in
  let s' := selectSquare s (mkPos 4 4) in
  (board (gameState (provider s')) = board g /\
   moveHistory s' = moveHistory s) \/
  exists sel res,
    selectedSquare g = Some sel /\
    MoveValidator.isValid
      (MoveValidator.validateMove
         (MoveValidator.mkContext (board g) sel (mkPos 4 4) (currentTurn g)
            (enPassantTarget g))) = true /\
    applyMove (board g) sel (mkPos 4 4) (enPassantTarget g) = Some res /\
    board (gameState (provider s')) = newBoard res /\
    isInCheck (newBoard res) (currentTurn g) = false /\
    moveHistory s' =
    moveHistory s
    ++ [String.append (toAlgebraic sel)
          (String.append "-"%string (toAlgebraic (mkPos 4 4)))].
Proof.
  assert (wfBoard (board (gameState (provider initialSession)))) as Hwf
    by concrete_board.
  split; [assumption|].
  assert (wfBoard (board (gameState
            (provider (selectSquare initialSession (mkPos 6 4)))))) as Hwf'
    by concrete_board.
  exact (selectSquare_moves_are_validated
           (selectSquare initialSession (mkPos 6 4)) (mkPos 4 4) Hwf').
Defined.

Lemma captured_sorted (caps : list ChessPiece) (cp : option ChessPiece) :
  Forall (fun p => color p = white) caps ->
  Forall (fun p => color p = white)
    (match cp with
     | Some c => if colorEq (color c) white then caps ++ [c] else caps
     | None => caps
     end).
Proof.
  intros H. destruct cp as [c|]; [|assumption].
  destruct (colorEq (color c) white) eqn:E; [|assumption].
  apply colorEq_eq in E. apply Forall_app. split; [assumption|].
  now constructor.
Qed.

Lemma captured_sorted_black (caps : list ChessPiece) (cp : option ChessPiece) :
  Forall (fun p => color p = black) caps ->
  Forall (fun p => color p = black)
    (match cp with
     | Some c => if colorEq (color c) white then caps else caps ++ [c]
     | None => caps
     end).
Proof.
  intros H. destruct cp as [c|]; [|assumption].
  destruct (colorEq (color c) white) eqn:E; [assumption|].
  apply Forall_app. split; [assumption|]. constructor; [|constructor].
  destruct (color c); [discriminate|reflexivity].
Qed.

Lemma selectSquare_sound (s : Session) (pos : Position) :
  onBoard pos -> sound s -> sound (selectSquare s pos).
Proof.
  intros Hpos Hs. pose proof Hs as (Hwf & Hflags & Hw & Hb).
  unfold selectSquare.
  destruct (isGameOver (provider s)) eqn:Hover; [assumption|].
  set (g := gameState (provider s)) in *.
  assert (Hsel : forall sel moves, sound (setGame s (withSelection g sel moves))).
  { intros sel moves. unfold sound. cbn. auto. }
  destruct (selectedSquare g) as [sel|].
  2:{ destruct (match cellAt _ _ _ with Some _ => _ | None => _ end); auto. }
  destruct (existsb _ (validMoves g)).
  2:{ destruct (match cellAt _ _ _ with Some _ => _ | None => _ end); auto. }
  destruct (negb _); [auto|].
  destruct (applyMove (board g) sel pos (enPassantTarget g)) as [res|] eqn:Happ;
    [|assumption].
  pose proof (proj1 (EngineExtra.applyMove_wfBoard _ _ _ _ _ Hwf Hpos Happ))
    as Hwf'.
  destruct (isPromotion res); unfold sound;
    cbn [provider gameState board isCheckmate isStalemate isGameOver
         capturedWhite capturedBlack].
  - split; [assumption|]. split; [assumption|].
    split; [now apply captured_sorted|now apply captured_sorted_black].
  - split; [assumption|]. split.
    + unfold getGameStatus.
      cbn [ChessLogic.isCheckmate ChessLogic.isStalemate].
      destruct (isInCheck _ _), (hasAnyLegalMoves _ _ _); simpl; auto;
        try discriminate.
    + split; [now apply captured_sorted|now apply captured_sorted_black].
Qed.

Lemma promote_sound (s : Session) (kind : PieceType) :
  sound s -> sound (promote s kind).
Proof.
  intros (Hwf & Hflags & Hw & Hb). unfold promote, promotePawn.
  destruct (promotionPending (provider s)) as [pend|];
    [|unfold sound; cbn; auto].
  unfold sound.
  cbn [provider gameState board isCheckmate isStalemate isGameOver
       capturedWhite capturedBlack].
  split; [rewrite cloneBoard_id; now apply wfBoard_setCell|].
  split; [|auto].
  unfold getGameStatus. cbn [ChessLogic.isCheckmate ChessLogic.isStalemate].
  destruct (isInCheck _ _), (hasAnyLegalMoves _ _ _); simpl; auto;
    discriminate.
Qed.

Lemma initialSession_sound : sound initialSession.
Proof.
  unfold sound, initialSession, createInitialGameState.
  cbn [provider gameState board isCheckmate isStalemate isGameOver
       capturedWhite capturedBlack].
  split; [concrete_board|]. split; [discriminate|]. split; constructor.
Qed.

Lemma reachable_is_sound (s : Session) : reachable s -> sound s.
Proof.
  induction 1
    as [|s pos _ IH Hpos|s kind _ IH|s _ _|s clr _ IH|s w b _ IH].
  - apply initialSession_sound.
  - now apply selectSquare_sound.
  - now apply promote_sound.
  - apply initialSession_sound.
  - destruct IH as (Hwf & _ & Hw & Hb). unfold sound, handleTimeout.
    cbn [provider gameState isGameOver]. auto.
  - exact IH.
Qed.

(** X20. Every session the provider can reach is sound: the board has
    eight rows of eight cells, a position flagged checkmate or stalemate is
    a finished game, and the two lists of captured pieces hold white and
    black pieces respectively. *)
Theorem reachable_sessions_are_sound (s : Session) : reachable s -> sound s.
Proof. apply reachable_is_sound. Qed.

Lemma reachable_sessions_are_sound_witness :
  reachable (selectSquare (selectSquare initialSession (mkPos 6 4))
               (mkPos 4 4)) /\
  sound (selectSquare (selectSquare initialSession (mkPos 6 4)) (mkPos 4 4)).
Proof.
  assert (reachable (selectSquare (selectSquare initialSession (mkPos 6 4))
                       (mkPos 4 4))) as Hr.
  { apply reach_select; [apply reach_select; [apply reach_initial|]|];
      unfold onBoard; simpl; lia. }
  split; [assumption|].
  exact (reachable_sessions_are_sound _ Hr).
Defined.

(** X21. A finished game stays as it is: in a reachable session flagged
    checkmate or stalemate, and in any session after [handleTimeout],
    [selectSquare] changes nothing. *)
Theorem finished_game_is_frozen (s : Session) (pos : Position) :
  reachable s ->
  (isCheckmate (gameState (provider s))
   || isStalemate (gameState (provider s)) = true ->
   selectSquare s pos = s) /\
  (forall clr, selectSquare (handleTimeout s clr) pos = handleTimeout s clr).
Proof.
  intros Hr. split.
  - intros Hflag. apply reachable_is_sound in Hr as (_ & Hover & _).
    unfold selectSquare. now rewrite (Hover Hflag).
  - intros clr. reflexivity.
Qed.

Lemma finished_game_is_frozen_witness :
  reachable (handleTimeout initialSession white) /\
  (forall clr,
     selectSquare (handleTimeout (handleTimeout initialSession white) clr)
       (mkPos 6 4)
     = handleTimeout (handleTimeout initialSession white) clr).
Proof.
  assert (reachable (handleTimeout initialSession white)) as Hr
    by (apply reach_timeout, reach_initial).
  split; [assumption|].
  exact (proj2 (finished_game_is_frozen (handleTimeout initialSession white)
                  (mkPos 6 4) Hr)).
Defined.

(** X22. The promotion flow: when [selectSquare] applies a validated move
    that [applyMove] flags as a promotion, the promotion becomes pending on
    the clicked square for the side that moved and the turn does not pass;
    [promotePawn] with any kind then puts a piece of that kind and colour
    on the square, passes the turn, and clears the pending promotion and
    the en-passant target. *)
Theorem promotion_flow (s : Session) (pos sel : Position) res kind :
  let g := gameState (provider s) in
  wfBoard (board g) -> onBoard pos ->
  isGameOver (provider s) = false ->
  selectedSquare g = Some sel ->
  In pos (validMoves g) ->
  MoveValidator.isValid
    (MoveValidator.validateMove
       (MoveValidator.mkContext (board g) sel pos (currentTurn g)
          (enPassantTarget g))) = true ->
  applyMove (board g) sel pos (enPassantTarget g) = Some res ->
  isPromotion res = true ->
  let s1 := selectSquare s pos in
  let s2 := promote s1 kind in
  promotionPending (provider s1)
  = Some {| position := pos; pendingColor := currentTurn g;
            pendingFrom := sel |} /\
  currentTurn (gameState (provider s1)) = currentTurn g /\
  board (gameState (provider s1)) = newBoard res /\
  cellAt (board (gameState (provider s2))) (row pos) (col pos)
  = Some {| type := kind; color := currentTurn g; hasMoved := true |} /\
  currentTurn (gameState (provider s2)) = opponentOf (currentTurn g) /\
  promotionPending (provider s2) = None /\
  enPassantTarget (gameState (provider s2)) = None.
Proof.
  intros g Hwf Hpos Hover Hsel Hin Hv Happ Hprom s1 s2.
  assert (Hs1 : s1 =
    {| provider :=
         {| gameState :=
              {| board := newBoard res;
                 currentTurn := currentTurn g;
                 selectedSquare := None;
                 validMoves := [];
                 isCheck := isCheck g;
                 isCheckmate := isCheckmate g;
                 isStalemate := isStalemate g;
                 enPassantTarget := enPassantTarget g;
                 capturedWhite :=
                   match capturedPiece res with
                   | Some cp =>
                       if colorEq (color cp) white
                       then capturedWhite g ++ [cp] else capturedWhite g
                   | None => capturedWhite g
                   end;
                 capturedBlack :=
                   match capturedPiece res with
                   | Some cp =>
                       if colorEq (color cp) white
                       then capturedBlack g else capturedBlack g ++ [cp]
                   | None => capturedBlack g
                   end |};
            promotionPending :=
              Some {| position := pos; pendingColor := currentTurn g;
                      pendingFrom := sel |};
            isGameOver := isGameOver (provider s);
            winner := winner (provider s) |};
       moveHistory :=
         moveHistory s
         ++ [String.append (toAlgebraic sel)
               (String.append "-"%string (toAlgebraic pos))];
       whiteTime := whiteTime s;
       blackTime := blackTime s |}).
  { subst s1. unfold selectSquare. fold g. rewrite Hover, Hsel.
    assert (existsb
              (fun m => (row m =? row pos) && (col m =? col pos))
              (validMoves g) = true) as ->.
    { apply existsb_exists. exists pos. split; [assumption|].
      now rewrite !Z.eqb_refl. }
    rewrite Hv. cbn [negb]. rewrite Happ, Hprom. reflexivity. }
  subst s2. rewrite Hs1. unfold promote, promotePawn.
  cbn [provider gameState board promotionPending enPassantTarget currentTurn
       position pendingColor].
  conjs; try reflexivity.
  rewrite cloneBoard_id, cellAt_setCell.
  - now rewrite !Z.eqb_refl.
  - exact (proj1 (EngineExtra.applyMove_wfBoard _ _ _ _ _ Hwf Hpos Happ)).
  - now apply onBoard_inBounds.
Qed.

Lemma promotion_flow_witness :
  (wfBoard (board (gameState (provider promotionReady))) /\
   onBoard (mkPos 0 0) /\
   In (mkPos 0 0) (validMoves (gameState (provider promotionReady)))) /\
  cellAt (board (gameState
           (provider (promote (selectSquare promotionReady (mkPos 0 0))
                              queen)))) 0 0
  = Some {| type := queen; color := white; hasMoved := true |}.
Proof.
  assert (wfBoard (board (gameState (provider promotionReady)))) as Hwf
    by concrete_board.
  assert (onBoard (mkPos 0 0)) as Hpos by (unfold onBoard; simpl; lia).
  assert (In (mkPos 0 0) (validMoves (gameState (provider promotionReady))))
    as Hin by (vm_compute; tauto).
  split; [split; [assumption | split; assumption]|].
  destruct (applyMove (board (gameState (provider promotionReady)))
              (mkPos 1 0) (mkPos 0 0) None) as [res|] eqn:Hres;
    [|vm_compute in Hres; discriminate].
  assert (isPromotion res = true) as Hprom.
  { vm_compute in Hres. inversion Hres. reflexivity. }
  assert (MoveValidator.isValid
            (MoveValidator.validateMove
               (MoveValidator.mkContext
                  (board (gameState (provider promotionReady)))
                  (mkPos 1 0) (mkPos 0 0) white None)) = true) as Hv
    by (vm_compute; reflexivity).
  exact (proj1 (proj2 (proj2 (proj2
           (promotion_flow promotionReady (mkPos 0 0) (mkPos 1 0) res queen
              Hwf Hpos eq_refl eq_refl Hin Hv Hres Hprom))))).
Defined.

(** X23. Promotion cannot be completed twice: a second [promotePawn] after
    the first changes nothing. *)
Theorem promote_once (s : Session) (kind kind' : PieceType) :
  promote (promote s kind) kind' = promote s kind.
Proof.
  unfold promote, promotePawn.
  cbn [provider moveHistory whiteTime blackTime].
  destruct (promotionPending (provider s)) as [pend|] eqn:Hp.
  - reflexivity.
  - now rewrite Hp.
Qed.

(** X24. The highlighted moves are kept fresh by [selectSquare]: if the
    valid moves shown are the legal moves of the selected square (none when
    nothing is selected), the same holds after [selectSquare]. *)
Theorem selectSquare_keeps_selection_fresh (s : Session) (pos : Position) :
  selectionFresh (gameState (provider s)) ->
  selectionFresh (gameState (provider (selectSquare s pos))).
Proof.
  intros Hfresh. unfold selectSquare.
  destruct (isGameOver (provider s)); [assumption|].
  set (g := gameState (provider s)) in *.
  destruct (selectedSquare g) as [sel|] eqn:Hsel.
  - destruct (existsb _ (validMoves g)).
    + destruct (negb _); [reflexivity|].
      destruct (applyMove _ _ _ _) as [res|]; [|assumption].
      destruct (isPromotion res); reflexivity.
    + destruct (match cellAt _ _ _ with Some _ => _ | None => _ end);
        reflexivity.
  - destruct (match cellAt _ _ _ with Some _ => _ | None => _ end);
      [reflexivity|assumption].
Qed.

Lemma selectSquare_keeps_selection_fresh_witness :
  selectionFresh (gameState (provider initialSession)) /\
  selectionFresh
    (gameState (provider (selectSquare initialSession (mkPos 6 4)))).
Proof.
  assert (selectionFresh (gameState (provider initialSession))) as H
    by reflexivity.
  split; [assumption|].
  exact (selectSquare_keeps_selection_fresh initialSession (mkPos 6 4) H).
Defined.

(** X25. [selectSquare] does not consult the pending promotion: the game
    state it produces is the same whether or not a promotion is pending, so
    a pending promotion does not keep a further move from being applied. *)
Theorem selectSquare_ignores_pending (s : Session) (pos : Position) :
  gameState (provider (selectSquare s pos))
  = gameState (provider (selectSquare (clearPending s) pos)).
Proof.
  unfold selectSquare, clearPending.
  cbn [provider gameState isGameOver moveHistory].
  destruct (isGameOver (provider s)); [reflexivity|].
  destruct (selectedSquare _) as [sel|].
  - destruct (existsb _ _).
    + destruct (negb _); [reflexivity|].
      destruct (applyMove _ _ _ _) as [res|]; [|reflexivity].
      destruct (isPromotion res); reflexivity.
    + destruct (match cellAt _ _ _ with Some _ => _ | None => _ end);
        reflexivity.
  - destruct (match cellAt _ _ _ with Some _ => _ | None => _ end);
      reflexivity.
Qed.

End SessionExtra.

(** * Properties of the hooks and components *)

Module DisplayExtra.
Import ChessLogic BoardFacts.
Import GameContext GameSession GameLogic Timer.

Lemma list_pair_ind {A : Type} (P : list A -> Prop) :
  P [] -> (forall x, P [x]) -> (forall x y l, P l -> P (x :: y :: l)) ->
  forall l, P l.
Proof.
  intros H0 H1 H2 l.
  enough (P l /\ forall x, P (x :: l)) by tauto.
  induction l as [|y l [IHl IHx]]; [auto|].
  split; [apply IHx|]. intros x. now apply H2.
Qed.

(** X26. The move history is paired without loss: the pairs shown by
    [MoveHistory] list the moves again in order, there is one pair for
    every two moves (rounded up), and only the last pair can lack a black
    move. *)
Theorem pairMoves_keeps_moves (moves : list string) :
  shownMoves (pairMoves moves) = moves /\
  length (pairMoves moves) = Nat.div2 (S (length moves)) /\
  (forall before w after,
     pairMoves moves = before ++ (w, None) :: after -> after = []).
Proof.
  induction moves as [|w|w b rest (IH1 & IH2 & IH3)] using list_pair_ind.
  - split; [reflexivity|]. split; [reflexivity|].
    intros [|? ?] w after H; discriminate.
  - split; [reflexivity|]. split; [reflexivity|].
    intros [|? [|? ?]] w' after H; simpl in H; inversion H; reflexivity.
  - split; [|split].
    + cbn [pairMoves]. unfold shownMoves in *. cbn [flat_map fst snd app].
      now rewrite IH1.
    + cbn [pairMoves length]. rewrite IH2. reflexivity.
    + intros [|pr before] w' after H; cbn [pairMoves] in H; simpl in H;
        inversion H. eapply IH3. eassumption.
Qed.

Lemma fold_score (caps : list ChessPiece) (start : Z) :
  fold_left (fun score p => score + PIECE_VALUES (type p)) caps start
  = start + fold_left (fun score p => score + PIECE_VALUES (type p)) caps 0.
Proof.
  revert start. induction caps as [|p caps IH]; intros start;
    cbn [fold_left]; [lia|].
  rewrite (IH (start + _)), (IH (0 + _)). lia.
Qed.

Lemma score_nonneg (caps : list ChessPiece) :
  0 <= fold_left (fun score p => score + PIECE_VALUES (type p)) caps 0.
Proof.
  induction caps as [|p caps IH]; cbn [fold_left]; [lia|].
  rewrite fold_score. destruct (type p); simpl; lia.
Qed.

(** X27. Material is counted capture by capture: the scores are never
    negative, a newly captured black piece adds its value to white's score
    and leaves black's untouched, [diff] is the distance between the scores
    and [advantage] names the side with the larger one, and exchanging the
    two lists exchanges the scores and keeps [diff]. *)
Theorem material_advantage_counts (capsWhite capsBlack : list ChessPiece)
    (p : ChessPiece) :
  let m := getMaterialAdvantage capsWhite capsBlack in
  let m' := getMaterialAdvantage capsWhite (capsBlack ++ [p]) in
  let swapped := getMaterialAdvantage capsBlack capsWhite in
  0 <= whiteScore m /\ 0 <= blackScore m /\
  whiteScore m' = whiteScore m + PIECE_VALUES (type p) /\
  blackScore m' = blackScore m /\
  diff m = Z.abs (whiteScore m - blackScore m) /\
  (advantage m = Some white <-> blackScore m < whiteScore m) /\
  (advantage m = Some black <-> whiteScore m < blackScore m) /\
  (advantage m = None <-> whiteScore m = blackScore m) /\
  whiteScore swapped = blackScore m /\ blackScore swapped = whiteScore m /\
  diff swapped = diff m.
Proof.
  unfold getMaterialAdvantage.
  cbn [whiteScore blackScore advantage diff].
  set (w := fold_left _ capsBlack 0). set (b := fold_left _ capsWhite 0).
  conjs; try reflexivity; try apply score_nonneg.
  - rewrite fold_left_app. simpl. reflexivity.
  - destruct (0 <? w - b) eqn:E1; [apply Z.ltb_lt in E1; split; [lia|auto]|].
    apply Z.ltb_ge in E1. destruct (w - b <? 0); split; (discriminate || lia).
  - destruct (0 <? w - b) eqn:E1;
      [apply Z.ltb_lt in E1; split; [discriminate|lia]|].
    apply Z.ltb_ge in E1. destruct (w - b <? 0) eqn:E2;
      [apply Z.ltb_lt in E2|apply Z.ltb_ge in E2]; split;
      (discriminate || lia || auto).
  - destruct (0 <? w - b) eqn:E1;
      [apply Z.ltb_lt in E1; split; [discriminate|lia]|].
    apply Z.ltb_ge in E1. destruct (w - b <? 0) eqn:E2;
      [apply Z.ltb_lt in E2|apply Z.ltb_ge in E2]; split;
      (discriminate || lia || auto).
  - lia.
Qed.

Lemma clock_table :
  forallb
    (fun n =>
       match readClock (formatTime n) with
       | Some v => (v =? n) && (String.length (formatTime n) =? 5)%nat
       | None => false
       end)
    (map Z.of_nat (seq 0 (Z.to_nat 6000))) = true.
Proof. vm_compute. reflexivity. Qed.

Lemma clock_read (n : Z) :
  0 <= n < 6000 ->
  readClock (formatTime n) = Some n /\ String.length (formatTime n) = 5%nat.
Proof.
  intros Hn. pose proof clock_table as H. rewrite forallb_forall in H.
  specialize (H n).
  assert (In n (map Z.of_nat (seq 0 (Z.to_nat 6000)))) as Hin.
  { apply in_map_iff. exists (Z.to_nat n). split; [lia|].
    apply in_seq. lia. }
  specialize (H Hin).
  destruct (readClock (formatTime n)) as [v|]; [|discriminate].
  apply andb_true_iff in H as [Hv Hl].
  apply Z.eqb_eq in Hv. apply Nat.eqb_eq in Hl. now subst.
Qed.

(** X28. The clock text is unambiguous: for times from 0 seconds up to 99
    minutes 59 seconds, [formatTime] gives five characters, and two such
    times with the same text are the same time. *)
Theorem formatTime_injective (a b : Z) :
  0 <= a < 6000 -> 0 <= b < 6000 ->
  String.length (formatTime a) = 5%nat /\
  (formatTime a = formatTime b -> a = b).
Proof.
  intros Ha Hb. destruct (clock_read a Ha) as [Hra Hla].
  destruct (clock_read b Hb) as [Hrb _].
  split; [assumption|]. intros E. rewrite E in Hra. congruence.
Qed.

Lemma formatTime_injective_witness :
  (0 <= 600 < 6000 /\ 0 <= 599 < 6000) /\
  String.length (formatTime 600) = 5%nat /\
  (formatTime 600 = formatTime 599 -> 600 = 599).
Proof.
  assert (0 <= 600 < 6000) as Ha by lia.
  assert (0 <= 599 < 6000) as Hb by lia.
  split; [split; assumption|].
  exact (formatTime_injective 600 599 Ha Hb).
Defined.

Lemma tick_running (s : Session) :
  let g := gameState (provider s) in
  isGameOver (provider s) = false -> isCheckmate g = false ->
  isStalemate g = false -> 1 < clock (currentTurn g) s ->
  let s' := tick s in
  provider s' = provider s /\
  clock (currentTurn g) s' = clock (currentTurn g) s - 1 /\
  clock (opponentOf (currentTurn g)) s' = clock (opponentOf (currentTurn g)) s.
Proof.
  intros g Hover Hmate Hstale Hclock. unfold tick. fold g.
  rewrite Hover, Hmate, Hstale. cbn [orb].
  unfold clock in *. destruct (currentTurn g); cbn [opponentOf] in *.
  - replace (whiteTime s <=? 1) with false by (symmetry; apply Z.leb_gt; lia).
    cbn. auto.
  - replace (blackTime s <=? 1) with false by (symmetry; apply Z.leb_gt; lia).
    cbn. auto.
Qed.

Lemma tick_last (s : Session) :
  let g := gameState (provider s) in
  isGameOver (provider s) = false -> isCheckmate g = false ->
  isStalemate g = false -> clock (currentTurn g) s <= 1 ->
  let s' := tick s in
  gameState (provider s') = g /\
  isGameOver (provider s') = true /\
  winner (provider s') = Some (opponentOf (currentTurn g)) /\
  clock (currentTurn g) s' = 0 /\
  clock (opponentOf (currentTurn g)) s' = clock (opponentOf (currentTurn g)) s.
Proof.
  intros g Hover Hmate Hstale Hclock. unfold tick. fold g.
  rewrite Hover, Hmate, Hstale. cbn [orb].
  unfold clock in *. destruct (currentTurn g); cbn [opponentOf] in *.
  - replace (whiteTime s <=? 1) with true by (symmetry; apply Z.leb_le; lia).
    cbn. auto.
  - replace (blackTime s <=? 1) with true by (symmetry; apply Z.leb_le; lia).
    cbn. auto.
Qed.

Lemma countdown (s : Session) (n k : nat) :
  let g := gameState (provider s) in
  isGameOver (provider s) = false -> isCheckmate g = false ->
  isStalemate g = false -> clock (currentTurn g) s = Z.of_nat (S n) ->
  (k <= n)%nat ->
  let sk := Nat.iter k tick s in
  provider sk = provider s /\
  clock (currentTurn g) sk = Z.of_nat (S n) - Z.of_nat k /\
  clock (opponentOf (currentTurn g)) sk = clock (opponentOf (currentTurn g)) s.
Proof.
  intros g Hover Hmate Hstale Hclock. induction k as [|k IH]; intros Hk.
  - cbn [Nat.iter nat_rect]. split; [reflexivity|].
    split; [rewrite Hclock; lia|reflexivity].
  - cbn [Nat.iter nat_rect]. destruct (IH ltac:(lia)) as (Hp & Hc & Ho).
    fold (Nat.iter k tick s).
    set (sk := Nat.iter k tick s) in *.
    assert (gameState (provider sk) = g) as Hg by now rewrite Hp.
    destruct (tick_running sk) as (Hp' & Hc' & Ho');
      rewrite ?Hg, ?Hp; try assumption; [lia|].
    rewrite Hg in *. rewrite Hp', Hc', Ho', Hc. split; [assumption|].
    split; [lia|assumption].
Qed.

(** X29. The flag falls when the clock has run down: in a running game
    whose side to move has n+1 seconds left, the first n ticks change
    nothing but that clock, which loses a second each time, and tick n+1
    sets it to zero, ends the game and names the other side the winner;
    the other clock and the position are untouched throughout. *)
Theorem flag_falls_after_countdown (s : Session) (n : nat) :
  let g := gameState (provider s) in
  let mover := currentTurn g in
  isGameOver (provider s) = false -> isCheckmate g = false ->
  isStalemate g = false -> clock mover s = Z.of_nat (S n) ->
  (forall k, (k <= n)%nat ->
     provider (Nat.iter k tick s) = provider s /\
     clock mover (Nat.iter k tick s) = Z.of_nat (S n) - Z.of_nat k /\
     clock (opponentOf mover) (Nat.iter k tick s)
     = clock (opponentOf mover) s) /\
  let s' := Nat.iter (S n) tick s in
  gameState (provider s') = g /\
  isGameOver (provider s') = true /\
  winner (provider s') = Some (opponentOf mover) /\
  clock mover s' = 0 /\
  clock (opponentOf mover) s' = clock (opponentOf mover) s.
Proof.
  intros g mover Hover Hmate Hstale Hclock. split.
  - intros k Hk. now apply countdown.
  - cbn [Nat.iter nat_rect]. fold (Nat.iter n tick s).
    destruct (countdown s n n Hover Hmate Hstale Hclock (Nat.le_refl n))
      as (Hp & Hc & Ho).
    fold g in Hc, Ho. fold mover in Hc, Ho.
    set (sn := Nat.iter n tick s) in *.
    assert (gameState (provider sn) = g) as Hg by now rewrite Hp.
    destruct (tick_last sn) as (H1 & H2 & H3 & H4 & H5);
      rewrite ?Hg, ?Hp; try assumption; [fold mover; lia|].
    rewrite Hg in *. fold mover in H3, H4, H5, Ho.
    rewrite H5, Ho. auto.
Qed.

Lemma flag_falls_after_countdown_witness :
  (isGameOver (provider initialSession) = false /\
   clock white initialSession = Z.of_nat 600) /\
  isGameOver (provider (Nat.iter 600 tick initialSession)) = true /\
  winner (provider (Nat.iter 600 tick initialSession)) = Some black /\
  clock white (Nat.iter 600 tick initialSession) = 0.
Proof.
  split; [split; reflexivity|].
  destruct (proj2 (flag_falls_after_countdown initialSession 599
                     eq_refl eq_refl eq_refl eq_refl))
    as (_ & H2 & H3 & H4 & _).
  split; [exact H2|]. split; [exact H3|exact H4].
Defined.

End DisplayExtra.

(* ------------------------------------------------------------------ *)

Module CountExtra.
Import ChessLogic Notions InitialBoard Positions.
Import BoardFacts RawMoveFacts CheckFacts MoveFacts UniqueFacts.
Import EngineExtra GameLogic.

Lemma credit_markMoved p clr ty :
  credit (Some (markMoved p)) clr ty = credit (Some p) clr ty.
Proof. reflexivity. Qed.

(** The loop of [getPieceCounts] adds up what each square contributes. *)
Lemma fold_counts (board : BoardState) (l : list Position)
    (acc : PieceCounts) clr ty :
  fold_left
    (fun counts pos =>
       match cellAt board (row pos) (col pos) with
       | Some p => bump counts p
       | None => counts
       end) l acc clr ty
  = acc clr ty
    + total (fun p => credit (cellAt board (row p) (col p)) clr ty) l.
Proof.
  revert acc. induction l as [|a l IH]; intros acc; cbn [fold_left total
    fold_right]; [lia|].
  rewrite IH. fold (total (fun p => credit (cellAt board (row p) (col p))
                                      clr ty) l).
  destruct (cellAt board (row a) (col a)) as [p|]; unfold credit, bump;
    [destruct (colorEq clr (color p) && typeEq ty (type p))|]; lia.
Qed.

Lemma getPieceCounts_total (board : BoardState) clr ty :
  getPieceCounts board clr ty
  = total (fun p => credit (cellAt board (row p) (col p)) clr ty) squares.
Proof. unfold getPieceCounts. now rewrite fold_counts. Qed.

Lemma total_same (f g : Position -> Z) (l : list Position) :
  (forall p, In p l -> g p = f p) -> total g l = total f l.
Proof.
  induction l as [|a l IH]; intros H; cbn [total fold_right]; [reflexivity|].
  fold (total g l). fold (total f l).
  rewrite IH by (intros; apply H; now right).
  rewrite (H a) by now left. reflexivity.
Qed.

Lemma total_update (f g : Position -> Z) (x : Position)
    (l : list Position) :
  List.NoDup l -> In x l ->
  (forall p, In p l -> p <> x -> g p = f p) ->
  total g l = total f l + (g x - f x).
Proof.
  induction l as [|a l IH]; intros Hnd Hx H; [contradiction|].
  apply List.NoDup_cons_iff in Hnd as [Ha Hnd].
  cbn [total fold_right]. fold (total g l). fold (total f l).
  destruct Hx as [->|Hx].
  - rewrite (total_same f g l); [lia|].
    intros p Hp. apply H; [now right|]. intros ->. contradiction.
  - rewrite IH; [|assumption..|intros; apply H; auto; now right].
    rewrite (H a); [lia|now left|]. intros ->. contradiction.
Qed.

Lemma squares_NoDup : List.NoDup squares.
Proof.
  unfold squares.
  apply (NoDup_flat_map_key row (fun r => r)).
  - unfold range8. cbn [map].
    repeat (apply List.NoDup_cons; [cbn [In]; lia|]). constructor.
  - intros r _. unfold range8. cbn [map].
    repeat (apply List.NoDup_cons;
            [cbn [In]; intros H; repeat destruct H as [H|H];
             try discriminate H; exact H|]).
    constructor.
  - intros r m _ Hm. apply in_map_iff in Hm as (c & <- & _). reflexivity.
Qed.

(** Writing one cell changes the counts by what the cell held and what it
    holds now. *)
Lemma counts_setCell (board : BoardState) r c v clr ty :
  wfBoard board -> isInBounds r c = true ->
  getPieceCounts (setCell board r c v) clr ty
  = getPieceCounts board clr ty - credit (cellAt board r c) clr ty
    + credit v clr ty.
Proof.
  intros Hwf Hrc. rewrite !getPieceCounts_total.
  rewrite (total_update
             (fun p => credit (cellAt board (row p) (col p)) clr ty)
             (fun p => credit (cellAt (setCell board r c v) (row p) (col p))
                         clr ty)
             (mkPos r c) squares squares_NoDup).
  - cbn [row col]. rewrite cellAt_setCell by assumption.
    rewrite !Z.eqb_refl. cbn [andb]. lia.
  - apply In_squares, onBoard_inBounds. exact Hrc.
  - intros p _ Hne. rewrite cellAt_setCell by assumption.
    destruct ((row p =? r) && (col p =? c)) eqn:E; [|reflexivity].
    apply andb_true_iff in E as [E1 E2]. apply Z.eqb_eq in E1, E2.
    exfalso. apply Hne. destruct p; simpl in *; now subst.
Qed.

Lemma epBehind_free (board : BoardState) clr ep :
  epBehind board clr ep -> epFree board ep.
Proof. destruct ep as [e|]; [intros [H _]; exact H | trivial]. Qed.

Ltac count_cells Hwf :=
  rewrite ?counts_setCell
    by first [ repeat apply wfBoard_setCell; exact Hwf
             | assumption
             | apply isInBounds_spec; simpl; lia ];
  rewrite ?cellAt_setCell
    by first [ repeat apply wfBoard_setCell; exact Hwf
             | assumption
             | apply isInBounds_spec; simpl; lia ].

(** A legal move keeps every piece on the board except the one it reports as
    captured, which belongs to the other side. *)
Lemma applyMove_counts (board : BoardState) pos to ep piece :
  wfBoard board ->
  cellAt board (row pos) (col pos) = Some piece ->
  epBehind board (color piece) ep ->
  In to (getLegalMoves board pos ep) ->
  exists res,
    applyMove board pos to ep = Some res /\
    (forall q, capturedPiece res = Some q ->
               color q = opponentOf (color piece)) /\
    forall clr ty,
      getPieceCounts board clr ty
      = getPieceCounts (newBoard res) clr ty
        + credit (capturedPiece res) clr ty.
Proof.
  intros Hwf Hcell Hep Hin.
  pose proof (cellAt_onBoard _ _ _ _ Hwf Hcell) as Hpos.
  apply getLegalMoves_In in Hin as (piece' & Hcell' & Hmove & _).
  assert (piece' = piece) as -> by congruence. clear Hcell'.
  destruct Hmove as [Hraw|[Hk Hcast]].
  - (* a raw move *)
    pose proof (getRawMoves_inBounds _ _ _ _ Hraw) as Hto.
    pose proof (getRawMoves_away _ _ _ _ _ Hwf Hcell
                  (epBehind_free _ _ _ Hep) Hraw) as [Hne Hland].
    assert ((row pos =? row to) && (col pos =? col to) = false) as Hdiff.
    { destruct ((row pos =? row to) && (col pos =? col to)) eqn:E;
        [|reflexivity].
      apply andb_true_iff in E as [E1 E2]. apply Z.eqb_eq in E1, E2.
      exfalso. apply Hne. destruct pos, to; simpl in *; now subst. }
    unfold applyMove. rewrite cloneBoard_id, Hcell.
    assert (typeEq (type piece) king && (Z.abs (col to - col pos) =? 2)
            = false) as ->.
    { destruct (typeEq (type piece) king) eqn:Hk; [|reflexivity]. simpl.
      apply typeEq_eq in Hk. unfold getRawMoves in Hraw.
      rewrite Hcell, Hk in Hraw. apply getKingMovesRaw_In in Hraw.
      apply Z.eqb_neq. lia. }
    destruct (typeEq (type piece) pawn &&
              match ep with Some e => positionsEqual to e | None => false end)
      eqn:Hflag.
    + (* the en-passant capture *)
      apply andb_true_iff in Hflag as [Hp He]. apply typeEq_eq in Hp.
      destruct ep as [e|]; [|discriminate].
      apply positionsEqual_eq in He. subst e.
      destruct Hep as (Hfree & q & Hq & Hfoe).
      unfold getRawMoves in Hraw. rewrite Hcell, Hp in Hraw.
      apply getPawnMoves_cases in Hraw as (_ & Hcases).
      assert (row to - match color piece with white => -1 | black => 1 end
              = row pos /\ col to <> col pos) as [Hrow Hcol].
      { destruct Hcases as [[-> _]|[[-> (_ & Hmid & _)]|(Hr & Hc & _)]];
          cbn [row col] in *.
        - exfalso.
          replace (row pos + match color piece with white => -1 | black => 1
                             end
                   - match color piece with white => -1 | black => 1 end)
            with (row pos) in Hq by lia.
          rewrite Hcell in Hq. injection Hq as <-.
          destruct (color piece); discriminate.
        - exfalso.
          replace (row pos + 2 * match color piece with white => -1
                                 | black => 1 end
                   - match color piece with white => -1 | black => 1 end)
            with (row pos + match color piece with white => -1 | black => 1
                            end) in Hq by lia.
          congruence.
        - split; lia. }
      rewrite Hrow in Hq.
      assert (isInBounds (row pos) (col to) = true) as Hcap
        by (eapply cellAt_onBoard; eassumption).
      assert (row to <> row pos) as Hrne by (destruct (color piece); lia).
      eexists. split; [reflexivity|].
      cbn [capturedPiece newBoard]. rewrite Hq. split.
      { intros q' [= <-]. exact Hfoe. }
      intros clr ty. count_cells Hwf.
      rewrite Hdiff.
      replace ((row pos =? row pos) && (col pos =? col to)) with false
        by (symmetry; apply andb_false_iff; right; apply Z.eqb_neq; lia).
      replace ((row to =? row pos) && (col to =? col to)) with false
        by (symmetry; apply andb_false_iff; left; apply Z.eqb_neq; lia).
      rewrite Hcell, Hfree, Hq, credit_markMoved.
      change (credit None clr ty) with 0. lia.
    + (* an ordinary move or capture *)
      eexists. split; [reflexivity|].
      cbn [capturedPiece newBoard]. split.
      { intros q Hq. exact (Hland q Hq). }
      intros clr ty. count_cells Hwf.
      rewrite Hdiff, Hcell, credit_markMoved.
      change (credit None clr ty) with 0. lia.
  - (* castling *)
    apply getCastlingMoves_In in Hcast as (_ & Hr & Hc & Hside).
    destruct pos as [pr pc]. cbn [row col] in *. subst pr pc.
    set (R := backRank (color piece)) in *.
    assert (0 <= R <= 7) as HR
      by (subst R; destruct (color piece); simpl; lia).
    unfold applyMove. rewrite cloneBoard_id. cbn [row col].
    rewrite Hcell, Hk. cbn [typeEq andb].
    destruct Hside as [[-> Hclear]|[-> Hclear]]; cbn [row col].
    + destruct Hclear as (rk & Hrk & _ & _ & H5 & H6 & _).
      change (Z.abs (6 - 4) =? 2) with true. change (0 <? 6 - 4) with true.
      cbv iota zeta. fold R in Hrk, H5, H6. rewrite Hrk.
      eexists. split; [reflexivity|].
      cbn [capturedPiece newBoard]. rewrite H6. split; [discriminate|].
      intros clr ty. count_cells Hwf.
      change (7 =? 5) with false. change (6 =? 7) with false.
      change (6 =? 5) with false. change (4 =? 6) with false.
      change (4 =? 7) with false. change (4 =? 5) with false.
      rewrite !andb_false_r.
      rewrite Hcell, Hrk, H5, H6, !credit_markMoved.
      change (credit None clr ty) with 0. lia.
    + destruct Hclear as (rk & Hrk & _ & _ & H1 & H2 & H3 & _).
      change (Z.abs (2 - 4) =? 2) with true. change (0 <? 2 - 4) with false.
      cbv iota zeta. fold R in Hrk, H1, H2, H3. rewrite Hrk.
      eexists. split; [reflexivity|].
      cbn [capturedPiece newBoard]. rewrite H2. split; [discriminate|].
      intros clr ty. count_cells Hwf.
      change (0 =? 3) with false. change (2 =? 0) with false.
      change (2 =? 3) with false. change (4 =? 2) with false.
      change (4 =? 0) with false. change (4 =? 3) with false.
      rewrite !andb_false_r.
      rewrite Hcell, Hrk, H2, H3, !credit_markMoved.
      change (credit None clr ty) with 0. lia.
Qed.

(** X30. A legal move conserves the pieces.  On a board whose en-passant
    target, when there is one, is empty and has a piece of the other side
    behind it, applying a legal move of the piece on [pos] returns; the
    piece it reports as captured belongs to the other side; and for every
    colour and kind [getPieceCounts] on the old board is [getPieceCounts]
    on the new board plus the captured piece.  So no piece appears, changes
    colour or kind, or is lost unreported: this holds for plain moves,
    captures, en-passant captures and castling alike. *)
Theorem legal_move_conserves_pieces (board : BoardState) pos to ep piece :
  wfBoard board ->
  cellAt board (row pos) (col pos) = Some piece ->
  epBehind board (color piece) ep ->
  In to (getLegalMoves board pos ep) ->
  exists res,
    applyMove board pos to ep = Some res /\
    (forall q, capturedPiece res = Some q ->
               color q = opponentOf (color piece)) /\
    forall clr ty,
      getPieceCounts board clr ty
      = getPieceCounts (newBoard res) clr ty
        + credit (capturedPiece res) clr ty.
Proof.
  exact (applyMove_counts board pos to ep piece).
Qed.

Lemma legal_move_conserves_pieces_witness :
  (wfBoard enPassantReady /\
   cellAt enPassantReady 3 4 = Some (mkPiece pawn white true) /\
   epBehind enPassantReady white (Some (mkPos 2 3)) /\
   In (mkPos 2 3)
      (getLegalMoves enPassantReady (mkPos 3 4) (Some (mkPos 2 3)))) /\
  exists res,
    applyMove enPassantReady (mkPos 3 4) (mkPos 2 3) (Some (mkPos 2 3))
    = Some res /\
    (forall q, capturedPiece res = Some q -> color q = black) /\
    forall clr ty,
      getPieceCounts enPassantReady clr ty
      = getPieceCounts (newBoard res) clr ty
        + credit (capturedPiece res) clr ty.
Proof.
  assert (wfBoard enPassantReady) as Hwf by concrete_board.
  assert (cellAt enPassantReady 3 4 = Some (mkPiece pawn white true))
    as Hcell by (vm_compute; reflexivity).
  assert (epBehind enPassantReady white (Some (mkPos 2 3))) as Hep
    by (vm_compute; split; [reflexivity | eexists; split; reflexivity]).
  assert (In (mkPos 2 3)
             (getLegalMoves enPassantReady (mkPos 3 4) (Some (mkPos 2 3))))
    as Hin by (vm_compute; auto 10).
  split; [conjs; assumption|].
  exact (legal_move_conserves_pieces enPassantReady (mkPos 3 4) (mkPos 2 3)
           (Some (mkPos 2 3)) (mkPiece pawn white true) Hwf Hcell Hep Hin).
Defined.

End CountExtra.
